(** * TSN latency analysis: CBS worst-case delay formulas, topology model
      and end-to-end aggregation

    A shallow embedding of [analysis/latency_calculation_cbs.py],
    [analysis/network_components.py] and
    [analysis/network_latency_analysis.py].

    Numbers.  Python's [int] and [float] values are idealised as exact
    rationals ([Q], compared with [==]); [floor] and [ceil] yield integers
    ([Z]).  A true division by zero raises [ZeroDivisionError] in Python, so
    every [/] of the source is the fallible [pydiv] below and the functions
    that divide live in the [result] monad.

    Objects.  Python lists are mutable objects.  Where aliasing is visible
    to the code modelled here it is kept: the list handed to
    [runAlgorithmsForPort] is an address in a store of list objects, and the
    default value of [Path.__init__]'s [links] parameter is one list object
    shared by every [Path] built without an explicit list. *)

From Stdlib Require Import QArith Qround Lqa Sorting.Sorted.
From stdpp Require Import base option list gmap strings sorting.

Local Open Scope Q_scope.

(** ** Outcomes of a call *)

Inductive exn : Type :=
  | ZeroDivisionError   (* x / 0 *)
  | KeyError            (* d[k] with k not in d *)
  | AttributeError      (* None.attr *)
  | OutOfFuel           (* model only: the iteration budget of a while loop ran out *)
  | Dangling.           (* model only: an address that names no list object *)

Inductive result (A : Type) : Type :=
  | Ok (a : A)
  | Raise (e : exn).
Arguments Ok {A} a.
Arguments Raise {A} e.

#[export] Instance result_ret : MRet result := fun A a => Ok a.
#[export] Instance result_bind : MBind result := fun A B f m =>
  match m with
  | Ok a => f a
  | Raise e => Raise e
  end.

Definition is_Ok {A} (m : result A) : Prop := exists a, m = Ok a.

(** Equality of numeric outcomes: the same exception, or values that are
    equal as rationals. *)
Definition req (m1 m2 : result Q) : Prop :=
  match m1, m2 with
  | Ok a, Ok b => a == b
  | Raise e1, Raise e2 => e1 = e2
  | _, _ => False
  end.

(** ** Python arithmetic on the idealised numbers *)

(** [a / b] *)
Definition pydiv (a b : Q) : result Q :=
  if Qeq_bool b 0 then Raise ZeroDivisionError else Ok (a / b).

(** [max(a, b)]: the first argument wins a tie. *)
Definition pymax (a b : Q) : Q := if Qlt_le_dec a b then b else a.

(** [sorted(l)]: stable, ascending. *)
Fixpoint sorted_insert (x : Q) (l : list Q) : list Q :=
  match l with
  | [] => [x]
  | y :: l' => if Qle_bool x y then x :: y :: l' else y :: sorted_insert x l'
  end.

Definition sorted (l : list Q) : list Q := foldr sorted_insert [] l.

(** ** Insertion-ordered dictionaries with string keys

    The result dictionaries are iterated ([for key in result]), so they are
    kept in insertion order, as Python keeps them. *)
Module Dict.

Definition t : Type := list (string * Q).

(** [d[k]] *)
Fixpoint get (d : t) (k : string) : result Q :=
  match d with
  | [] => Raise KeyError
  | (k', v) :: d' => if String.eqb k' k then Ok v else get d' k
  end.

(** [d[k] = v]: an existing key keeps its place, a new key goes last. *)
Fixpoint set (d : t) (k : string) (v : Q) : t :=
  match d with
  | [] => [(k, v)]
  | (k', v') :: d' =>
      if String.eqb k' k then (k', v) :: d' else (k', v') :: set d' k v
  end.

Definition keys (d : t) : list string := map fst d.

Definition values (d : t) : list Q := map snd d.

End Dict.

(** ** The formula engine ([latency_calculation_cbs.py]) *)
Module CBSLatencyCalculator.

Record t : Type := mk {
  LINKSPEED : Q;
  CMI : Q;
  IFG : Q;
  MIN_PACKET : Q;
  MIN_PACKET_BITS : Q;
  MIN_PACKET_BITS_W_IFG : Q;
  MAX_PACKET : Q;
  MAX_PACKET_BITS : Q;
  MAX_PACKET_BITS_W_IFG : Q;
  ctMaxFrame : Q
}.

(** [__init__] *)
Definition init (linkspeed cmi min_packet_bytes max_packet_bytes ifg_bits : Q) : t :=
  {| LINKSPEED := linkspeed;
     CMI := cmi;
     IFG := ifg_bits;
     MIN_PACKET := min_packet_bytes;
     MIN_PACKET_BITS := min_packet_bytes * 8;
     MIN_PACKET_BITS_W_IFG := min_packet_bytes * 8 + ifg_bits;
     MAX_PACKET := max_packet_bytes;
     MAX_PACKET_BITS := max_packet_bytes * 8;
     MAX_PACKET_BITS_W_IFG := max_packet_bytes * 8 + ifg_bits;
     ctMaxFrame := max_packet_bytes * 8 + ifg_bits |}.

Definition setCMI (self : t) (cmi : Q) : t :=
  {| LINKSPEED := LINKSPEED self;
     CMI := cmi;
     IFG := IFG self;
     MIN_PACKET := MIN_PACKET self;
     MIN_PACKET_BITS := MIN_PACKET_BITS self;
     MIN_PACKET_BITS_W_IFG := MIN_PACKET_BITS_W_IFG self;
     MAX_PACKET := MAX_PACKET self;
     MAX_PACKET_BITS := MAX_PACKET_BITS self;
     MAX_PACKET_BITS_W_IFG := MAX_PACKET_BITS_W_IFG self;
     ctMaxFrame := ctMaxFrame self |}.

Section Formulas.

Variable self : t.

(** The catch-up term of [baStandard] before the clamp. *)
Definition tClassA_raw (idleSlope streamMaxFrame : Q) : result Q :=
  delayA ← pydiv (idleSlope * CMI self) (LINKSPEED self);
  tStream ← pydiv streamMaxFrame (LINKSPEED self);
  pydiv ((delayA - tStream) * LINKSPEED self) idleSlope.

Definition baStandard (idleSlope streamMaxFrame : Q) : result Q :=
  tMaxPacket ← pydiv (ctMaxFrame self) (LINKSPEED self);
  tStreamPacket ← pydiv (streamMaxFrame - IFG self) (LINKSPEED self);
  tClassA ← tClassA_raw idleSlope streamMaxFrame;
  let tClassA := if Qlt_le_dec tClassA 0 then 0 else tClassA in
  let MaxLatency := tMaxPacket + tClassA + tStreamPacket in
  Ok MaxLatency.

(** The body of [for i in range(nrInputLinks)] in [qStandardL3V1],
    run [n] times on the loop state [(fan_in_data, B0)]. *)
Fixpoint qStandardL3V1_loop (idleSlope classMaxFrame : Q) (n : nat)
    (fan_in_data B0 : Q) : result Q :=
  match n with
  | O => Ok fan_in_data
  | S n' =>
      if Qlt_le_dec 0 B0 then
        let Bi := idleSlope in
        let W := LINKSPEED self - pymax B0 Bi in
        a ← pydiv (ctMaxFrame self * idleSlope * LINKSPEED self) (W * LINKSPEED self);
        b ← pydiv (classMaxFrame * LINKSPEED self) W;
        qStandardL3V1_loop idleSlope classMaxFrame n' (fan_in_data + (a + b)) (B0 - Bi)
      else
        qStandardL3V1_loop idleSlope classMaxFrame n' (fan_in_data + classMaxFrame) B0
  end.

Definition qStandardL3V1 (idleSlope classMaxFrame : Q) (nrInputLinks : Z) : result Q :=
  qDelayStand ← pydiv (ctMaxFrame self) (LINKSPEED self);
  fan_in_data ←
    qStandardL3V1_loop idleSlope classMaxFrame (Z.to_nat nrInputLinks) 0 idleSlope;
  fan_in_delay ← pydiv fan_in_data (LINKSPEED self);
  tClass ← pydiv classMaxFrame (LINKSPEED self);
  Ok (qDelayStand + fan_in_delay + tClass).

(** The body of [for Bi in inputIdleSlopes] in [qStandardL3V2]. *)
Fixpoint qStandardL3V2_loop (idleSlope classMaxFrame : Q) (inputIdleSlopes : list Q)
    (fan_in_data B0 : Q) : result Q :=
  match inputIdleSlopes with
  | [] => Ok fan_in_data
  | Bi :: rest =>
      if Qlt_le_dec 0 B0 then
        let W := LINKSPEED self - pymax B0 Bi in
        a ← pydiv (ctMaxFrame self * idleSlope) W;
        b ← pydiv (classMaxFrame * LINKSPEED self) W;
        qStandardL3V2_loop idleSlope classMaxFrame rest (fan_in_data + (a + b)) (B0 - Bi)
      else
        qStandardL3V2_loop idleSlope classMaxFrame rest (fan_in_data + classMaxFrame) B0
  end.

Definition qStandardL3V2 (idleSlope classMaxFrame : Q) (inputIdleSlopes : list Q)
    : result Q :=
  queueing_delay ← pydiv (ctMaxFrame self) (LINKSPEED self);
  fan_in_data ← qStandardL3V2_loop idleSlope classMaxFrame inputIdleSlopes 0 idleSlope;
  fan_in_delay ← pydiv fan_in_data (LINKSPEED self);
  let permanent_delay := fan_in_delay in
  Ok (queueing_delay + fan_in_delay + permanent_delay).

Definition getMaxReservedPlenary (idleSlope : Q) : Z :=
  Qfloor (CMI self * idleSlope).

(** The count [N] of [plenary100Mbit]. *)
Definition plenary100Mbit_N (idleSlope streamMaxFrame : Q) (nrInputLinks : Z) : result Z :=
  let maxReserved := getMaxReservedPlenary idleSlope in
  q ← pydiv (inject_Z maxReserved - streamMaxFrame) (MIN_PACKET_BITS_W_IFG self);
  Ok (Z.min (nrInputLinks - 1) (Qfloor q)).

Definition plenary100Mbit (idleSlope streamMaxFrame : Q) (nrInputLinks : Z) : result Q :=
  let maxReserved := getMaxReservedPlenary idleSlope in
  N ← plenary100Mbit_N idleSlope streamMaxFrame nrInputLinks;
  otherPackets ←
    (if (0 <? N)%Z then
       q ← pydiv (inject_Z maxReserved - streamMaxFrame) (inject_Z N);
       Ok (2 * (inject_Z maxReserved - streamMaxFrame) - inject_Z (Qceiling q))
     else Ok 0);
  let qDelayOctets := ctMaxFrame self + otherPackets + streamMaxFrame in
  pydiv qDelayOctets (LINKSPEED self).

Definition plenaryFasterMedia : result Q :=
  t ← pydiv (ctMaxFrame self) (LINKSPEED self);
  Ok (CMI self + t).

Definition plenaryFasterMediaV2 (idleSlope streamMaxFrame : Q) : result Q :=
  let maxReserved := getMaxReservedPlenary idleSlope in
  N ← pydiv (LINKSPEED self) 100000000;
  q ← pydiv (inject_Z maxReserved - streamMaxFrame) N;
  let streamBits := Qceiling q in
  let streamBits := if (streamBits <? 0)%Z then 0%Z else streamBits in
  let streamBits := inject_Z streamBits in
  let sendSlope := idleSlope - LINKSPEED self in
  loCredit ← pydiv (streamBits * sendSlope) (LINKSPEED self);
  hiCredit ← pydiv (ctMaxFrame self * idleSlope) (LINKSPEED self);
  maxBurstSize ← pydiv (LINKSPEED self * (loCredit - hiCredit)) sendSlope;
  maxBurstTime ← pydiv (loCredit - hiCredit) sendSlope;
  cycles ← pydiv maxBurstTime (CMI self);
  let totalBitsQueued := N * maxBurstSize + inject_Z (Qfloor cycles) * streamMaxFrame in
  a ← pydiv totalBitsQueued idleSlope;
  b ← pydiv streamBits (LINKSPEED self);
  c ← pydiv (ctMaxFrame self) (LINKSPEED self);
  Ok (a - (maxBurstTime - b) + c).

(** [getEmptyResultDict] *)
Definition getEmptyResultDict : Dict.t :=
  [ ("baStandard"%string, 0); ("qStandardL3V1"%string, 0); ("qStandardL3V2"%string, 0);
    ("plenary100Mbit"%string, 0); ("plenaryFasterMedia"%string, 0);
    ("plenaryFasterMediaV2"%string, 0); ("qStandardL3V3"%string, 0) ].

End Formulas.

(** *** Calls that see objects

    [runAlgorithmsForPort] receives a list object, copies it with
    [sorted] and reverses the copy in place.  A call runs on the
    calculator object and the store of list objects, and hands both back,
    also when it raises. *)
Record state : Type := mkState {
  self : t;
  lists : list (list Q)
}.

Definition M (A : Type) : Type := state -> result A * state.

Definition ret {A} (a : A) : M A := fun st => (Ok a, st).

Definition bind {A B} (m : M A) (f : A -> M B) : M B := fun st =>
  match m st with
  | (Ok a, st') => f a st'
  | (Raise e, st') => (Raise e, st')
  end.

(** A call [self.f(...)] of a method that only reads the calculator. *)
Definition method {A} (f : t -> result A) : M A := fun st => (f (self st), st).

(** The contents of the list object at an address. *)
Definition read (a : nat) : M (list Q) := fun st =>
  match lists st !! a with
  | Some l => (Ok l, st)
  | None => (Raise Dangling, st)
  end.

(** A new list object; its address is the next free one. *)
Definition alloc (l : list Q) : M nat := fun st =>
  (Ok (length (lists st)), {| self := self st; lists := lists st ++ [l] |}).

(** [l.reverse()]: in place. *)
Definition py_reverse (a : nat) : M unit := fun st =>
  match lists st !! a with
  | Some l => (Ok tt, {| self := self st; lists := <[a := reverse l]> (lists st) |})
  | None => (Raise Dangling, st)
  end.

(** [sorted(l)]: a new list object. *)
Definition py_sorted (a : nat) : M nat := bind (read a) (fun l => alloc (sorted l)).

Notation "x <~ m ; k" := (bind m (fun x => k))
  (at level 20, m at level 100, k at level 200, right associativity, only parsing).

Definition runAlgorithmsForPort (idleSlope streamMaxFrame classMaxFrame : Q)
    (nrInputLinks : Z) (inputIdleSlopes : nat) : M Dict.t :=
  inputIdleSlopesSorted <~ py_sorted inputIdleSlopes;
  let results : Dict.t := [] in
  v <~ method (fun self => baStandard self idleSlope streamMaxFrame);
  let results := Dict.set results "baStandard" v in
  v <~ method (fun self => qStandardL3V1 self idleSlope classMaxFrame nrInputLinks);
  let results := Dict.set results "qStandardL3V1" v in
  l <~ read inputIdleSlopesSorted;
  v <~ method (fun self => qStandardL3V2 self idleSlope classMaxFrame l);
  let results := Dict.set results "qStandardL3V2" v in
  v <~ method (fun self => plenary100Mbit self idleSlope streamMaxFrame nrInputLinks);
  let results := Dict.set results "plenary100Mbit" v in
  v <~ method (fun self => plenaryFasterMedia self);
  let results := Dict.set results "plenaryFasterMedia" v in
  v <~ method (fun self => plenaryFasterMediaV2 self idleSlope streamMaxFrame);
  let results := Dict.set results "plenaryFasterMediaV2" v in
  _ <~ py_reverse inputIdleSlopesSorted;
  l <~ read inputIdleSlopesSorted;
  v <~ method (fun self => qStandardL3V2 self idleSlope classMaxFrame l);
  let results := Dict.set results "qStandardL3V3" v in
  ret results.

End CBSLatencyCalculator.

(** ** The topology model ([network_components.py]) *)

(** Monadic left fold: a [for] loop whose body may raise. *)
Fixpoint foldM {A B : Type} (f : B -> A -> result B) (l : list A) (b : B) : result B :=
  match l with
  | [] => Ok b
  | a :: l' => b' ← f b a; foldM f l' b'
  end.

Module Flow.

Record t : Type := mk {
  src : string;
  dst : string;
  size : Q;
  deadline : Q;
  period : Q;
  priority : Z
}.

End Flow.

Module Link.

Record t : Type := mk {
  src : string;
  dst : string;
  rate : Q;
  delay : Q;
  idleSlope : Q
}.

Definition isLinkFor (self : t) (src' dst' : string) (ignoreDirection : bool) : bool :=
  if ignoreDirection then
    (bool_decide (src self = src') && bool_decide (dst self = dst'))
    || (bool_decide (src self = dst') && bool_decide (dst self = src'))
  else bool_decide (src self = src') && bool_decide (dst self = dst').

End Link.

Module Path.

(** The list object behind [self.links]: the one default object of
    [__init__] ([links=[]], created once, when the class is defined), or a
    list given by the caller. *)
Inductive links_obj : Type :=
  | Default
  | Own (l : list Link.t).

Record t : Type := mk {
  src : string;
  dst : string;
  links : links_obj
}.

(** [Path(src, dst)] *)
Definition init (src dst : string) : t := mk src dst Default.

(** The contents of [self.links], given the contents of the default object. *)
Definition contents (default : list Link.t) (self : t) : list Link.t :=
  match links self with
  | Default => default
  | Own l => l
  end.

(** The body of [addLinks] on the contents of the list. *)
Definition add (l : list Link.t) (link : Link.t) : list Link.t :=
  if existsb (fun l' => Link.isLinkFor l' (Link.src link) (Link.dst link) false) l
  then l else l ++ [link].

(** [self.addLinks(link)]: appends to the list object, whichever it is. *)
Definition addLinks (self : t) (link : Link.t) (default : list Link.t)
    : t * list Link.t :=
  match links self with
  | Default => (self, add default link)
  | Own l => (mk (src self) (dst self) (Own (add l link)), default)
  end.

End Path.

Module Network.

Record t : Type := mk {
  bridges : list string;
  nodes : list string;
  links : list Link.t;
  flows : list Flow.t;
  paths : list Path.t;
  IFG : Q
}.

Definition addBridge (self : t) (bridge : string) : t :=
  if bool_decide (bridge ∈ bridges self) then self
  else mk (bridges self ++ [bridge]) (nodes self) (links self) (flows self) (paths self)
          (IFG self).

Definition addNode (self : t) (node : string) : t :=
  if bool_decide (node ∈ nodes self) then self
  else mk (bridges self) (nodes self ++ [node]) (links self) (flows self) (paths self)
          (IFG self).

Definition getLink (self : t) (src dst : string) : option Link.t :=
  List.find (fun link => Link.isLinkFor link src dst false) (links self).

Definition addLink (self : t) (src dst : string) (rate delay idleSlope : Q) : t :=
  match getLink self src dst with
  | None =>
      let link := Link.mk src dst rate delay idleSlope in
      mk (bridges self) (nodes self) (links self ++ [link]) (flows self) (paths self)
         (IFG self)
  | Some _ => self
  end.

Definition addBidirectionalLink (self : t) (src dst : string) (rate delay idleSlope : Q)
    : t :=
  let self := addLink self src dst rate delay idleSlope in
  addLink self dst src rate delay idleSlope.

Definition lookupPath (self : t) (src dst : string) : option Path.t :=
  List.find (fun path => bool_decide (Path.src path = src)
                         && bool_decide (Path.dst path = dst)) (paths self).

Definition addPath (self : t) (path : Path.t) : t :=
  match lookupPath self (Path.src path) (Path.dst path) with
  | None =>
      mk (bridges self) (nodes self) (links self) (flows self) (paths self ++ [path])
         (IFG self)
  | Some _ => self
  end.

Definition getFlow (self : t) (src dst : string) : option Flow.t :=
  List.find (fun flow => bool_decide (Flow.src flow = src)
                         && bool_decide (Flow.dst flow = dst)) (flows self).

Definition addFlow (self : t) (flow : Flow.t) : t :=
  match getFlow self (Flow.src flow) (Flow.dst flow) with
  | None =>
      mk (bridges self) (nodes self) (links self) (flows self ++ [flow]) (paths self)
         (IFG self)
  | Some _ => self
  end.

(** *** [calculateShortestPath] *)

(** The state of the search: [unvisited], [distances], [previous]. *)
Definition search : Type := list string * gmap string nat * gmap string string.

(** The body of [for link in self.links], for one link. *)
Definition scan_link (current : string) (visited : list string) (st : search)
    (link : Link.t) : result search :=
  let '(unvisited, distances, previous) := st in
  if bool_decide (Link.src link = current)
     && negb (bool_decide (Link.dst link ∈ visited)) then
    let unvisited :=
      if bool_decide (Link.dst link ∈ unvisited) then unvisited
      else unvisited ++ [Link.dst link] in
    match distances !! Link.dst link with
    | Some _ => Ok (unvisited, distances, previous)
    | None =>
        match distances !! current with
        | None => Raise KeyError
        | Some d =>
            Ok (unvisited, <[Link.dst link := (d + 1)%nat]> distances,
                <[Link.dst link := current]> previous)
        end
    end
  else Ok st.

(** [while unvisited: ...]; [fuel] bounds the number of iterations. *)
Fixpoint search_loop (fuel : nat) (all_links : list Link.t) (unvisited visited : list string)
    (distances : gmap string nat) (previous : gmap string string)
    : result (gmap string nat * gmap string string) :=
  match unvisited with
  | [] => Ok (distances, previous)
  | current :: unvisited =>
      (* current = unvisited[0]; unvisited.remove(current) drops that head *)
      match fuel with
      | O => Raise OutOfFuel
      | S fuel =>
          let visited := visited ++ [current] in
          st ← foldM (scan_link current visited) all_links (unvisited, distances, previous);
          let '(unvisited, distances, previous) := st in
          search_loop fuel all_links unvisited visited distances previous
      end
  end.

(** [while current != src: ...], collecting the links into [path].  A
    [getLink] that finds nothing hands [None] to [addLinks], which raises
    [AttributeError] at [link.src] once the path holds a link (and would
    store [None] in an empty one); paths hold links only here, so the model
    raises in both cases.  The search records [previous[v]] only when it
    has seen a link into [v], so this branch is not taken after it. *)
Fixpoint walk_back (fuel : nat) (self : t) (previous : gmap string string)
    (src current : string) (path : Path.t) (default : list Link.t)
    : result Path.t * list Link.t :=
  if bool_decide (current = src) then (Ok path, default)
  else
    match fuel with
    | O => (Raise OutOfFuel, default)
    | S fuel =>
        match previous !! current with
        | None => (Raise KeyError, default)
        | Some p =>
            match getLink self p current with
            | None => (Raise AttributeError, default)
            | Some link =>
                let '(path, default) := Path.addLinks path link default in
                walk_back fuel self previous src p path default
            end
        end
    end.

(** [calculateShortestPath(src, dst)], on the network and the contents of
    the default list object of [Path.__init__]. *)
Definition calculateShortestPath (fuel : nat) (src dst : string)
    (self : t) (default : list Link.t) : result Path.t * (t * list Link.t) :=
  match lookupPath self src dst with
  | Some path => (Ok path, (self, default))
  | None =>
      match search_loop fuel (links self) [src] [] {[src := 0%nat]} ∅ with
      | Raise e => (Raise e, (self, default))
      | Ok (distances, previous) =>
          let path := Path.init src dst in
          match walk_back fuel self previous src dst path default with
          | (Raise e, default) => (Raise e, (self, default))
          | (Ok path, default) => (Ok path, (addPath self path, default))
          end
      end
  end.

(** *** Fan-in and frame-size queries *)

Definition getInputIdleSlopes (self : t) (link : Link.t) : list Q :=
  map Link.idleSlope
    (filter (fun l => Link.src l ≠ Link.dst link ∧ Link.dst l = Link.src link) (links self)).

Definition findClassMaxFrame (self : t) : Q :=
  fold_left (fun maxFrame flow =>
               if Qlt_le_dec maxFrame (Flow.size flow) then Flow.size flow else maxFrame)
            (flows self) 0.

(** [existsFlowOnLink] calls [self.findPath], which [Network] does not
    define: the first iteration of its loop raises. *)
Definition existsFlowOnLink (self : t) (link : Link.t) : result bool :=
  match flows self with
  | [] => Ok false
  | _ :: _ => Raise AttributeError
  end.

Definition getNumInputLinks (self : t) (link : Link.t) (onlyCountLinksWithFlows : bool)
    : result Z :=
  foldM (fun count l =>
           if bool_decide (Link.src l ≠ Link.dst link)
              && bool_decide (Link.dst l = Link.src link) then
             if negb onlyCountLinksWithFlows then Ok (count + 1)%Z
             else
               b ← existsFlowOnLink self l;
               Ok (if b : bool then (count + 1)%Z else count)
           else Ok count)
        (links self) 0%Z.

(** *** Idle slopes

    A Link is a mutable object, held here by value.  The two methods below
    assign [link.idleSlope] on Link objects of [self.links]; they are
    modelled by the state of those objects after the call, in the order of
    [self.links].  (A path that holds the same objects sees the assignment
    in Python; path contents are not touched here, and neither method reads
    an idle slope.) *)

Definition with_idleSlope (link : Link.t) (idleSlope : Q) : Link.t :=
  Link.mk (Link.src link) (Link.dst link) (Link.rate link) (Link.delay link) idleSlope.

(** [setLinkIdleSlope(src, dst, idleSlope)]: the first link that [getLink]
    finds is assigned. *)
Fixpoint setLinkIdleSlope_in (all_links : list Link.t) (src dst : string) (idleSlope : Q)
    : list Link.t :=
  match all_links with
  | [] => []
  | link :: rest =>
      if Link.isLinkFor link src dst false then with_idleSlope link idleSlope :: rest
      else link :: setLinkIdleSlope_in rest src dst idleSlope
  end.

Definition setLinkIdleSlope (self : t) (src dst : string) (idleSlope : Q) : list Link.t :=
  setLinkIdleSlope_in (links self) src dst idleSlope.

(** The two inner loops of [calculateLinkIdleSlopesFromFlows] for one
    link: [for flow in self.flows], [for l in path.links].  A flow without
    cached path has [path = None], and [path.links] raises. *)
Definition flow_share (self : t) (cmi : Q) (link : Link.t) (flow : Flow.t)
    (idleSlope : Q) (l : Link.t) : result Q :=
  if Link.isLinkFor l (Link.src link) (Link.dst link) false then
    x ← pydiv (Flow.size flow * 8 + IFG self) cmi;
    Ok (idleSlope + x)
  else Ok idleSlope.

Definition link_idleSlope (self : t) (default : list Link.t) (cmi : Q) (link : Link.t)
    : result Q :=
  foldM (fun idleSlope flow =>
           match lookupPath self (Flow.src flow) (Flow.dst flow) with
           | None => Raise AttributeError
           | Some path =>
               foldM (flow_share self cmi link flow) (Path.contents default path) idleSlope
           end)
        (flows self) 0.

(** [for link in self.links]: returns the outcome, the Link objects after
    the loop (assigned up to the link at which it raised, if it did) and
    the links for which the warning was printed, as they were when it was
    printed. *)
Fixpoint idleSlopes_loop (self : t) (default : list Link.t) (cmi : Q)
    (todo : list Link.t) : result unit * (list Link.t * list Link.t) :=
  match todo with
  | [] => (Ok tt, ([], []))
  | link :: rest =>
      match link_idleSlope self default cmi link with
      | Raise e => (Raise e, (link :: rest, []))
      | Ok idleSlope =>
          let warned := if Qlt_le_dec (Link.rate link) idleSlope then [link] else [] in
          let '(r, (rest, warnings)) := idleSlopes_loop self default cmi rest in
          (r, (with_idleSlope link idleSlope :: rest, warned ++ warnings))
      end
  end.

Definition calculateLinkIdleSlopesFromFlows (self : t) (default : list Link.t) (cmi : Q)
    : result unit * (list Link.t * list Link.t) :=
  idleSlopes_loop self default cmi (links self).

(** *** [initializeAllPaths] *)

(** [for dst in self.nodes: if src != dst: self.calculateShortestPath(src, dst)] *)
Fixpoint initialize_from (fuel : nat) (src : string) (dsts : list string)
    (self : t) (default : list Link.t) : result unit * (t * list Link.t) :=
  match dsts with
  | [] => (Ok tt, (self, default))
  | dst :: dsts =>
      if bool_decide (src = dst) then initialize_from fuel src dsts self default
      else
        match calculateShortestPath fuel src dst self default with
        | (Raise e, st) => (Raise e, st)
        | (Ok _, (self, default)) => initialize_from fuel src dsts self default
        end
  end.

(** [for src in self.nodes: ...]; [all_nodes] is [self.nodes], which the
    calls do not change. *)
Fixpoint initialize_all (fuel : nat) (srcs all_nodes : list string)
    (self : t) (default : list Link.t) : result unit * (t * list Link.t) :=
  match srcs with
  | [] => (Ok tt, (self, default))
  | src :: srcs =>
      match initialize_from fuel src all_nodes self default with
      | (Raise e, st) => (Raise e, st)
      | (Ok _, (self, default)) => initialize_all fuel srcs all_nodes self default
      end
  end.

Definition initializeAllPaths (fuel : nat) (self : t) (default : list Link.t)
    : result unit * (t * list Link.t) :=
  initialize_all fuel (nodes self) (nodes self) self default.

End Network.

(** ** The latency orchestrator ([network_latency_analysis.py]) *)
Module NetworkLatencyAnalysis.

Record t : Type := mk {
  network : Network.t;
  calculator : CBSLatencyCalculator.t;
  linkspeed : Q;
  cmi : Q;
  switchDelay : Q;
  ifg : Q
}.

(** [__init__] *)
Definition init (linkspeed cmi switch_delay min_packet_bytes max_packet_bytes ifg_bits : Q)
    : t :=
  {| network := Network.mk [] [] [] [] [] ifg_bits;
     calculator :=
       CBSLatencyCalculator.init linkspeed cmi min_packet_bytes max_packet_bytes ifg_bits;
     linkspeed := linkspeed;
     cmi := cmi;
     switchDelay := switch_delay;
     ifg := ifg_bits |}.

Definition set_calculator (self : t) (c : CBSLatencyCalculator.t) : t :=
  mk (network self) c (linkspeed self) (cmi self) (switchDelay self) (ifg self).

(** [calculateQueueDelayForLink(link, flow, classMaxFrame)].  The list
    built by [getInputIdleSlopes] is a new object that nothing else
    refers to: the engine runs on a store holding just that list, and the
    calculator it leaves is the analysis's calculator afterwards. *)
Definition calculateQueueDelayForLink (link : Link.t) (flow : Flow.t) (classMaxFrame : Q)
    (self : t) : result Dict.t * t :=
  if bool_decide (Link.src link ∈ Network.nodes (network self)) then
    (Ok CBSLatencyCalculator.getEmptyResultDict, self)
  else
    let classMaxFrame :=
      if Qeq_bool classMaxFrame (-1)
      then Network.findClassMaxFrame (network self) * 8 + ifg self
      else classMaxFrame in
    let streamMaxFrame := Flow.size flow * 8 + ifg self in
    let inputIdleSlopes := Network.getInputIdleSlopes (network self) link in
    match Network.getNumInputLinks (network self) link false with
    | Raise e => (Raise e, self)
    | Ok nrInputLinks =>
        let '(r, st) :=
          CBSLatencyCalculator.runAlgorithmsForPort
            (Link.idleSlope link) streamMaxFrame classMaxFrame nrInputLinks 0%nat
            (CBSLatencyCalculator.mkState (calculator self) [inputIdleSlopes]) in
        (r, set_calculator self (CBSLatencyCalculator.self st))
    end.

(** The body of [for key in result], for one key ([res] is [result]). *)
Definition add_delay (self : t) (link : Link.t) (res : Dict.t) (transmissionDelay : Q)
    (flowDelay : Dict.t) (key : string) : result Dict.t :=
  a ← Dict.get flowDelay key;
  b ← Dict.get res key;
  let flowDelay := Dict.set flowDelay key (a + b + transmissionDelay) in
  if bool_decide (Link.src link ∈ Network.bridges (network self)) then
    c ← Dict.get flowDelay key;
    Ok (Dict.set flowDelay key (c + switchDelay self))
  else Ok flowDelay.

(** [for link in path.links] *)
Fixpoint delay_loop (flow : Flow.t) (classMaxFrame transmissionDelay : Q)
    (links : list Link.t) (flowDelay : Dict.t) (self : t) : result Dict.t * t :=
  match links with
  | [] => (Ok flowDelay, self)
  | link :: links =>
      match calculateQueueDelayForLink link flow classMaxFrame self with
      | (Raise e, self) => (Raise e, self)
      | (Ok res, self) =>
          match foldM (add_delay self link res transmissionDelay)
                      (Dict.keys res) flowDelay with
          | Raise e => (Raise e, self)
          | Ok flowDelay =>
              delay_loop flow classMaxFrame transmissionDelay links flowDelay self
          end
      end
  end.

(** [calculateEndToEndDelayForFlow(flow)]; [default] is the contents of
    the default list object of [Path.__init__], which a cached path may
    hold as its [links]. *)
Definition calculateEndToEndDelayForFlow (default : list Link.t) (flow : Flow.t) (self : t)
    : result Dict.t * t :=
  let classMaxFrame := Network.findClassMaxFrame (network self) * 8 + ifg self in
  let flowDelay := CBSLatencyCalculator.getEmptyResultDict in
  match pydiv (Flow.size flow * 8 + ifg self) (linkspeed self) with
  | Raise e => (Raise e, self)
  | Ok transmissionDelay =>
      match Network.lookupPath (network self) (Flow.src flow) (Flow.dst flow) with
      | Some path =>
          delay_loop flow classMaxFrame transmissionDelay (Path.contents default path)
                     flowDelay self
      | None => (Ok flowDelay, self)
      end
  end.

(** [self.calculator.setCMI(cmi)] *)
Definition setCMI (self : t) (cmi' : Q) : t :=
  set_calculator self (CBSLatencyCalculator.setCMI (calculator self) cmi').

(** [for flow in self.network.flows] of [calculateEndToEndDelays].
    [Flow] defines neither [__eq__] nor [__hash__], so the keys of
    [perFlowDelay] are the Flow objects; the flows of the network are
    different objects ([addFlow] appends an object once), so every
    iteration adds an entry, kept here in insertion order. *)
Fixpoint delays_loop (default : list Link.t) (useFlowIntervalAsCMI : bool)
    (flows : list Flow.t) (perFlowDelay : list (Flow.t * Dict.t)) (self : t)
    : result (list (Flow.t * Dict.t)) * t :=
  match flows with
  | [] => (Ok perFlowDelay, self)
  | flow :: flows =>
      let self := if useFlowIntervalAsCMI then setCMI self (Flow.period flow) else self in
      match calculateEndToEndDelayForFlow default flow self with
      | (Raise e, self) => (Raise e, self)
      | (Ok d, self) =>
          delays_loop default useFlowIntervalAsCMI flows (perFlowDelay ++ [(flow, d)]) self
      end
  end.

Definition calculateEndToEndDelays (default : list Link.t) (useFlowIntervalAsCMI : bool)
    (self : t) : result (list (Flow.t * Dict.t)) * t :=
  match delays_loop default useFlowIntervalAsCMI (Network.flows (network self)) [] self with
  | (Raise e, self) => (Raise e, self)
  | (Ok perFlowDelay, self) =>
      let self := if useFlowIntervalAsCMI then setCMI self (cmi self) else self in
      (Ok perFlowDelay, self)
  end.

End NetworkLatencyAnalysis.

(** ** Reference definitions, written from the specification's wording *)
Module Spec.

Import CBSLatencyCalculator.

(** The seven formula names, in the order [runAlgorithmsForPort] stores them. *)
Definition formula_names : list string :=
  [ "baStandard"; "qStandardL3V1"; "qStandardL3V2"; "plenary100Mbit";
    "plenaryFasterMedia"; "plenaryFasterMediaV2"; "qStandardL3V3" ]%string.

(** [ctMaxFrame/linkspeed
     + max(0, (idleSlope*CMI/linkspeed - streamMaxFrame/linkspeed)*linkspeed/idleSlope)
     + (streamMaxFrame - IFG)/linkspeed] *)
Definition baStandard_formula (c : t) (idleSlope streamMaxFrame : Q) : result Q :=
  t1 ← pydiv (ctMaxFrame c) (LINKSPEED c);
  a ← pydiv (idleSlope * CMI c) (LINKSPEED c);
  b ← pydiv streamMaxFrame (LINKSPEED c);
  x ← pydiv ((a - b) * LINKSPEED c) idleSlope;
  t3 ← pydiv (streamMaxFrame - IFG c) (LINKSPEED c);
  Ok (t1 + pymax 0 x + t3).

(** The same with the catch-up term replaced by zero. *)
Definition baStandard_clamped (c : t) (streamMaxFrame : Q) : result Q :=
  t1 ← pydiv (ctMaxFrame c) (LINKSPEED c);
  t3 ← pydiv (streamMaxFrame - IFG c) (LINKSPEED c);
  Ok (t1 + 0 + t3).

(** [l'] is [l] in ascending, respectively descending, order. *)
Definition ascending (l l' : list Q) : Prop := l' ≡ₚ l ∧ Sorted Qle l'.
Definition descending (l l' : list Q) : Prop := l' ≡ₚ l ∧ Sorted (flip Qle) l'.

(** The value stored under a key (zero for a missing key). *)
Definition value (key : string) (d : Dict.t) : Q :=
  match Dict.get d key with
  | Ok v => v
  | Raise _ => 0
  end.

(** Equality of dictionary outcomes: the same exception, or the same keys
    in the same order with values equal as rationals. *)
Definition dict_eq (d1 d2 : Dict.t) : Prop :=
  Dict.keys d1 = Dict.keys d2 ∧ Forall2 Qeq (Dict.values d1) (Dict.values d2).

Definition dict_req (m1 m2 : result Dict.t) : Prop :=
  match m1, m2 with
  | Ok d1, Ok d2 => dict_eq d1 d2
  | Raise e1, Raise e2 => e1 = e2
  | _, _ => False
  end.

(** A directed path: consecutive links of the network, from [a] to [b]. *)
Fixpoint directed_path (all_links : list Link.t) (a b : string) (p : list Link.t) : Prop :=
  match p with
  | [] => a = b
  | l :: p' => l ∈ all_links ∧ Link.src l = a ∧ directed_path all_links (Link.dst l) b p'
  end.

Definition reachable (all_links : list Link.t) (a b : string) : Prop :=
  exists p, directed_path all_links a b p.

(** Sum of a list of numbers. *)
Definition Qsum (l : list Q) : Q := foldr Qplus 0 l.

(** The dictionary that maps every formula name [key] to [g key]. *)
Definition dict_of (g : string -> Q) : Dict.t := map (fun key => (key, g key)) formula_names.

(** The queue delays of the links of a path, link by link. *)
Fixpoint per_link_delays (self : NetworkLatencyAnalysis.t) (flow : Flow.t)
    (classMaxFrame : Q) (links : list Link.t) : result (list Dict.t) :=
  match links with
  | [] => Ok []
  | link :: links =>
      r ← fst (NetworkLatencyAnalysis.calculateQueueDelayForLink link flow classMaxFrame self);
      rs ← per_link_delays self flow classMaxFrame links;
      Ok (r :: rs)
  end.

(** The number of links that leave a registered bridge. *)
Definition bridge_links (self : NetworkLatencyAnalysis.t) (links : list Link.t) : nat :=
  length (filter (fun l => Link.src l ∈ Network.bridges (NetworkLatencyAnalysis.network self))
                 links).

(** The end-to-end delay as the specification states it: for every
    formula, the per-link queue delays summed over the [k] links of the
    path, plus [k] transmission delays, plus one switch delay per link that
    leaves a bridge. *)
Definition end_to_end (self : NetworkLatencyAnalysis.t) (flow : Flow.t)
    (links : list Link.t) : result Dict.t :=
  let classMaxFrame :=
    Network.findClassMaxFrame (NetworkLatencyAnalysis.network self) * 8
    + NetworkLatencyAnalysis.ifg self in
  transmissionDelay ←
    pydiv (Flow.size flow * 8 + NetworkLatencyAnalysis.ifg self)
          (NetworkLatencyAnalysis.linkspeed self);
  delays ← per_link_delays self flow classMaxFrame links;
  Ok (dict_of (fun key =>
                 Qsum (map (value key) delays)
                 + inject_Z (Z.of_nat (length links)) * transmissionDelay
                 + inject_Z (Z.of_nat (bridge_links self links))
                   * NetworkLatencyAnalysis.switchDelay self)).

End Spec.

(** ** Closed forms of two loops, used in the proofs *)
Module Derived.

Import CBSLatencyCalculator.

(** What one pass of [for key in result] adds to the value [a] under a
    key, [b] being the link's queue delay under that key. *)
Definition add_once (self : NetworkLatencyAnalysis.t) (link : Link.t) (td a b : Q) : Q :=
  if bool_decide (Link.src link ∈ Network.bridges (NetworkLatencyAnalysis.network self))
  then a + b + td + NetworkLatencyAnalysis.switchDelay self else a + b + td.

(** What a call of [runAlgorithmsForPort] on the list [l] returns and
    leaves, given the calculator [c] and the list objects [ls] before the
    call: the formulas run in order, the first exception ends the call, and
    the sorted copy of [l] is the one new list object. *)
Definition run_outcome (idleSlope streamMaxFrame classMaxFrame : Q) (nrInputLinks : Z)
    (c : t) (ls : list (list Q)) (l : list Q) : result Dict.t * state :=
  let st1 := mkState c (ls ++ [sorted l]) in
  let st2 := mkState c (ls ++ [reverse (sorted l)]) in
  match baStandard c idleSlope streamMaxFrame with
  | Raise e => (Raise e, st1)
  | Ok v1 =>
  match qStandardL3V1 c idleSlope classMaxFrame nrInputLinks with
  | Raise e => (Raise e, st1)
  | Ok v2 =>
  match qStandardL3V2 c idleSlope classMaxFrame (sorted l) with
  | Raise e => (Raise e, st1)
  | Ok v3 =>
  match plenary100Mbit c idleSlope streamMaxFrame nrInputLinks with
  | Raise e => (Raise e, st1)
  | Ok v4 =>
  match plenaryFasterMedia c with
  | Raise e => (Raise e, st1)
  | Ok v5 =>
  match plenaryFasterMediaV2 c idleSlope streamMaxFrame with
  | Raise e => (Raise e, st1)
  | Ok v6 =>
  match qStandardL3V2 c idleSlope classMaxFrame (reverse (sorted l)) with
  | Raise e => (Raise e, st2)
  | Ok v7 =>
      (Ok [ ("baStandard"%string, v1); ("qStandardL3V1"%string, v2);
            ("qStandardL3V2"%string, v3); ("plenary100Mbit"%string, v4);
            ("plenaryFasterMedia"%string, v5); ("plenaryFasterMediaV2"%string, v6);
            ("qStandardL3V3"%string, v7) ], st2)
  end end end end end end end.

End Derived.

(** ** The invariant of the search in [calculateShortestPath] *)
Module Search.

Section Invariant.

Variables (all_links : list Link.t) (src : string).

Definition edge (u v : string) : Prop :=
  exists l, l ∈ all_links /\ Link.src l = u /\ Link.dst l = v.

(** Every node the search can meet: the start and the heads of the links. *)
Definition candidates : list string := src :: (Link.dst <$> all_links).

(** What holds of [unvisited = A ++ B], [visited = V], [distances = D] and
    [previous = P] at every link of the scan: [A] is the rest of level [k],
    [B] the part of level [k + 1] found so far. *)
Record base (k : nat) (A B V : list string)
    (D : gmap string nat) (P : gmap string string) : Prop := {
  base_src : D !! src = Some 0%nat;
  base_dom : forall v, is_Some (D !! v) <-> v ∈ A ++ B \/ v ∈ V;
  base_nodup : NoDup (A ++ B ++ V);
  base_cand : forall v, v ∈ A ++ B ++ V -> v ∈ candidates;
  base_A : Forall (fun v => D !! v = Some k) A;
  base_B : Forall (fun v => D !! v = Some (S k)) B;
  base_V : Forall (fun v => exists d, D !! v = Some d /\ (d <= k)%nat) V;
  base_tree : forall v d, D !! v = Some (S d) ->
                exists u, P !! v = Some u /\ D !! u = Some d /\ edge u v;
  base_zero : forall v, D !! v = Some 0%nat -> v = src
}.

(** The links out of the nodes of [us] lead to nodes at most one step further. *)
Definition closed (us : list string) (D : gmap string nat) : Prop :=
  forall u v, u ∈ us -> edge u v ->
    exists du dv, D !! u = Some du /\ D !! v = Some dv /\ (dv <= S du)%nat.

(** The same for the links of [ls] that leave [current], which is at level [k]. *)
Definition scanned (ls : list Link.t) (current : string) (k : nat)
    (D : gmap string nat) : Prop :=
  forall l, l ∈ ls -> Link.src l = current ->
    exists dv, D !! Link.dst l = Some dv /\ (dv <= S k)%nat.

(** What the finished search has established. *)
Definition settled (D : gmap string nat) (P : gmap string string) : Prop :=
  D !! src = Some 0%nat
  /\ (forall v d, D !! v = Some (S d) ->
        exists u, P !! v = Some u /\ D !! u = Some d /\ edge u v)
  /\ (forall v, D !! v = Some 0%nat -> v = src)
  /\ (forall u v du, D !! u = Some du -> edge u v ->
        exists dv, D !! v = Some dv /\ (dv <= S du)%nat).

End Invariant.

End Search.

(** ** Sequences of registration calls *)
Module Registry.

Import Network.

(** A call of one of the five registration methods. *)
Inductive call : Type :=
  | AddNode (node : string)
  | AddBridge (bridge : string)
  | AddLink (src dst : string) (rate delay idleSlope : Q)
  | AddBidirectionalLink (src dst : string) (rate delay idleSlope : Q)
  | AddFlow (flow : Flow.t).

Definition run_call (n : Network.t) (c : call) : Network.t :=
  match c with
  | AddNode node => addNode n node
  | AddBridge bridge => addBridge n bridge
  | AddLink src dst rate delay idleSlope => addLink n src dst rate delay idleSlope
  | AddBidirectionalLink src dst rate delay idleSlope =>
      addBidirectionalLink n src dst rate delay idleSlope
  | AddFlow flow => addFlow n flow
  end.

Definition run_calls (n : Network.t) (cs : list call) : Network.t := fold_left run_call cs n.

Definition link_key (l : Link.t) : string * string := (Link.src l, Link.dst l).
Definition flow_key (f : Flow.t) : string * string := (Flow.src f, Flow.dst f).

(** At most one link and at most one flow per ordered pair of nodes. *)
Definition unique (n : Network.t) : Prop :=
  NoDup (link_key <$> links n) /\ NoDup (flow_key <$> flows n).

(** The identity that a call registers is already present. *)
Definition present (n : Network.t) (c : call) : Prop :=
  match c with
  | AddNode node => node ∈ nodes n
  | AddBridge bridge => bridge ∈ bridges n
  | AddLink src dst _ _ _ => (src, dst) ∈ link_key <$> links n
  | AddBidirectionalLink src dst _ _ _ =>
      (src, dst) ∈ link_key <$> links n /\ (dst, src) ∈ link_key <$> links n
  | AddFlow flow => flow_key flow ∈ flow_key <$> flows n
  end.

End Registry.

(** ** Concrete objects *)
Module Examples.

Import Network Registry.

Definition c0 : CBSLatencyCalculator.t :=
  CBSLatencyCalculator.init 100000000 (125 # 1000000) 64 1526 96.

(** The analysis object of the scenarios: 100 Mbit/s, CMI 125 us, switch delay 8 us. *)
Definition analysis0 : NetworkLatencyAnalysis.t :=
  NetworkLatencyAnalysis.init 100000000 (125 # 1000000) (8 # 1000000) 64 1526 96.

Definition with_network (a : NetworkLatencyAnalysis.t) (n : Network.t)
    : NetworkLatencyAnalysis.t :=
  NetworkLatencyAnalysis.mk n (NetworkLatencyAnalysis.calculator a)
    (NetworkLatencyAnalysis.linkspeed a) (NetworkLatencyAnalysis.cmi a)
    (NetworkLatencyAnalysis.switchDelay a) (NetworkLatencyAnalysis.ifg a).

(** A line of three bridges between two end stations, every link with
    idle slope 48832000, and one flow of 750 byte frames along it. *)
Definition flow1 : Flow.t := Flow.mk "N0" "N1" 750 (1 # 1000) (125 # 1000000) 7.

Definition line_calls : list call :=
  [ AddNode "N0"; AddNode "N1"; AddBridge "S1"; AddBridge "S2"; AddBridge "S3";
    AddBidirectionalLink "N0" "S1" 100000000 0 48832000;
    AddBidirectionalLink "S1" "S2" 100000000 0 48832000;
    AddBidirectionalLink "S2" "S3" 100000000 0 48832000;
    AddBidirectionalLink "S3" "N1" 100000000 0 48832000;
    AddFlow flow1 ].

Definition line_net : Network.t :=
  run_calls (NetworkLatencyAnalysis.network analysis0) line_calls.

(** The same network after [calculateShortestPath("N0", "N1")], and the
    contents of the default list object of [Path.__init__] after it. *)
Definition line_routed : Network.t * list Link.t :=
  snd (calculateShortestPath 9 "N0" "N1" line_net []).

Definition analysis1 : NetworkLatencyAnalysis.t := with_network analysis0 (fst line_routed).

(** A cache that is out of date: the path from [a] to [c] is computed over
    [a -> b -> c], and the link [a -> c] is added afterwards. *)
Definition detour_net : Network.t :=
  run_calls (NetworkLatencyAnalysis.network analysis0)
    [ AddLink "a" "b" 100000000 0 0; AddLink "b" "c" 100000000 0 0 ].

Definition detour_routed : Network.t * list Link.t :=
  snd (calculateShortestPath 3 "a" "c" detour_net []).

Definition shortcut_net : Network.t :=
  run_call (fst detour_routed) (AddLink "a" "c" 100000000 0 0).

(** A bridge with one output port and no registered flow. *)
Definition idle_net : Network.t :=
  run_calls (NetworkLatencyAnalysis.network analysis0)
    [ AddNode "A"; AddNode "C"; AddBridge "B";
      AddLink "A" "B" 100000000 0 50000000; AddLink "B" "C" 100000000 0 50000000 ].

Definition idle_analysis : NetworkLatencyAnalysis.t := with_network analysis0 idle_net.

End Examples.

(** ** The path cache *)
Module Cache.

Import Network.

(** [n'] is [n] with, possibly, more cached paths: the registries of
    bridges, nodes, links and flows are the same, and every path that [n]
    finds is found by [n']. *)
Definition extends (n n' : Network.t) : Prop :=
  bridges n' = bridges n /\ nodes n' = nodes n /\ links n' = links n
  /\ flows n' = flows n /\ IFG n' = IFG n
  /\ forall src dst path, lookupPath n src dst = Some path -> lookupPath n' src dst = Some path.

End Cache.

(** ** What the idle-slope derivation reserves *)
Module Reservation.

Import Network.

(** The number of links of the flow's cached path that join the same
    ordered pair of nodes as [link] (none when no path is cached). *)
Definition uses (n : Network.t) (default : list Link.t) (link : Link.t) (flow : Flow.t)
    : nat :=
  match lookupPath n (Flow.src flow) (Flow.dst flow) with
  | Some path =>
      length (filter (fun l => Registry.link_key l = Registry.link_key link)
                     (Path.contents default path))
  | None => 0%nat
  end.

(** The bandwidth of one flow: a frame with its IFG per interval [cmi]. *)
Definition bandwidth (n : Network.t) (cmi : Q) (flow : Flow.t) : Q :=
  (Flow.size flow * 8 + IFG n) / cmi.

(** The sum, over the flows, of the bandwidth of those routed over [link]. *)
Definition reserved (n : Network.t) (default : list Link.t) (cmi : Q) (link : Link.t) : Q :=
  Spec.Qsum (map (fun flow => inject_Z (Z.of_nat (uses n default link flow))
                              * bandwidth n cmi flow)
                 (flows n)).

End Reservation.

(** ** Further concrete objects *)
Module Cases.

(** An analysis configured with link speed 0 and CMI 125 us, and one flow
    with a period of 250 us. *)
Definition flow2 : Flow.t := Flow.mk "N0" "N1" 750 (1 # 1000) (250 # 1000000) 7.

Definition stalled_analysis : NetworkLatencyAnalysis.t :=
  Examples.with_network
    (NetworkLatencyAnalysis.init 0 (125 # 1000000) 0 64 1526 96)
    (Network.addFlow (Network.mk [] [] [] [] [] 96) flow2).

End Cases.

(** * Properties *)

Section EngineProperties.

Import CBSLatencyCalculator Examples.

Section Arith.

Lemma pydiv_ok a b : ~ b == 0 -> pydiv a b = Ok (a / b).
Proof.
  intros Hb. unfold pydiv. destruct (Qeq_bool b 0) eqn:E; [|done].
  apply Qeq_bool_eq in E. contradiction.
Qed.

Lemma pydiv_zero a b : b == 0 -> pydiv a b = Raise ZeroDivisionError.
Proof. intros Hb. unfold pydiv. by rewrite (Qeq_eq_bool _ _ Hb). Qed.

Lemma pydiv_cases a b :
  (b == 0 /\ pydiv a b = Raise ZeroDivisionError) \/ (~ b == 0 /\ pydiv a b = Ok (a / b)).
Proof.
  destruct (Qeq_dec b 0) as [H|H]; [left|right]; split; auto using pydiv_zero, pydiv_ok.
Qed.

End Arith.

(** ** [baStandard] *)

Lemma tClassA_raw_value c s f :
  ~ LINKSPEED c == 0 -> ~ s == 0 ->
  exists x, tClassA_raw c s f = Ok x /\ x == CMI c - f / s.
Proof.
  intros HL Hs. unfold tClassA_raw.
  rewrite !pydiv_ok by done. simpl. rewrite pydiv_ok by done.
  eexists; split; [reflexivity|]. field. split; done.
Qed.

Lemma baStandard_value c s f :
  ~ LINKSPEED c == 0 -> ~ s == 0 ->
  exists d x, baStandard c s f = Ok d /\ tClassA_raw c s f = Ok x
    /\ x == CMI c - f / s
    /\ d == ctMaxFrame c / LINKSPEED c + (if Qlt_le_dec x 0 then 0 else x)
            + (f - IFG c) / LINKSPEED c.
Proof.
  intros HL Hs. destruct (tClassA_raw_value c s f HL Hs) as (x & Hx & Hxv).
  unfold baStandard. rewrite Hx, !pydiv_ok by done. simpl.
  eexists _, x. split; [reflexivity|]. split; [done|]. split; [done|]. reflexivity.
Qed.

(** C3.  For every positive idle slope and every stream frame size,
    [baStandard] is [ctMaxFrame/linkspeed + max(0, (idleSlope*CMI/linkspeed
    - streamMaxFrame/linkspeed)*linkspeed/idleSlope) + (streamMaxFrame -
    IFG)/linkspeed] (both sides raise [ZeroDivisionError] for a zero link
    speed); when the catch-up term [(idleSlope*CMI - streamMaxFrame)/idleSlope]
    is negative, it counts as zero; for a non-zero link speed a value is
    returned. *)
Theorem baStandard_matches_formula (c : CBSLatencyCalculator.t) (idleSlope streamMaxFrame : Q) :
  0 < idleSlope ->
  req (baStandard c idleSlope streamMaxFrame)
      (Spec.baStandard_formula c idleSlope streamMaxFrame)
  /\ ((idleSlope * CMI c - streamMaxFrame) / idleSlope < 0 ->
      req (baStandard c idleSlope streamMaxFrame) (Spec.baStandard_clamped c streamMaxFrame))
  /\ (~ LINKSPEED c == 0 -> is_Ok (baStandard c idleSlope streamMaxFrame)).
Proof.
  intros Hs.
  assert (Hs0 : ~ idleSlope == 0) by lra.
  cut (req (baStandard c idleSlope streamMaxFrame)
           (Spec.baStandard_formula c idleSlope streamMaxFrame)
       /\ ((idleSlope * CMI c - streamMaxFrame) / idleSlope < 0 ->
           req (baStandard c idleSlope streamMaxFrame)
               (Spec.baStandard_clamped c streamMaxFrame))).
  { intros [HA HB]. split; [exact HA|]. split; [exact HB|]. intros HL.
    destruct (baStandard_value c idleSlope streamMaxFrame HL Hs0) as (d & x & Hd & _).
    by exists d. }
  unfold baStandard, Spec.baStandard_formula, Spec.baStandard_clamped, tClassA_raw.
  destruct (pydiv_cases (ctMaxFrame c) (LINKSPEED c)) as [[HL E]|[HL E]].
  - rewrite E. simpl. done.
  - rewrite !pydiv_ok by done. simpl. rewrite !pydiv_ok by done. simpl.
    set (x := (idleSlope * CMI c / LINKSPEED c - streamMaxFrame / LINKSPEED c)
              * LINKSPEED c / idleSlope).
    assert (Hx : x == (idleSlope * CMI c - streamMaxFrame) / idleSlope).
    { unfold x. field. split; done. }
    split.
    + unfold pymax. destruct (Qlt_le_dec x 0), (Qlt_le_dec 0 x); lra.
    + intros Hneg. destruct (Qlt_le_dec x 0); lra.
Qed.

(** C3 at idle slope 40 Mbit/s and a 750 byte frame, where the catch-up
    term is negative. *)
Lemma baStandard_matches_formula_witness :
  req (baStandard c0 40000000 6096) (Spec.baStandard_formula c0 40000000 6096)
  /\ req (baStandard c0 40000000 6096) (Spec.baStandard_clamped c0 6096).
Proof.
  destruct (baStandard_matches_formula c0 40000000 6096 eq_refl) as (H1 & H2 & _).
  split; [exact H1 | apply H2; reflexivity].
Defined.

(** ** [plenary100Mbit] *)

Lemma plenary100Mbit_N_upper c s f nr N :
  plenary100Mbit_N c s f nr = Ok N -> (N <= nr - 1)%Z.
Proof.
  unfold plenary100Mbit_N.
  destruct (pydiv _ _) as [q|e]; simpl; [|done].
  intros [= <-]. apply Z.le_min_l.
Qed.

(** C6, amended.  The count [N] of [plenary100Mbit] is at most
    [nrInputLinks - 1] (the [min] bounds it from above only); whenever
    [N <= 0], no other packets are counted and the delay is
    [(ctMaxFrame + streamMaxFrame)/linkspeed]. *)
Theorem plenary100Mbit_no_extra_packets (c : CBSLatencyCalculator.t)
    (idleSlope streamMaxFrame : Q) (nrInputLinks N : Z) :
  plenary100Mbit_N c idleSlope streamMaxFrame nrInputLinks = Ok N ->
  (N <= 0)%Z ->
  (N <= nrInputLinks - 1)%Z
  /\ req (plenary100Mbit c idleSlope streamMaxFrame nrInputLinks)
         (pydiv (ctMaxFrame c + streamMaxFrame) (LINKSPEED c)).
Proof.
  intros HN Hle. split; [by eapply plenary100Mbit_N_upper|].
  unfold plenary100Mbit. rewrite HN. simpl.
  destruct (0 <? N)%Z eqn:E; [apply Z.ltb_lt in E; lia|]. simpl.
  destruct (pydiv_cases (ctMaxFrame c + streamMaxFrame) (LINKSPEED c)) as [[HL E1]|[HL E1]].
  - rewrite E1, pydiv_zero by done. done.
  - rewrite E1, pydiv_ok by done. simpl. field. done.
Qed.

(** C6 at one input link: [N = 0]. *)
Lemma plenary100Mbit_no_extra_packets_witness :
  plenary100Mbit_N c0 48832000 6096 1 = Ok 0%Z
  /\ req (plenary100Mbit c0 48832000 6096 1) (pydiv (ctMaxFrame c0 + 6096) (LINKSPEED c0)).
Proof.
  split; [reflexivity|].
  apply (plenary100Mbit_no_extra_packets c0 48832000 6096 1 0); [reflexivity | lia].
Defined.

(** C6 as stated fails: without input links, [N] is negative. *)
Lemma plenary100Mbit_N_negative :
  exists N, plenary100Mbit_N c0 48832000 6096 0 = Ok N /\ (N < 0)%Z.
Proof. exists (-1)%Z. split; [reflexivity | lia]. Qed.

(** ** The delay as a function of the idle slope *)

Lemma Qdiv_antitone f s1 s2 : 0 <= f -> 0 < s1 -> s1 <= s2 -> f / s2 <= f / s1.
Proof.
  intros Hf H1 H2.
  apply Qle_shift_div_l; [done|].
  assert (E : f / s2 * s1 == f * (s1 / s2)) by (field; lra).
  rewrite E.
  assert (s1 / s2 <= 1) by (apply Qle_shift_div_r; lra).
  nra.
Qed.

Lemma Qdiv_strict_antitone f s1 s2 : 0 < f -> 0 < s1 -> s1 < s2 -> f / s2 < f / s1.
Proof.
  intros Hf H1 H2.
  apply Qlt_shift_div_l; [done|].
  assert (E : f / s2 * s1 == f * (s1 / s2)) by (field; lra).
  rewrite E.
  assert (s1 / s2 < 1) by (apply Qlt_shift_div_r; lra).
  nra.
Qed.

Lemma baStandard_order (c : CBSLatencyCalculator.t) (f s1 s2 : Q) :
  ~ LINKSPEED c == 0 -> 0 <= f -> 0 < s1 -> s1 < s2 ->
  exists d1 d2 x1 x2,
    baStandard c s1 f = Ok d1 /\ baStandard c s2 f = Ok d2
    /\ tClassA_raw c s1 f = Ok x1 /\ tClassA_raw c s2 f = Ok x2
    /\ d1 <= d2
    /\ (x1 <= 0 -> x2 <= 0 -> d1 == d2)
    /\ (0 < f -> 0 < x2 -> d1 < d2).
Proof.
  intros HL Hf H1 H2.
  destruct (baStandard_value c s1 f HL) as (d1 & x1 & Hd1 & Hx1 & Ex1 & Ed1); [lra|].
  destruct (baStandard_value c s2 f HL) as (d2 & x2 & Hd2 & Hx2 & Ex2 & Ed2); [lra|].
  exists d1, d2, x1, x2. repeat (split; [done|]).
  pose proof (Qdiv_antitone f s1 s2 Hf H1 ltac:(lra)) as Hanti.
  split; [|split].
  - destruct (Qlt_le_dec x1 0), (Qlt_le_dec x2 0); lra.
  - intros. destruct (Qlt_le_dec x1 0), (Qlt_le_dec x2 0); lra.
  - intros Hf' Hpos. pose proof (Qdiv_strict_antitone f s1 s2 Hf' H1 H2).
    destruct (Qlt_le_dec x1 0), (Qlt_le_dec x2 0); lra.
Qed.

(** [plenaryFasterMediaV2] with the scenario configuration and a frame of
    12304 bit, all fixed: the delay at 55 Mbit/s is above the delays at 50
    and at 60 Mbit/s. *)
Lemma plenaryFasterMediaV2_rises_and_falls :
  exists d1 d2 d3,
    plenaryFasterMediaV2 c0 50000000 12304 = Ok d1
    /\ plenaryFasterMediaV2 c0 55000000 12304 = Ok d2
    /\ plenaryFasterMediaV2 c0 60000000 12304 = Ok d3
    /\ d1 < d2 /\ d3 < d2.
Proof.
  eexists _, _, _. split; [vm_compute; reflexivity|]. split; [vm_compute; reflexivity|].
  split; [vm_compute; reflexivity|]. split; reflexivity.
Qed.

(** C4, amended.  For a non-zero link speed, a non-negative stream frame
    size and idle slopes [0 < s1 < s2], the [baStandard] delay at [s2] is
    not below the one at [s1]: it is the same when the catch-up term is
    clamped to zero for both, and strictly larger when the frame size is
    positive and the catch-up term at [s2] is positive.
    [plenaryFasterMediaV2] is not monotone in the idle slope, all other
    parameters being fixed: with the scenario configuration and a frame of
    12304 bit its delay rises from 50 to 55 Mbit/s and falls from 55 to
    60 Mbit/s, so it is neither non-increasing nor non-decreasing in the
    idle slope. *)
Theorem idle_slope_order (c : CBSLatencyCalculator.t) (f s1 s2 : Q) :
  ~ LINKSPEED c == 0 -> 0 <= f -> 0 < s1 -> s1 < s2 ->
  (exists d1 d2 x1 x2,
     baStandard c s1 f = Ok d1 /\ baStandard c s2 f = Ok d2
     /\ tClassA_raw c s1 f = Ok x1 /\ tClassA_raw c s2 f = Ok x2
     /\ d1 <= d2
     /\ (x1 <= 0 -> x2 <= 0 -> d1 == d2)
     /\ (0 < f -> 0 < x2 -> d1 < d2))
  /\ (exists d1 d2 d3,
        plenaryFasterMediaV2 c0 50000000 12304 = Ok d1
        /\ plenaryFasterMediaV2 c0 55000000 12304 = Ok d2
        /\ plenaryFasterMediaV2 c0 60000000 12304 = Ok d3
        /\ d1 < d2 /\ d3 < d2)
  /\ ~ (forall t1 t2 e1 e2, 0 < t1 -> t1 < t2 ->
          plenaryFasterMediaV2 c0 t1 12304 = Ok e1 ->
          plenaryFasterMediaV2 c0 t2 12304 = Ok e2 -> e2 <= e1)
  /\ ~ (forall t1 t2 e1 e2, 0 < t1 -> t1 < t2 ->
          plenaryFasterMediaV2 c0 t1 12304 = Ok e1 ->
          plenaryFasterMediaV2 c0 t2 12304 = Ok e2 -> e1 <= e2).
Proof.
  intros HL Hf H1 H2. split; [by apply baStandard_order|].
  destruct plenaryFasterMediaV2_rises_and_falls as (d1 & d2 & d3 & E1 & E2 & E3 & Hup & Hdown).
  split; [by exists d1, d2, d3|]. split.
  - intros Hmono.
    assert (d2 <= d1); [|lra].
    apply (Hmono 50000000 55000000 d1 d2); done.
  - intros Hmono.
    assert (d2 <= d3); [|lra].
    apply (Hmono 55000000 60000000 d2 d3); done.
Qed.

(** C4 at 50 and 60 Mbit/s with a 750 byte frame. *)
Lemma idle_slope_order_witness :
  exists d1 d2,
    baStandard c0 50000000 6096 = Ok d1 /\ baStandard c0 60000000 6096 = Ok d2 /\ d1 < d2.
Proof.
  destruct (idle_slope_order c0 6096 50000000 60000000)
    as [(d1 & d2 & x1 & x2 & E1 & E2 & _ & Ex2 & _ & _ & Hlt) _].
  - intros H. vm_compute in H. discriminate H.
  - intros H. vm_compute in H. discriminate H.
  - reflexivity.
  - reflexivity.
  - exists d1, d2. split; [exact E1|]. split; [exact E2|].
    apply Hlt; [reflexivity|].
    revert Ex2. vm_compute. intros [= <-]. reflexivity.
Defined.

(** C4 as stated fails: from 50 to 60 Mbit/s the [baStandard] delay of a
    750 byte frame neither falls nor stays at the clamp. *)
Lemma baStandard_not_decreasing :
  exists d1 d2 x1 x2,
    baStandard c0 50000000 6096 = Ok d1 /\ baStandard c0 60000000 6096 = Ok d2
    /\ tClassA_raw c0 50000000 6096 = Ok x1 /\ tClassA_raw c0 60000000 6096 = Ok x2
    /\ ~ (d2 < d1 \/ (d2 == d1 /\ x1 <= 0 /\ x2 <= 0)).
Proof.
  eexists _, _, _, _.
  split; [vm_compute; reflexivity|]. split; [vm_compute; reflexivity|].
  split; [vm_compute; reflexivity|]. split; [vm_compute; reflexivity|].
  intros [H|[H _]]; vm_compute in H; discriminate H.
Qed.

(** ** [runAlgorithmsForPort] *)

Section Sorting.

Lemma sorted_insert_perm x l : sorted_insert x l ≡ₚ x :: l.
Proof.
  induction l as [|y l IH]; simpl; [done|].
  destruct (Qle_bool x y); [done|].
  rewrite IH. apply Permutation_swap.
Qed.

Lemma sorted_perm l : sorted l ≡ₚ l.
Proof.
  induction l as [|x l IH]; simpl; [done|].
  unfold sorted in *. simpl. rewrite sorted_insert_perm. by rewrite IH.
Qed.

Lemma sorted_insert_HdRel a x l :
  a <= x -> HdRel Qle a l -> HdRel Qle a (sorted_insert x l).
Proof.
  intros Hax Hl. destruct l as [|y l]; simpl; [by constructor|].
  destruct (Qle_bool x y); constructor; [done|]. by inversion Hl.
Qed.

Lemma sorted_insert_Sorted x l : Sorted Qle l -> Sorted Qle (sorted_insert x l).
Proof.
  induction 1 as [|y l Hl IH Hhd]; simpl; [by repeat constructor|].
  destruct (Qle_bool x y) eqn:E.
  - apply Qle_bool_iff in E. by repeat constructor.
  - constructor; [done|]. apply sorted_insert_HdRel; [|done].
    assert (~ x <= y) by (rewrite <- Qle_bool_iff; congruence). lra.
Qed.

Lemma sorted_Sorted l : Sorted Qle (sorted l).
Proof.
  induction l as [|x l IH]; [constructor|]. by apply sorted_insert_Sorted.
Qed.

Lemma sorted_ascending l : Spec.ascending l (sorted l).
Proof. split; [apply sorted_perm | apply sorted_Sorted]. Qed.

Lemma reverse_sorted_descending l : Spec.descending l (reverse (sorted l)).
Proof.
  split.
  - rewrite reverse_Permutation. apply sorted_perm.
  - apply Sorted_reverse, sorted_Sorted.
Qed.

End Sorting.

Section Engine.

Variables (idleSlope streamMaxFrame classMaxFrame : Q) (nrInputLinks : Z).

Lemma runAlgorithmsForPort_outcome a st l :
  lists st !! a = Some l ->
  runAlgorithmsForPort idleSlope streamMaxFrame classMaxFrame nrInputLinks a st
  = Derived.run_outcome idleSlope streamMaxFrame classMaxFrame nrInputLinks (self st) (lists st) l.
Proof.
  intros Ha. unfold runAlgorithmsForPort, Derived.run_outcome, py_sorted, bind, read, alloc, method,
    py_reverse, ret.
  rewrite Ha. cbn [self lists].
  destruct (baStandard _ _ _); [|done].
  destruct (qStandardL3V1 _ _ _ _); [|done].
  rewrite list_lookup_middle by done.
  destruct (qStandardL3V2 _ _ _ _); [|done].
  destruct (plenary100Mbit _ _ _ _); [|done].
  destruct (plenaryFasterMedia _); [|done].
  destruct (plenaryFasterMediaV2 _ _ _); [|done].
  cbn [self lists].
  rewrite list_lookup_middle by done. cbn [self lists].
  rewrite insert_app_r_alt by done. rewrite Nat.sub_diag. cbn [insert list_insert].
  rewrite list_lookup_middle by done.
  destruct (qStandardL3V2 _ _ _ _); done.
Qed.

Lemma runAlgorithmsForPort_dangling a st :
  lists st !! a = None ->
  runAlgorithmsForPort idleSlope streamMaxFrame classMaxFrame nrInputLinks a st
  = (Raise Dangling, st).
Proof.
  intros Ha. unfold runAlgorithmsForPort, py_sorted, bind, read. by rewrite Ha.
Qed.

Lemma run_outcome_state c ls l :
  exists l',
  snd (Derived.run_outcome idleSlope streamMaxFrame classMaxFrame nrInputLinks c ls l)
  = mkState c (ls ++ [l']).
Proof.
  unfold Derived.run_outcome.
  repeat match goal with
         | |- context [match ?m with Ok _ => _ | Raise _ => _ end] => destruct m
         end; simpl; eauto.
Qed.

End Engine.

(** A formula raised: the call returns nothing, and one of the seven is not [Ok]. *)
#[local] Ltac raised :=
  split;
  [ split; [intros [? [=]] | intros H; decompose [and ex] H; congruence]
  | intros ? [=] ].

(** C5, amended.  [runAlgorithmsForPort] returns a mapping exactly when
    none of the seven formulas raises.  The mapping then has the seven
    formula names as its keys, which are the keys of [getEmptyResultDict],
    whose values are all zero; its [qStandardL3V2] entry is [qStandardL3V2]
    on the input idle slopes in ascending order and its [qStandardL3V3]
    entry is [qStandardL3V2] on the same slopes in descending order. *)
Theorem runAlgorithmsForPort_entries (idleSlope streamMaxFrame classMaxFrame : Q)
    (nrInputLinks : Z) (inputIdleSlopes : nat) (st : state) (l : list Q) :
  lists st !! inputIdleSlopes = Some l ->
  let c := self st in
  let out :=
    fst (runAlgorithmsForPort idleSlope streamMaxFrame classMaxFrame nrInputLinks
           inputIdleSlopes st) in
  ((exists r, out = Ok r) <->
     is_Ok (baStandard c idleSlope streamMaxFrame)
     /\ is_Ok (qStandardL3V1 c idleSlope classMaxFrame nrInputLinks)
     /\ is_Ok (qStandardL3V2 c idleSlope classMaxFrame (sorted l))
     /\ is_Ok (plenary100Mbit c idleSlope streamMaxFrame nrInputLinks)
     /\ is_Ok (plenaryFasterMedia c)
     /\ is_Ok (plenaryFasterMediaV2 c idleSlope streamMaxFrame)
     /\ is_Ok (qStandardL3V2 c idleSlope classMaxFrame (reverse (sorted l))))
  /\ (forall r, out = Ok r ->
        Dict.keys r = Spec.formula_names
        /\ Dict.keys getEmptyResultDict = Dict.keys r
        /\ Forall (fun v => v = 0) (Dict.values getEmptyResultDict)
        /\ exists asc desc,
             Spec.ascending l asc /\ Spec.descending l desc
             /\ Dict.get r "qStandardL3V2" = qStandardL3V2 c idleSlope classMaxFrame asc
             /\ Dict.get r "qStandardL3V3" = qStandardL3V2 c idleSlope classMaxFrame desc).
Proof.
  intros Hl c out. subst out.
  rewrite (runAlgorithmsForPort_outcome _ _ _ _ _ _ l Hl). fold c.
  unfold Derived.run_outcome, is_Ok.
  destruct (baStandard c idleSlope streamMaxFrame) as [v1|e1]; [|raised].
  destruct (qStandardL3V1 c idleSlope classMaxFrame nrInputLinks) as [v2|e2]; [|raised].
  destruct (qStandardL3V2 c idleSlope classMaxFrame (sorted l)) as [v3|e3] eqn:E3; [|raised].
  destruct (plenary100Mbit c idleSlope streamMaxFrame nrInputLinks) as [v4|e4]; [|raised].
  destruct (plenaryFasterMedia c) as [v5|e5]; [|raised].
  destruct (plenaryFasterMediaV2 c idleSlope streamMaxFrame) as [v6|e6]; [|raised].
  destruct (qStandardL3V2 c idleSlope classMaxFrame (reverse (sorted l))) as [v7|e7] eqn:E7;
    [|raised].
  simpl. split; [split; [intros _; repeat split; eauto|eauto]|].
  intros r [= <-]. split; [done|]. split; [done|]. split; [repeat constructor|].
  exists (sorted l), (reverse (sorted l)).
  split; [apply sorted_ascending|]. split; [apply reverse_sorted_descending|].
  rewrite E3, E7. done.
Qed.

(** C5 on the input list [[3; 1; 2]]. *)
Lemma runAlgorithmsForPort_entries_witness :
  exists r,
    fst (runAlgorithmsForPort 48832000 6096 6096 2 0 (mkState c0 [[3; 1; 2]])) = Ok r
    /\ Dict.keys r = Spec.formula_names
    /\ Dict.get r "qStandardL3V2" = qStandardL3V2 c0 48832000 6096 [1; 2; 3]
    /\ Dict.get r "qStandardL3V3" = qStandardL3V2 c0 48832000 6096 [3; 2; 1].
Proof.
  destruct (runAlgorithmsForPort_entries 48832000 6096 6096 2 0 (mkState c0 [[3; 1; 2]])
              [3; 1; 2] eq_refl) as [Hret Hent].
  destruct (proj2 Hret) as [r Hr].
  { unfold is_Ok. repeat split; eexists; vm_compute; reflexivity. }
  exists r. split; [exact Hr|].
  destruct (Hent r Hr) as (Hk & _ & _ & asc & desc & _ & _ & _ & _).
  split; [exact Hk|].
  revert Hr. vm_compute. intros [= <-]. split; reflexivity.
Defined.

(** C5 as stated fails: with idle slope zero, [baStandard] divides by
    zero and no mapping is returned. *)
Lemma runAlgorithmsForPort_raises_on_zero_idle_slope :
  fst (runAlgorithmsForPort 0 6096 6096 1 0 (mkState c0 [[48832000]]))
  = Raise ZeroDivisionError.
Proof. reflexivity. Qed.

(** C10.  After a call of [runAlgorithmsForPort], whether it returns or
    raises, the list object passed as [inputIdleSlopes] holds what it held
    before, as does every list object that existed before the call, and
    the calculator is the same. *)
Theorem runAlgorithmsForPort_leaves_input (idleSlope streamMaxFrame classMaxFrame : Q)
    (nrInputLinks : Z) (inputIdleSlopes : nat) (st : state) :
  let st' :=
    snd (runAlgorithmsForPort idleSlope streamMaxFrame classMaxFrame nrInputLinks
           inputIdleSlopes st) in
  lists st' !! inputIdleSlopes = lists st !! inputIdleSlopes
  /\ (forall b, (b < length (lists st))%nat -> lists st' !! b = lists st !! b)
  /\ self st' = self st.
Proof.
  intros st'. subst st'.
  destruct (lists st !! inputIdleSlopes) as [l|] eqn:Hl.
  - rewrite (runAlgorithmsForPort_outcome _ _ _ _ _ _ l Hl).
    destruct (run_outcome_state idleSlope streamMaxFrame classMaxFrame nrInputLinks
                (self st) (lists st) l) as [l' ->]. simpl.
    split; [|split; [|done]].
    + rewrite lookup_app_l; [done|]. by eapply lookup_lt_Some.
    + intros b Hb. by rewrite lookup_app_l.
  - rewrite runAlgorithmsForPort_dangling by done. simpl. by rewrite Hl.
Qed.

End EngineProperties.

Section OrchestratorProperties.

Import Network NetworkLatencyAnalysis Registry Examples.

Section Orchestrator.

Lemma getNumInputLinks_default n link :
  exists z, Network.getNumInputLinks n link false = Ok z.
Proof.
  unfold Network.getNumInputLinks. generalize 0%Z.
  induction (Network.links n) as [|l ls IH]; intros z; simpl; [eauto|].
  destruct (_ && _); simpl; apply IH.
Qed.

Lemma run_outcome_keys s f cmf nr c ls l r :
  fst (Derived.run_outcome s f cmf nr c ls l) = Ok r -> Dict.keys r = Spec.formula_names.
Proof.
  unfold Derived.run_outcome.
  repeat match goal with
         | |- context [match ?m with Ok _ => _ | Raise _ => _ end] => destruct m
         end; simpl; try done.
  by intros [= <-].
Qed.

Lemma calculateQueueDelayForLink_state link flow cmf self :
  snd (calculateQueueDelayForLink link flow cmf self) = self.
Proof.
  unfold calculateQueueDelayForLink.
  destruct (bool_decide _); [done|].
  destruct (getNumInputLinks_default (network self) link) as [z ->].
  rewrite (runAlgorithmsForPort_outcome _ _ _ _ _ _
             (Network.getInputIdleSlopes (network self) link)) by done.
  match goal with |- context [Derived.run_outcome ?a ?b ?c ?d ?e ?f ?g] =>
    destruct (run_outcome_state a b c d e f g) as [l' Hl'];
    destruct (Derived.run_outcome a b c d e f g) as [r st'] end.
  simpl in *. subst st'. by destruct self.
Qed.

Lemma calculateQueueDelayForLink_keys link flow cmf self r :
  fst (calculateQueueDelayForLink link flow cmf self) = Ok r ->
  Dict.keys r = Spec.formula_names.
Proof.
  unfold calculateQueueDelayForLink.
  destruct (bool_decide _); [by intros [= <-]|].
  destruct (getNumInputLinks_default (network self) link) as [z ->].
  rewrite (runAlgorithmsForPort_outcome _ _ _ _ _ _
             (Network.getInputIdleSlopes (network self) link)) by done.
  match goal with |- context [Derived.run_outcome ?a ?b ?c ?d ?e ?f ?g] =>
    pose proof (run_outcome_keys a b c d e f g r) as Hk;
    destruct (Derived.run_outcome a b c d e f g) as [r' st'] end.
  simpl in *. done.
Qed.

(** A dictionary whose keys are the formula names is determined by its values. *)
Lemma keys_dict_of d :
  Dict.keys d = Spec.formula_names -> d = Spec.dict_of (fun key => Spec.value key d).
Proof.
  unfold Dict.keys, Spec.formula_names. intros H.
  repeat (destruct d as [|[? ?] d]; simpl in H; try discriminate H).
  injection H as -> -> -> -> -> -> ->. reflexivity.
Qed.

Lemma value_dict_of g key :
  key ∈ Spec.formula_names -> Spec.value key (Spec.dict_of g) = g key.
Proof.
  unfold Spec.formula_names. rewrite !elem_of_cons, elem_of_nil.
  intros H. repeat (destruct H as [-> | H]; [reflexivity|]). done.
Qed.

Lemma dict_of_eq g h :
  (forall key, key ∈ Spec.formula_names -> g key == h key) ->
  Spec.dict_eq (Spec.dict_of g) (Spec.dict_of h).
Proof.
  intros H. split; [reflexivity|].
  unfold Spec.dict_of, Dict.values. rewrite !map_map. simpl.
  repeat constructor; apply H; unfold Spec.formula_names; set_solver.
Qed.

Lemma add_delay_pass self link td g h :
  foldM (add_delay self link (Spec.dict_of h) td) Spec.formula_names (Spec.dict_of g)
  = Ok (Spec.dict_of (fun key => Derived.add_once self link td (g key) (h key))).
Proof.
  unfold Derived.add_once, Spec.dict_of, Spec.formula_names. cbn -[Qplus].
  unfold add_delay. cbn -[Qplus].
  destruct (bool_decide _); cbn -[Qplus]; reflexivity.
Qed.

End Orchestrator.

Section Aggregation.

Lemma dict_eq_value d1 d2 key : Spec.dict_eq d1 d2 -> Spec.value key d1 == Spec.value key d2.
Proof.
  intros [Hk Hv]. unfold Spec.value.
  revert d2 Hk Hv. induction d1 as [|[k1 v1] d1 IH]; intros [|[k2 v2] d2] Hk Hv;
    simpl in *; try discriminate; [reflexivity|].
  injection Hk as -> Hk. inversion Hv; subst.
  destruct (String.eqb k2 key); [done|]. by apply IH.
Qed.

Lemma dict_eq_trans d1 d2 d3 : Spec.dict_eq d1 d2 -> Spec.dict_eq d2 d3 -> Spec.dict_eq d1 d3.
Proof.
  intros [Hk1 Hv1] [Hk2 Hv2]. split; [congruence|].
  revert Hv2. generalize (Dict.values d3). induction Hv1; intros l3 Hv2; inversion Hv2; subst;
    constructor; [by etrans | auto].
Qed.

Lemma inject_Z_S n : inject_Z (Z.of_nat (S n)) == 1 + inject_Z (Z.of_nat n).
Proof. rewrite Nat2Z.inj_succ. unfold Z.succ. rewrite inject_Z_plus. simpl. ring. Qed.

Lemma bridge_links_cons self link links :
  Spec.bridge_links self (link :: links)
  = if bool_decide (Link.src link ∈ Network.bridges (network self))
    then S (Spec.bridge_links self links) else Spec.bridge_links self links.
Proof.
  unfold Spec.bridge_links. rewrite filter_cons.
  case_bool_decide; [rewrite decide_True | rewrite decide_False]; done.
Qed.

Variables (self : t) (flow : Flow.t) (cmf td : Q).

Lemma delay_loop_sum links : forall g,
  snd (delay_loop flow cmf td links (Spec.dict_of g) self) = self
  /\ Spec.dict_req
       (fst (delay_loop flow cmf td links (Spec.dict_of g) self))
       (delays ← Spec.per_link_delays self flow cmf links;
        Ok (Spec.dict_of (fun key =>
              g key + Spec.Qsum (map (Spec.value key) delays)
              + inject_Z (Z.of_nat (length links)) * td
              + inject_Z (Z.of_nat (Spec.bridge_links self links)) * switchDelay self))).
Proof.
  induction links as [|link links IH]; intros g.
  - split; [done|]. simpl. apply dict_of_eq. intros key _.
    unfold Spec.bridge_links. simpl. ring.
  - cbn [delay_loop Spec.per_link_delays].
    pose proof (calculateQueueDelayForLink_state link flow cmf self) as Hst.
    pose proof (calculateQueueDelayForLink_keys link flow cmf self) as Hkeys.
    destruct (calculateQueueDelayForLink link flow cmf self) as [[res|e] self'];
      simpl in Hst, Hkeys; subst self'; [|done].
    pose proof (keys_dict_of res (Hkeys res eq_refl)) as Hres.
    set (h := fun key => Spec.value key res) in Hres. clearbody h. subst res. clear Hkeys.
    change (Dict.keys (Spec.dict_of h)) with Spec.formula_names.
    rewrite add_delay_pass.
    destruct (IH (fun key => Derived.add_once self link td (g key) (h key))) as [IH1 IH2].
    split; [done|]. simpl.
    destruct (Spec.per_link_delays self flow cmf links) as [rs|e]; simpl in *.
    + destruct (fst (delay_loop _ _ _ _ _ _)) as [d|e]; [|done].
      simpl in *. eapply dict_eq_trans; [apply IH2|].
      apply dict_of_eq. intros key Hkey.
      rewrite bridge_links_cons, inject_Z_S, value_dict_of by done. unfold Derived.add_once.
      destruct (bool_decide _); [rewrite inject_Z_S|]; ring.
    + by destruct (fst (delay_loop _ _ _ _ _ _)).
Qed.

End Aggregation.

(** C2.  For a flow with a cached path of [k] links,
    [calculateEndToEndDelayForFlow] gives, under each of the seven formula
    names, the sum of the [k] per-link queue delays for that formula, plus
    [k] times [(flow.size*8 + IFG)/linkspeed], plus the switch delay once
    for every link of the path that leaves a registered bridge; it raises
    what the transmission delay or the first failing link raises. *)
Theorem end_to_end_delay_is_sum (default : list Link.t) (flow : Flow.t) (self : t)
    (path : Path.t) :
  Network.lookupPath (network self) (Flow.src flow) (Flow.dst flow) = Some path ->
  let links := Path.contents default path in
  let classMaxFrame := Network.findClassMaxFrame (network self) * 8 + ifg self in
  Spec.dict_req (fst (calculateEndToEndDelayForFlow default flow self))
                (Spec.end_to_end self flow links)
  /\ (forall delays,
        ~ linkspeed self == 0 ->
        Spec.per_link_delays self flow classMaxFrame links = Ok delays ->
        exists d,
          fst (calculateEndToEndDelayForFlow default flow self) = Ok d
          /\ Dict.keys d = Spec.formula_names
          /\ forall key, key ∈ Spec.formula_names ->
               Spec.value key d
               == Spec.Qsum (map (Spec.value key) delays)
                  + inject_Z (Z.of_nat (length links))
                    * ((Flow.size flow * 8 + ifg self) / linkspeed self)
                  + inject_Z (Z.of_nat (Spec.bridge_links self links)) * switchDelay self).
Proof.
  intros Hpath links cmf.
  assert (Hreq : Spec.dict_req (fst (calculateEndToEndDelayForFlow default flow self))
                               (Spec.end_to_end self flow links)).
  { unfold calculateEndToEndDelayForFlow, Spec.end_to_end. rewrite Hpath.
    destruct (pydiv _ _) as [td|e]; [|done]. simpl.
    destruct (delay_loop_sum self flow cmf td links (fun _ => 0)) as [_ H].
    fold links cmf.
    change CBSLatencyCalculator.getEmptyResultDict with (Spec.dict_of (fun _ => 0)).
    destruct (fst (delay_loop _ _ _ _ _ _)) as [d|e],
             (Spec.per_link_delays self flow cmf links) as [rs|e']; simpl in *; try done.
    eapply dict_eq_trans; [apply H|]. apply dict_of_eq. intros key _. ring. }
  split; [done|].
  intros delays HL Hdelays. unfold Spec.end_to_end in Hreq.
  fold cmf links in Hreq. rewrite pydiv_ok, Hdelays in Hreq by done. simpl in Hreq.
  destruct (fst (calculateEndToEndDelayForFlow default flow self)) as [d|e]; [|done].
  exists d. split; [done|]. split; [apply Hreq|].
  intros key Hkey. rewrite (dict_eq_value _ _ key Hreq). by rewrite value_dict_of.
Qed.

(** C2 on the line of three bridges: four links, three of them leaving a
    bridge. *)
Lemma end_to_end_delay_is_sum_witness :
  lookupPath (network analysis1) "N0" "N1" = Some (Path.init "N0" "N1")
  /\ length (Path.contents (snd line_routed) (Path.init "N0" "N1")) = 4%nat
  /\ Spec.bridge_links analysis1 (Path.contents (snd line_routed) (Path.init "N0" "N1")) = 3%nat
  /\ Spec.dict_req
       (fst (calculateEndToEndDelayForFlow (snd line_routed) flow1 analysis1))
       (Spec.end_to_end analysis1 flow1
          (Path.contents (snd line_routed) (Path.init "N0" "N1")))
  /\ is_Ok (fst (calculateEndToEndDelayForFlow (snd line_routed) flow1 analysis1)).
Proof.
  split; [reflexivity|]. split; [reflexivity|]. split; [reflexivity|].
  destruct (end_to_end_delay_is_sum (snd line_routed) flow1 analysis1 (Path.init "N0" "N1")
              eq_refl) as [Hreq Hsum].
  split; [exact Hreq|].
  assert (E : exists delays,
            Spec.per_link_delays analysis1 flow1
              (Network.findClassMaxFrame (network analysis1) * 8 + ifg analysis1)
              (Path.contents (snd line_routed) (Path.init "N0" "N1")) = Ok delays).
  { eexists. vm_compute. reflexivity. }
  destruct E as [delays E].
  destruct (Hsum delays) as (d & Hd & _); [|exact E|by exists d].
  intros H. vm_compute in H. discriminate H.
Defined.

(** C8, amended.  With a non-zero link speed, a flow without a cached
    path gets the all-zero map, and the analysis (network and calculator)
    is left as it was. *)
Theorem zero_result_without_path (default : list Link.t) (flow : Flow.t) (self : t) :
  ~ linkspeed self == 0 ->
  Network.lookupPath (network self) (Flow.src flow) (Flow.dst flow) = None ->
  calculateEndToEndDelayForFlow default flow self
  = (Ok CBSLatencyCalculator.getEmptyResultDict, self)
  /\ Dict.keys CBSLatencyCalculator.getEmptyResultDict = Spec.formula_names
  /\ Forall (fun v => v = 0) (Dict.values CBSLatencyCalculator.getEmptyResultDict).
Proof.
  intros HL Hpath. unfold calculateEndToEndDelayForFlow.
  rewrite pydiv_ok, Hpath by done. split; [done|]. split; [done|].
  repeat constructor.
Qed.

(** C8 on a network without paths. *)
Lemma zero_result_without_path_witness :
  calculateEndToEndDelayForFlow [] flow1 idle_analysis
  = (Ok CBSLatencyCalculator.getEmptyResultDict, idle_analysis).
Proof.
  apply (zero_result_without_path [] flow1 idle_analysis).
  - intros H. vm_compute in H. discriminate H.
  - reflexivity.
Defined.

(** C8 as stated fails: the transmission delay is computed before the
    path is looked up, and raises for a zero link speed. *)
Lemma missing_path_raises_on_zero_linkspeed :
  let self := NetworkLatencyAnalysis.init 0 (125 # 1000000) 0 64 1526 96 in
  lookupPath (network self) (Flow.src flow1) (Flow.dst flow1) = None
  /\ fst (calculateEndToEndDelayForFlow [] flow1 self) = Raise ZeroDivisionError.
Proof. split; reflexivity. Qed.

(** C7, amended.  Without registered flows [findClassMaxFrame] is zero,
    and a queue-delay query is all zero for every link that leaves a
    registered end node. *)
Theorem zero_flows_and_end_station_queries (self : t) (link : Link.t) (flow : Flow.t)
    (classMaxFrame : Q) :
  Network.flows (network self) = [] ->
  Network.findClassMaxFrame (network self) = 0
  /\ (Link.src link ∈ Network.nodes (network self) ->
      calculateQueueDelayForLink link flow classMaxFrame self
      = (Ok CBSLatencyCalculator.getEmptyResultDict, self)
      /\ Dict.keys CBSLatencyCalculator.getEmptyResultDict = Spec.formula_names
      /\ Forall (fun v => v = 0) (Dict.values CBSLatencyCalculator.getEmptyResultDict)).
Proof.
  intros Hflows. split.
  - unfold Network.findClassMaxFrame. by rewrite Hflows.
  - intros Hnode. unfold calculateQueueDelayForLink.
    rewrite bool_decide_eq_true_2 by done. split; [done|]. split; [done|].
    repeat constructor.
Qed.

(** C7 on the link out of the end node [A]. *)
Lemma zero_flows_and_end_station_queries_witness :
  findClassMaxFrame idle_net = 0
  /\ calculateQueueDelayForLink (Link.mk "A" "B" 100000000 0 50000000) flow1 (-1) idle_analysis
     = (Ok CBSLatencyCalculator.getEmptyResultDict, idle_analysis).
Proof.
  destruct (zero_flows_and_end_station_queries idle_analysis
              (Link.mk "A" "B" 100000000 0 50000000) flow1 (-1) eq_refl) as [H1 H2].
  split; [exact H1|]. apply H2. vm_compute. repeat constructor.
Defined.

(** C7 as stated fails: for a registered link that leaves a bridge the
    formulas are evaluated also when no flow is registered, and
    [plenaryFasterMedia] is [CMI + ctMaxFrame/linkspeed]. *)
Lemma bridge_port_without_flows_is_not_zero :
  let link := Link.mk "B" "C" 100000000 0 50000000 in
  flows (network idle_analysis) = []
  /\ link ∈ links (network idle_analysis)
  /\ exists r,
       fst (calculateQueueDelayForLink link flow1 (-1) idle_analysis) = Ok r
       /\ ~ Spec.value "plenaryFasterMedia" r == 0.
Proof.
  split; [reflexivity|]. split; [vm_compute; repeat constructor|].
  eexists. split; [vm_compute; reflexivity|].
  intros H. vm_compute in H. discriminate H.
Qed.

End OrchestratorProperties.

Section RegistryProperties.

Import Network NetworkLatencyAnalysis Registry Examples.

Section RegistryProofs.

Lemma getLink_None n src dst :
  getLink n src dst = None <-> (src, dst) ∉ link_key <$> links n.
Proof.
  unfold getLink. split.
  - intros Hfind Hin. apply list_elem_of_fmap in Hin as (l & Heq & Hl).
    apply find_none with (x := l) in Hfind; [|by apply list_elem_of_In].
    unfold link_key in Heq. injection Heq as -> ->.
    unfold Link.isLinkFor in Hfind. by rewrite !bool_decide_eq_true_2 in Hfind.
  - intros Hnin. destruct (find _ _) as [l|] eqn:Hfind; [|done].
    apply find_some in Hfind as [Hin Hf]. apply list_elem_of_In in Hin.
    unfold Link.isLinkFor in Hf. apply andb_true_iff in Hf as [H1 H2].
    apply bool_decide_eq_true in H1, H2. destruct Hnin.
    apply list_elem_of_fmap. exists l. unfold link_key. by rewrite H1, H2.
Qed.

Lemma getFlow_None n src dst :
  getFlow n src dst = None <-> (src, dst) ∉ flow_key <$> flows n.
Proof.
  unfold getFlow. split.
  - intros Hfind Hin. apply list_elem_of_fmap in Hin as (f & Heq & Hf).
    apply find_none with (x := f) in Hfind; [|by apply list_elem_of_In].
    unfold flow_key in Heq. injection Heq as -> ->.
    by rewrite !bool_decide_eq_true_2 in Hfind.
  - intros Hnin. destruct (find _ _) as [f|] eqn:Hfind; [|done].
    apply find_some in Hfind as [Hin Hf]. apply list_elem_of_In in Hin.
    apply andb_true_iff in Hf as [H1 H2].
    apply bool_decide_eq_true in H1, H2. destruct Hnin.
    apply list_elem_of_fmap. exists f. unfold flow_key. by rewrite H1, H2.
Qed.

Lemma addLink_present n src dst rate delay idleSlope :
  (src, dst) ∈ link_key <$> links n -> addLink n src dst rate delay idleSlope = n.
Proof.
  intros Hin. unfold addLink. destruct (getLink n src dst) eqn:E; [done|].
  by apply getLink_None in E.
Qed.

Lemma addLink_registers n src dst rate delay idleSlope :
  (src, dst) ∈ link_key <$> links (addLink n src dst rate delay idleSlope).
Proof.
  unfold addLink. destruct (getLink n src dst) eqn:E.
  - destruct (decide ((src, dst) ∈ link_key <$> links n)) as [|Hn]; [done|].
    apply getLink_None in Hn. congruence.
  - simpl. rewrite fmap_app. set_solver.
Qed.

Lemma addLink_keeps n src dst rate delay idleSlope k :
  k ∈ link_key <$> links n -> k ∈ link_key <$> links (addLink n src dst rate delay idleSlope).
Proof.
  unfold addLink. destruct (getLink n src dst); [done|]. simpl. rewrite fmap_app. set_solver.
Qed.

Lemma addLink_unique n src dst rate delay idleSlope :
  unique n -> unique (addLink n src dst rate delay idleSlope).
Proof.
  intros [Hl Hf]. unfold addLink. destruct (getLink n src dst) eqn:E; [done|].
  split; [|done]. simpl. rewrite fmap_app. apply NoDup_app. split; [done|].
  split; [|apply NoDup_singleton].
  intros k Hk Hk'. apply list_elem_of_singleton in Hk' as ->.
  by apply getLink_None in E.
Qed.

Lemma addFlow_unique n flow : unique n -> unique (addFlow n flow).
Proof.
  intros [Hl Hf]. unfold addFlow. destruct (getFlow n _ _) eqn:E; [done|].
  split; [done|]. simpl. rewrite fmap_app. apply NoDup_app. split; [done|].
  split; [|apply NoDup_singleton].
  intros k Hk Hk'. apply list_elem_of_singleton in Hk' as ->.
  by apply getFlow_None in E.
Qed.

Lemma run_call_unique n c : unique n -> unique (run_call n c).
Proof.
  intros Hu. destruct c; simpl.
  - unfold addNode. by destruct (bool_decide _).
  - unfold addBridge. by destruct (bool_decide _).
  - by apply addLink_unique.
  - unfold addBidirectionalLink. by do 2 apply addLink_unique.
  - by apply addFlow_unique.
Qed.

Lemma run_call_present n c : present n c -> run_call n c = n.
Proof.
  destruct c; simpl.
  - intros H. unfold addNode. by rewrite bool_decide_eq_true_2.
  - intros H. unfold addBridge. by rewrite bool_decide_eq_true_2.
  - apply addLink_present.
  - intros [H1 H2]. unfold addBidirectionalLink.
    rewrite (addLink_present n src dst) by done. by apply addLink_present.
  - intros H. unfold addFlow. destruct (getFlow n _ _) eqn:E; [done|].
    by apply getFlow_None in E.
Qed.

Lemma run_call_registers n c : present (run_call n c) c.
Proof.
  destruct c; simpl.
  - unfold addNode. case_bool_decide; [done|]. simpl. set_solver.
  - unfold addBridge. case_bool_decide; [done|]. simpl. set_solver.
  - apply addLink_registers.
  - unfold addBidirectionalLink. split; [apply addLink_keeps|]; apply addLink_registers.
  - unfold addFlow. destruct (getFlow n _ _) eqn:E.
    + destruct (decide (flow_key flow ∈ flow_key <$> flows n)) as [|Hn]; [done|].
      apply getFlow_None in Hn. unfold flow_key in Hn. congruence.
    + simpl. rewrite fmap_app. set_solver.
Qed.

End RegistryProofs.

(** C9.  Every sequence of [addNode], [addBridge], [addLink],
    [addBidirectionalLink] and [addFlow] calls keeps at most one link and
    at most one flow per ordered pair of nodes; a call whose identity is
    already registered leaves the network as it is, and so does repeating
    any call. *)
Theorem registration_keeps_pairs_unique (n : Network.t) (cs : list call) :
  unique n ->
  unique (run_calls n cs)
  /\ (forall c, present (run_calls n cs) c -> run_call (run_calls n cs) c = run_calls n cs)
  /\ (forall c, run_call (run_call (run_calls n cs) c) c = run_call (run_calls n cs) c).
Proof.
  intros Hu. split; [|split].
  - revert n Hu. induction cs as [|c cs IH]; intros n Hu; [done|].
    simpl. apply IH. by apply run_call_unique.
  - intros c. apply run_call_present.
  - intros c. apply run_call_present, run_call_registers.
Qed.

(** C9 from the empty network, along the calls that build the line. *)
Lemma registration_keeps_pairs_unique_witness :
  unique line_net
  /\ run_call line_net (AddBidirectionalLink "S1" "S2" 1 2 3) = line_net
  /\ run_call line_net (AddFlow (Flow.mk "N0" "N1" 64 0 0 0)) = line_net.
Proof.
  destruct (registration_keeps_pairs_unique (network analysis0) line_calls) as (Hu & Hp & _).
  - split; constructor.
  - split; [exact Hu|]. split; apply Hp; vm_compute; repeat constructor.
Defined.

End RegistryProperties.

Section RoutingProperties.

Import Network NetworkLatencyAnalysis Search Registry Examples.

Local Open Scope nat_scope.

Section SearchProofs.

Variables (all_links : list Link.t) (src : string).

#[local] Abbreviation edge := (edge all_links).
#[local] Abbreviation base := (base all_links src).
#[local] Abbreviation closed := (closed all_links).

Lemma closed_mono us D D' : D ⊆ D' -> closed us D -> closed us D'.
Proof.
  intros Hsub Hc u v Hu He. destruct (Hc u v Hu He) as (du & dv & H1 & H2 & H3).
  exists du, dv. eauto using lookup_weaken.
Qed.

Lemma scanned_mono ls current k D D' :
  D ⊆ D' -> scanned ls current k D -> scanned ls current k D'.
Proof.
  intros Hsub Hs l Hl Hsrc. destruct (Hs l Hl Hsrc) as (dv & H1 & H2).
  exists dv. eauto using lookup_weaken.
Qed.

(** A link into a node that has no distance yet. *)
Lemma base_discover k A B V D P current l :
  base k A B V D P -> D !! current = Some k ->
  l ∈ all_links -> Link.src l = current -> D !! Link.dst l = None ->
  base k A (B ++ [Link.dst l]) V (<[Link.dst l := (k + 1)%nat]> D)
       (<[Link.dst l := current]> P).
Proof.
  intros [Hsrc Hdom Hnd Hcand HA HB HV Htree Hzero] Hcur Hl Hls Hnone.
  set (v := Link.dst l) in *.
  assert (Hfresh : v ∉ A ++ B ++ V).
  { intros Hin. rewrite app_assoc, elem_of_app in Hin.
    apply Hdom in Hin. rewrite Hnone in Hin. by destruct Hin. }
  assert (Hne : forall w d, D !! w = Some d -> v ≠ w) by (intros w d Hw ->; congruence).
  rewrite Nat.add_1_r.
  split.
  - rewrite lookup_insert_ne; eauto.
  - intros w. rewrite lookup_insert. case_decide as Hw.
    + subst w. split; [|by eauto]. intros _. left. set_solver.
    + rewrite Hdom. set_solver.
  - assert (Hperm : A ++ (B ++ [v]) ++ V ≡ₚ v :: A ++ B ++ V).
    { rewrite <- app_assoc. simpl. by rewrite <- !Permutation_middle. }
    rewrite Hperm. by apply NoDup_cons.
  - intros w Hw. rewrite !elem_of_app, list_elem_of_singleton in Hw.
    destruct Hw as [Hw|[[Hw| ->]|Hw]].
    + apply Hcand. set_solver.
    + apply Hcand. set_solver.
    + unfold candidates. apply elem_of_cons. right. apply list_elem_of_fmap. eauto.
    + apply Hcand. set_solver.
  - eapply Forall_impl; [exact HA|]. intros w Hw. simpl in *.
    rewrite lookup_insert_ne; eauto.
  - apply Forall_app. split.
    + eapply Forall_impl; [exact HB|]. intros w Hw. simpl in *.
      rewrite lookup_insert_ne; eauto.
    + apply Forall_singleton. by rewrite lookup_insert_eq.
  - eapply Forall_impl; [exact HV|]. intros w (d & Hw & Hd). exists d.
    rewrite lookup_insert_ne; eauto.
  - intros w d. rewrite lookup_insert. case_decide as Hw.
    + subst w. intros [= <-]. exists current. rewrite lookup_insert_eq.
      rewrite lookup_insert_ne by eauto. split; [done|]. split; [done|]. by exists l.
    + intros Hd. destruct (Htree w d Hd) as (u & Hp & Hu & He).
      exists u. rewrite !lookup_insert_ne; eauto.
  - intros w. rewrite lookup_insert. case_decide; [done|]. apply Hzero.
Qed.

Lemma base_level k A B V D P v :
  base k A B V D P -> v ∈ A ++ B ->
  exists d, D !! v = Some d /\ (d <= S k)%nat.
Proof.
  intros Hb Hv. apply elem_of_app in Hv as [Hv|Hv].
  - exists k. split; [|lia]. revert v Hv. apply Forall_forall, Hb.
  - exists (S k). split; [|lia]. revert v Hv. apply Forall_forall, Hb.
Qed.

Lemma base_visited k A B V D P v :
  base k A B V D P -> v ∈ V -> exists d, D !! v = Some d /\ (d <= k)%nat.
Proof. intros Hb Hv. revert v Hv. apply Forall_forall, Hb. Qed.

(** One link of the scan out of [current], the node just visited. *)
Lemma scan_link_step k A B V D P current l :
  l ∈ all_links ->
  base k A B V D P -> D !! current = Some k -> current ∈ V ->
  exists B' D' P',
    scan_link current V (A ++ B, D, P) l = Ok (A ++ B', D', P')
    /\ base k A B' V D' P' /\ D ⊆ D' /\ scanned [l] current k D'.
Proof.
  intros Hl Hb Hcur HcurV. unfold scan_link.
  assert (Hone : forall D' : gmap string nat,
            (Link.src l = current ->
             exists dv, D' !! Link.dst l = Some dv /\ (dv <= S k)%nat) ->
            scanned [l] current k D').
  { intros D' H l' Hl' Hsrc'. apply list_elem_of_singleton in Hl' as ->. auto. }
  destruct (decide (Link.src l = current)) as [Hsrc|Hsrc];
    [destruct (decide (Link.dst l ∈ V)) as [Hdst|Hdst]|].
  - (* the head of the link is already visited *)
    rewrite (bool_decide_eq_true_2 _ Hsrc), (bool_decide_eq_true_2 _ Hdst). simpl.
    exists B, D, P. repeat (split; [done|]). apply Hone. intros _.
    destruct (base_visited _ _ _ _ _ _ _ Hb Hdst) as (d & Hd & Hle).
    exists d. split; [done|lia].
  - rewrite (bool_decide_eq_true_2 _ Hsrc), (bool_decide_eq_false_2 _ Hdst). simpl.
    destruct (D !! Link.dst l) as [d|] eqn:Hd.
    + (* the head of the link is waiting in [unvisited] *)
      assert (Hin : Link.dst l ∈ A ++ B).
      { destruct (proj1 (base_dom _ _ _ _ _ _ _ _ Hb (Link.dst l))); [by eauto|done|done]. }
      rewrite (bool_decide_eq_true_2 _ Hin).
      exists B, D, P. repeat (split; [done|]). apply Hone. intros _.
      destruct (base_level _ _ _ _ _ _ _ Hb Hin) as (d' & Hd' & Hle). eauto.
    + (* the head of the link is new *)
      assert (Hnin : Link.dst l ∉ A ++ B).
      { intros Hin. assert (is_Some (D !! Link.dst l)) as [? ?]; [|congruence].
        apply (base_dom _ _ _ _ _ _ _ _ Hb). by left. }
      rewrite (bool_decide_eq_false_2 _ Hnin), Hcur.
      rewrite <- app_assoc.
      eexists _, _, _. split; [reflexivity|].
      split; [by eapply base_discover|].
      split; [by apply insert_subseteq|].
      apply Hone. intros _. exists (k + 1)%nat. split; [|lia]. by rewrite lookup_insert_eq.
  - (* the link does not leave [current] *)
    rewrite (bool_decide_eq_false_2 _ Hsrc). simpl.
    exists B, D, P. repeat (split; [done|]). by apply Hone.
Qed.

Lemma scan_links k A V current ls : forall B D P,
  (forall l, l ∈ ls -> l ∈ all_links) ->
  base k A B V D P -> D !! current = Some k -> current ∈ V ->
  exists B' D' P',
    foldM (scan_link current V) ls (A ++ B, D, P) = Ok (A ++ B', D', P')
    /\ base k A B' V D' P' /\ D ⊆ D' /\ scanned ls current k D'.
Proof.
  induction ls as [|l ls IH]; intros B D P Hls Hb Hcur HcurV.
  { exists B, D, P. split; [done|]. split; [done|]. split; [done|].
    intros l Hl. by apply elem_of_nil in Hl. }
  destruct (scan_link_step k A B V D P current l)
    as (B1 & D1 & P1 & Hrun1 & Hb1 & Hsub1 & Hsc1);
    [apply Hls; left|done..|].
  destruct (IH B1 D1 P1) as (B' & D' & P' & Hrun & Hb' & Hsub & Hsc);
    [intros; apply Hls; by right|done|by eapply lookup_weaken|done|].
  exists B', D', P'. cbn [foldM]. rewrite Hrun1. simpl. split; [done|]. split; [done|].
  split; [by etrans|].
  intros l' Hl' Hsrc'. apply elem_of_cons in Hl' as [->|Hl']; [|by apply Hsc].
  eapply scanned_mono; [exact Hsub|exact Hsc1| |done]. by left.
Qed.

Lemma base_shift k B V D P : base k [] B V D P -> base (S k) B [] V D P.
Proof.
  intros [Hsrc Hdom Hnd Hcand HA HB HV Htree Hzero]. simpl in *.
  split; simpl; rewrite ?app_nil_r; try done.
  eapply Forall_impl; [exact HV|]. intros v (d & Hd & Hle). exists d. split; [done|lia].
Qed.

Lemma base_visit k current A B V D P :
  base k (current :: A) B V D P -> base k A B (V ++ [current]) D P.
Proof.
  intros [Hsrc Hdom Hnd Hcand HA HB HV Htree Hzero].
  assert (Hperm : A ++ B ++ V ++ [current] ≡ₚ (current :: A) ++ B ++ V).
  { simpl. rewrite !app_assoc. by rewrite <- Permutation_cons_append. }
  split; try done.
  - intros v. rewrite Hdom. set_solver.
  - by rewrite Hperm.
  - intros v Hv. apply Hcand. by rewrite <- Hperm.
  - by inversion HA.
  - apply Forall_app. split; [done|]. apply Forall_singleton.
    inversion HA; subst. eauto.
Qed.

Lemma search_fuel k current A B V D P fuel :
  base k (current :: A) B V D P ->
  length (candidates all_links src) <= fuel + length V -> exists fuel', fuel = S fuel'.
Proof.
  intros Hb Hlen.
  assert (Hle : length (current :: V) <= length (candidates all_links src)).
  { apply submseteq_length, NoDup_submseteq.
    - pose proof (base_nodup _ _ _ _ _ _ _ _ Hb) as Hnd. simpl in Hnd.
      apply NoDup_cons in Hnd as [Hnin Hnd]. rewrite app_assoc in Hnd, Hnin.
      apply NoDup_app in Hnd as (_ & _ & Hnd).
      apply NoDup_cons. split; [set_solver|done].
    - intros x Hx. apply (base_cand _ _ _ _ _ _ _ _ Hb). set_solver. }
  unfold candidates in *. simpl in *. destruct fuel; [lia|eauto].
Qed.

Lemma base_settled k V D P : base k [] [] V D P -> closed V D -> settled all_links src D P.
Proof.
  intros Hb Hc. split; [apply Hb|]. split; [apply Hb|]. split; [apply Hb|].
  intros u v du Hu He.
  assert (HuV : u ∈ V).
  { destruct (proj1 (base_dom _ _ _ _ _ _ _ _ Hb u)) as [Hin|Hin]; [by eauto| |done].
    by apply elem_of_nil in Hin. }
  destruct (Hc u v HuV He) as (du' & dv & Hu' & Hv & Hle).
  exists dv. split; [done|]. congruence.
Qed.

(** The loop, from any state of the search. *)
Lemma search_loop_settles fuel : forall k A B V D P,
  base k A B V D P -> closed V D ->
  length (candidates all_links src) <= fuel + length V ->
  exists D' P',
    search_loop fuel all_links (A ++ B) V D P = Ok (D', P') /\ settled all_links src D' P'.
Proof.
  assert (Hnorm : forall k A B V D P, base k A B V D P ->
            exists k' A' B', A ++ B = A' ++ B' /\ base k' A' B' V D P /\ (A' = [] -> B' = [])).
  { intros k [|a A] B V D P Hb.
    - exists (S k), B, []. split; [by rewrite app_nil_r|]. split; [by apply base_shift|done].
    - exists k, (a :: A), B. done. }
  induction fuel as [|fuel IH]; intros k A B V D P Hb Hc Hlen;
    destruct (Hnorm _ _ _ _ _ _ Hb) as (k' & [|current A'] & B' & -> & Hb' & Hemp).
  - rewrite Hemp in * by done. exists D, P. split; [done|]. by eapply base_settled.
  - destruct (search_fuel _ _ _ _ _ _ _ _ Hb' Hlen) as [? ?]. done.
  - rewrite Hemp in * by done. exists D, P. split; [done|]. by eapply base_settled.
  - clear Hemp Hb A B k. rename k' into k, A' into A, B' into B, Hb' into Hb.
    assert (Hcur : D !! current = Some k).
    { pose proof (base_A _ _ _ _ _ _ _ _ Hb) as HA. by inversion HA. }
    apply base_visit in Hb.
    destruct (scan_links k A (V ++ [current]) current all_links B D P)
      as (B' & D' & P' & Hrun & Hb' & Hsub & Hsc); [done|done|done|set_solver|].
    cbn [app search_loop]. rewrite Hrun. simpl.
    apply IH with (k := k); [done| |rewrite length_app; cbn [length]; lia].
    intros u v Hu He. apply elem_of_app in Hu as [Hu|Hu].
    + by apply (closed_mono V D D' Hsub Hc).
    + apply list_elem_of_singleton in Hu as ->.
      destruct He as (l & Hl & Hsrc & Hdst).
      destruct (Hsc l Hl Hsrc) as (dv & Hdv & Hle).
      exists k, dv. split; [by eapply lookup_weaken|]. by rewrite <- Hdst.
Qed.

(** The search that [calculateShortestPath] starts. *)
Lemma search_from_src fuel :
  length all_links < fuel ->
  exists D P,
    search_loop fuel all_links [src] [] {[src := 0%nat]} ∅ = Ok (D, P)
    /\ settled all_links src D P.
Proof.
  intros Hfuel.
  apply (search_loop_settles fuel 0 [src] [] [] {[src := 0%nat]} ∅).
  - split.
    + by rewrite lookup_singleton_eq.
    + intros v. rewrite lookup_singleton_is_Some. set_solver.
    + simpl. apply NoDup_singleton.
    + intros v Hv. unfold candidates. set_solver.
    + apply Forall_singleton. by rewrite lookup_singleton_eq.
    + constructor.
    + constructor.
    + intros v d Hv. apply lookup_singleton_Some in Hv as [_ [=]].
    + intros v Hv. by apply lookup_singleton_Some in Hv as [-> _].
  - intros u v Hu. by apply elem_of_nil in Hu.
  - unfold candidates. simpl. rewrite length_fmap. lia.
Qed.

End SearchProofs.

Section Paths.

Variables (all_links : list Link.t) (src : string).

Lemma directed_path_snoc a b p l :
  Spec.directed_path all_links a b p -> l ∈ all_links -> Link.src l = b ->
  Spec.directed_path all_links a (Link.dst l) (p ++ [l]).
Proof.
  revert a. induction p as [|l' p IH]; intros a; simpl.
  - intros -> Hl Hsrc. done.
  - intros (Hl' & Hsrc' & Hp) Hl Hsrc. split; [done|]. split; [done|]. by apply IH.
Qed.

Variables (D : gmap string nat) (P : gmap string string).
Hypothesis Hsettled : settled all_links src D P.

(** No directed path is shorter than the recorded distance. *)
Lemma settled_lower p : forall a b da,
  Spec.directed_path all_links a b p -> D !! a = Some da ->
  exists db, D !! b = Some db /\ db <= da + length p.
Proof.
  destruct Hsettled as (_ & _ & _ & Hclosed).
  induction p as [|l p IH]; intros a b da; simpl.
  - intros <- Ha. exists da. split; [done|lia].
  - intros (Hl & Hsrc & Hp) Ha.
    destruct (Hclosed a (Link.dst l) da Ha) as (dv & Hdv & Hle); [by exists l|].
    destruct (IH _ _ _ Hp Hdv) as (db & Hdb & Hle'). exists db. split; [done|lia].
Qed.

(** The predecessors of a node at distance [d] give [d] links with
    different heads. *)
Lemma settled_chain d : forall v,
  D !! v = Some d ->
  exists ls, length ls = d /\ NoDup (Link.dst <$> ls)
    /\ forall l, l ∈ ls -> l ∈ all_links /\ exists dl, D !! Link.dst l = Some dl /\ dl <= d.
Proof.
  destruct Hsettled as (_ & Htree & _ & _).
  induction d as [|d IH]; intros v Hv.
  - exists []. split; [done|]. split; [constructor|]. intros l Hl. by apply elem_of_nil in Hl.
  - destruct (Htree v d Hv) as (u & _ & Hu & l & Hl & Hsrc & Hdst).
    destruct (IH u Hu) as (ls & Hlen & Hnd & Hls).
    exists (l :: ls). split; [simpl; lia|]. split.
    + rewrite fmap_cons. apply NoDup_cons. split; [|done].
      intros Hin. apply list_elem_of_fmap in Hin as (l' & Heq & Hl').
      destruct (Hls l' Hl') as (_ & dl & Hdl & Hle). rewrite <- Heq, Hdst in Hdl.
      assert (S d = dl) by congruence. lia.
    + intros l' Hl'. apply elem_of_cons in Hl' as [->|Hl'].
      * split; [done|]. exists (S d). rewrite Hdst. split; [done|lia].
      * destruct (Hls l' Hl') as (? & dl & ? & ?). split; [done|]. exists dl. split; [done|lia].
Qed.

Lemma settled_depth v d : D !! v = Some d -> d <= length all_links.
Proof.
  intros Hv. destruct (settled_chain d v Hv) as (ls & <- & Hnd & Hls).
  rewrite <- (length_fmap Link.dst ls), <- (length_fmap Link.dst all_links).
  apply submseteq_length, NoDup_submseteq; [done|].
  intros x Hx. apply list_elem_of_fmap in Hx as (l & -> & Hl).
  apply list_elem_of_fmap_2. by apply Hls.
Qed.

End Paths.

Section WalkBack.

Variables (self : Network.t) (src dst0 : string).
Variables (D : gmap string nat) (P : gmap string string).
Hypothesis Hsettled : settled (links self) src D P.

Lemma getLink_edge u v :
  edge (links self) u v ->
  exists link, getLink self u v = Some link
    /\ link ∈ links self /\ Link.src link = u /\ Link.dst link = v.
Proof.
  intros (l & Hl & Hsrc & Hdst). unfold getLink.
  destruct (find _ _) as [link|] eqn:Hfind.
  - apply find_some in Hfind as [Hin Hf]. exists link. split; [done|].
    apply list_elem_of_In in Hin. unfold Link.isLinkFor in Hf.
    apply andb_true_iff in Hf as [H1 H2].
    apply bool_decide_eq_true in H1, H2. done.
  - apply find_none with (x := l) in Hfind; [|by apply list_elem_of_In].
    unfold Link.isLinkFor in Hfind.
    rewrite !bool_decide_eq_true_2 in Hfind by done. done.
Qed.

Lemma add_new acc link :
  (forall l, l ∈ acc -> Link.dst l ≠ Link.dst link) -> Path.add acc link = acc ++ [link].
Proof.
  intros Hacc. unfold Path.add.
  destruct (existsb _ _) eqn:E; [|done].
  apply existsb_exists in E as (l & Hin & Hf). apply list_elem_of_In in Hin.
  unfold Link.isLinkFor in Hf. apply andb_true_iff in Hf as [_ H2].
  apply bool_decide_eq_true in H2. by destruct (Hacc l Hin).
Qed.

(** The walk from a node at distance [d] back to [src] appends [d] links
    to the list behind the path. *)
Lemma walk_back_collects d : forall current acc fuel,
  D !! current = Some d -> d <= fuel ->
  (forall l, l ∈ acc -> exists dl, D !! Link.dst l = Some dl /\ d < dl) ->
  exists ls,
    walk_back fuel self P src current (Path.init src dst0) acc
    = (Ok (Path.init src dst0), acc ++ ls)
    /\ length ls = d
    /\ Spec.directed_path (links self) src current (reverse ls).
Proof.
  destruct Hsettled as (Hsrc & Htree & Hzero & _).
  induction d as [|d IH]; intros current acc fuel Hcur Hfuel Hacc.
  - apply Hzero in Hcur as ->. exists []. rewrite app_nil_r.
    split; [|done]. destruct fuel; simpl; by rewrite bool_decide_eq_true_2.
  - destruct fuel as [|fuel]; [lia|].
    assert (Hne : current ≠ src) by (intros ->; congruence).
    destruct (Htree current d Hcur) as (u & Hp & Hu & He).
    destruct (getLink_edge u current He) as (link & Hget & Hlink & Hlsrc & Hldst).
    cbn [walk_back]. rewrite (bool_decide_eq_false_2 _ Hne), Hp, Hget.
    unfold Path.addLinks. cbn [Path.links Path.init].
    rewrite add_new.
    2:{ intros l Hl E. destruct (Hacc l Hl) as (dl & Hdl & Hlt).
        rewrite E, Hldst in Hdl. assert (S d = dl) by congruence. lia. }
    destruct (IH u (acc ++ [link]) fuel Hu) as (ls & Hrun & Hlen & Hpath); [lia| |].
    { intros l Hl. apply elem_of_app in Hl as [Hl|Hl].
      - destruct (Hacc l Hl) as (dl & Hdl & Hlt). exists dl. split; [done|lia].
      - apply list_elem_of_singleton in Hl as ->. exists (S d). rewrite Hldst.
        split; [done|lia]. }
    exists (link :: ls). rewrite Hrun, <- app_assoc. split; [done|].
    split; [simpl; lia|]. rewrite reverse_cons, <- Hldst.
    by apply (directed_path_snoc _ src u).
Qed.

End WalkBack.

Lemma find_snoc_None {A} (f : A -> bool) l x :
  find f l = None -> find f (l ++ [x]) = if f x then Some x else None.
Proof.
  induction l as [|y l IH]; simpl; [done|]. destruct (f y); [done|]. apply IH.
Qed.

(** C1, amended.  When no path is cached for [(src, dst)], the list
    object behind the new [Path] is empty and [dst] is reachable from [src],
    [calculateShortestPath] returns (given an iteration budget above the
    number of links) a path whose links, read in the reverse of the order
    in which they were collected, form a directed path from [src] to [dst];
    no directed path from [src] to [dst] has fewer links; the path is
    cached. *)
Theorem shortest_path_when_not_cached (fuel : nat) (src dst : string) (self : Network.t) :
  lookupPath self src dst = None ->
  Spec.reachable (links self) src dst ->
  length (links self) < fuel ->
  exists ls,
    let path := Path.init src dst in
    calculateShortestPath fuel src dst self [] = (Ok path, (addPath self path, ls))
    /\ Path.contents ls path = ls
    /\ Spec.directed_path (links self) src dst (reverse ls)
    /\ (forall p, Spec.directed_path (links self) src dst p -> length ls <= length p)
    /\ lookupPath (addPath self path) src dst = Some path.
Proof.
  intros Hlookup [p0 Hp0] Hfuel.
  destruct (search_from_src (links self) src fuel Hfuel) as (D & P & Hsearch & Hset).
  pose proof Hset as (Hsrc & _).
  destruct (settled_lower _ _ _ _ Hset p0 src dst 0 Hp0 Hsrc) as (d & Hd & _).
  pose proof (settled_depth _ _ _ _ Hset dst d Hd) as Hdepth.
  destruct (walk_back_collects self src dst D P Hset d dst [] fuel Hd)
    as (ls & Hwalk & Hlen & Hpath);
    [lia|intros l Hl; by apply elem_of_nil in Hl|].
  exists ls. cbn zeta. unfold calculateShortestPath.
  rewrite Hlookup, Hsearch, Hwalk. simpl.
  split; [done|]. split; [done|]. split; [done|]. split.
  - intros p Hp.
    destruct (settled_lower _ _ _ _ Hset p src dst 0 Hp Hsrc) as (d' & Hd' & Hle).
    assert (d' = d) by congruence. lia.
  - unfold addPath. simpl. rewrite Hlookup. unfold lookupPath. simpl.
    rewrite find_snoc_None by done. simpl. by rewrite !bool_decide_eq_true_2.
Qed.

(** C1 on the line of three bridges. *)
Lemma shortest_path_when_not_cached_witness :
  exists ls,
    calculateShortestPath 9 "N0" "N1" line_net []
    = (Ok (Path.init "N0" "N1"), (addPath line_net (Path.init "N0" "N1"), ls))
    /\ length ls = 4%nat
    /\ Spec.directed_path (links line_net) "N0" "N1" (reverse ls).
Proof.
  destruct (shortest_path_when_not_cached 9 "N0" "N1" line_net)
    as (ls & Hrun & _ & Hpath & Hmin & _).
  - reflexivity.
  - exists [ Link.mk "N0" "S1" 100000000 0 48832000; Link.mk "S1" "S2" 100000000 0 48832000;
             Link.mk "S2" "S3" 100000000 0 48832000; Link.mk "S3" "N1" 100000000 0 48832000 ].
    vm_compute. repeat split; repeat constructor.
  - vm_compute. lia.
  - exists ls. split; [exact Hrun|]. split; [|exact Hpath].
    revert Hrun. vm_compute. intros [= <-]. reflexivity.
Defined.

(** C1 as stated fails: a path cached before the link [a -> c] was added
    is returned as it is, with two links where one suffices. *)
Lemma stale_cached_path_is_returned :
  Spec.reachable (links shortcut_net) "a" "c"
  /\ exists path,
       calculateShortestPath 4 "a" "c" shortcut_net (snd detour_routed)
       = (Ok path, (shortcut_net, snd detour_routed))
       /\ length (Path.contents (snd detour_routed) path) = 2%nat
       /\ Spec.directed_path (links shortcut_net) "a" "c" [Link.mk "a" "c" 100000000 0 0].
Proof.
  assert (H : Spec.directed_path (links shortcut_net) "a" "c" [Link.mk "a" "c" 100000000 0 0]).
  { vm_compute. repeat split; repeat constructor. }
  split; [by eexists|].
  eexists. split; [vm_compute; reflexivity|]. split; [reflexivity|exact H].
Qed.

(** Two routes computed one after the other, in a network with the
    separate links [a -> b] and [c -> d]: the second path is built on the
    list object that already holds the first route. *)
Lemma default_list_is_shared :
  let n := run_calls (network analysis0)
             [AddLink "a" "b" 100000000 0 0; AddLink "c" "d" 100000000 0 0] in
  let '(_, (n1, d1)) := calculateShortestPath 3 "a" "b" n [] in
  let '(r2, (n2, d2)) := calculateShortestPath 3 "c" "d" n1 d1 in
  exists path,
    r2 = Ok path
    /\ Path.contents d2 path
       = [Link.mk "a" "b" 100000000 0 0; Link.mk "c" "d" 100000000 0 0].
Proof. vm_compute. eexists. split; reflexivity. Qed.

End RoutingProperties.

(** ** The formula engine: domains, bounds and the order of the inputs *)

Section EngineDomains.

Import CBSLatencyCalculator Examples.

Lemma pydiv_is_Ok a b : is_Ok (pydiv a b) <-> ~ b == 0.
Proof.
  destruct (pydiv_cases a b) as [[H E]|[H E]]; rewrite E; split.
  - intros [? [=]].
  - done.
  - done.
  - intros _. by eexists.
Qed.

Lemma bind_is_Ok {A B} (m : result A) (f : A -> result B) :
  is_Ok (m ≫= f) <-> exists a, m = Ok a /\ is_Ok (f a).
Proof.
  destruct m as [a|e]; simpl; split.
  - intros H. by exists a.
  - by intros (a' & [= <-] & H).
  - intros [? [=]].
  - by intros (a' & [=] & _).
Qed.

(** Splits on whether the divisor of every division in the goal is zero. *)
#[local] Ltac divisions :=
  repeat match goal with
         | |- context [pydiv ?a ?b] =>
             let H := fresh "Hz" in let E := fresh "E" in
             destruct (pydiv_cases a b) as [[H E]|[H E]]; rewrite E; clear E; simpl
         end.

Lemma inject_Z_pos_nonzero (N : Z) : (0 < N)%Z -> ~ inject_Z N == 0.
Proof.
  intros HN H. rewrite Zlt_Qlt in HN. change (inject_Z 0) with 0 in HN. lra.
Qed.

(** X1.  Where four of the formulas are defined.  [baStandard] returns
    exactly when the link speed and the idle slope are non-zero;
    [plenary100Mbit] exactly when the link speed and the minimum frame with
    its IFG are non-zero (the division by [N] is behind the guard [N > 0]);
    [plenaryFasterMedia] exactly when the link speed is non-zero;
    [plenaryFasterMediaV2] exactly when the link speed, the CMI and the idle
    slope are non-zero and the idle slope differs from the link speed.  For
    all other arguments the formula raises. *)
Theorem formula_domains (c : CBSLatencyCalculator.t) (idleSlope streamMaxFrame : Q)
    (nrInputLinks : Z) :
  (is_Ok (baStandard c idleSlope streamMaxFrame)
     <-> ~ LINKSPEED c == 0 /\ ~ idleSlope == 0)
  /\ (is_Ok (plenary100Mbit c idleSlope streamMaxFrame nrInputLinks)
        <-> ~ MIN_PACKET_BITS_W_IFG c == 0 /\ ~ LINKSPEED c == 0)
  /\ (is_Ok (plenaryFasterMedia c) <-> ~ LINKSPEED c == 0)
  /\ (is_Ok (plenaryFasterMediaV2 c idleSlope streamMaxFrame)
        <-> ~ LINKSPEED c == 0 /\ ~ idleSlope == LINKSPEED c
            /\ ~ CMI c == 0 /\ ~ idleSlope == 0).
Proof.
  split; [|split; [|split]].
  - unfold baStandard, tClassA_raw. divisions; split;
      try (intros [? [=]]); try (intros [? ?]; contradiction); try done.
    intros _. by eexists.
  - unfold plenary100Mbit, plenary100Mbit_N.
    destruct (pydiv_cases (inject_Z (getMaxReservedPlenary c idleSlope) - streamMaxFrame)
                (MIN_PACKET_BITS_W_IFG c)) as [[H E]|[H E]]; rewrite E; clear E; simpl.
    { split; [intros [? [=]]|intros [? ?]; contradiction]. }
    destruct (0 <? _)%Z eqn:EN; simpl.
    + apply Z.ltb_lt in EN. rewrite pydiv_ok by by apply inject_Z_pos_nonzero. simpl.
      rewrite pydiv_is_Ok. tauto.
    + rewrite pydiv_is_Ok. tauto.
  - unfold plenaryFasterMedia. divisions; split;
      try (intros [? [=]]); try contradiction; try done. intros _. by eexists.
  - unfold plenaryFasterMediaV2.
    assert (H8 : ~ 100000000 == 0) by (intros H; vm_compute in H; discriminate H).
    rewrite (pydiv_ok _ _ H8). simpl.
    assert (HN : LINKSPEED c / 100000000 == 0 <-> LINKSPEED c == 0).
    { split; intros H; [|rewrite H; reflexivity].
      assert (E : LINKSPEED c == LINKSPEED c / 100000000 * 100000000) by (field; done).
      rewrite E, H. reflexivity. }
    assert (HS : idleSlope - LINKSPEED c == 0 <-> idleSlope == LINKSPEED c)
      by (split; intros; lra).
    divisions; rewrite ?HN, ?HS in *; split;
      try (intros [? [=]]); try (intros (? & ? & ? & ?); contradiction); try done;
      try tauto.
    intros _. by eexists.
Qed.

End EngineDomains.

Section FanIn.

Import CBSLatencyCalculator Examples.

Lemma Qdiv_nonneg a b : 0 <= a -> 0 < b -> 0 <= a / b.
Proof. intros Ha Hb. apply Qle_shift_div_l; [done|]. lra. Qed.

Lemma Qdiv_le_mono a b c : 0 < c -> a <= b -> a / c <= b / c.
Proof.
  intros Hc Hab. apply Qle_shift_div_l; [done|].
  assert (E : a / c * c == a) by (field; lra). rewrite E. done.
Qed.

Lemma pymax_same a : pymax a a = a.
Proof. unfold pymax. destruct (Qlt_le_dec a a); [lra|done]. Qed.

Lemma pymax_lub a b c : a < c -> b < c -> pymax a b < c.
Proof. intros. unfold pymax. by destruct (Qlt_le_dec a b). Qed.

(** Once the budget [B0] is used up, every further input link adds one
    class frame. *)
Lemma qStandardL3V1_loop_spent c s cmf n : forall fan B0,
  B0 <= 0 ->
  exists r, qStandardL3V1_loop c s cmf n fan B0 = Ok r
            /\ r == fan + inject_Z (Z.of_nat n) * cmf.
Proof.
  induction n as [|n IH]; intros fan B0 HB.
  - exists fan. split; [done|]. simpl. ring.
  - cbn [qStandardL3V1_loop]. destruct (Qlt_le_dec 0 B0); [lra|].
    destruct (IH (fan + cmf) B0 HB) as (r & Hr & E). exists r. split; [done|].
    rewrite E, inject_Z_S. ring.
Qed.

(** X2.  [qStandardL3V1] in closed form.  With a positive idle slope [s]
    that differs from the link speed [L], and [n >= 1] input links, only the
    first round of the loop finds [B0 > 0] ([B0] is [s] before it and [0]
    after it), and every later round adds one [classMaxFrame]: the delay is
    [ct/L + ((ct*s + cmf*L)/(L - s) + (n - 1)*cmf)/L + cmf/L]. *)
Theorem qStandardL3V1_closed_form (c : CBSLatencyCalculator.t) (idleSlope classMaxFrame : Q)
    (nrInputLinks : Z) :
  0 < idleSlope -> ~ LINKSPEED c == 0 -> ~ idleSlope == LINKSPEED c ->
  (1 <= nrInputLinks)%Z ->
  exists d,
    qStandardL3V1 c idleSlope classMaxFrame nrInputLinks = Ok d
    /\ d == ctMaxFrame c / LINKSPEED c
            + ((ctMaxFrame c * idleSlope + classMaxFrame * LINKSPEED c)
                 / (LINKSPEED c - idleSlope)
               + inject_Z (nrInputLinks - 1) * classMaxFrame) / LINKSPEED c
            + classMaxFrame / LINKSPEED c.
Proof.
  intros Hs HL HsL Hn. unfold qStandardL3V1.
  destruct (Z.to_nat nrInputLinks) as [|n] eqn:En; [lia|].
  assert (Hn' : inject_Z (nrInputLinks - 1) == inject_Z (Z.of_nat n)).
  { replace (nrInputLinks - 1)%Z with (Z.of_nat n) by lia. reflexivity. }
  rewrite (pydiv_ok _ _ HL). simpl.
  destruct (Qlt_le_dec 0 idleSlope); [|lra].
  rewrite pymax_same.
  assert (HW : ~ LINKSPEED c - idleSlope == 0) by lra.
  assert (HWL : ~ (LINKSPEED c - idleSlope) * LINKSPEED c == 0).
  { intros H. apply Qmult_integral in H as [H|H]; contradiction. }
  rewrite (pydiv_ok _ _ HWL), (pydiv_ok _ _ HW). simpl.
  match goal with |- context [qStandardL3V1_loop c idleSlope classMaxFrame n ?fan ?B0] =>
    destruct (qStandardL3V1_loop_spent c idleSlope classMaxFrame n fan B0) as (r & Hr & E);
    [lra|rewrite Hr] end.
  simpl. rewrite !(pydiv_ok _ _ HL). simpl. eexists. split; [reflexivity|].
  rewrite E, Hn'. field. split; done.
Qed.

Lemma qStandardL3V1_closed_form_witness :
  exists d,
    qStandardL3V1 c0 48832000 6096 3 = Ok d
    /\ d == ctMaxFrame c0 / LINKSPEED c0
            + ((ctMaxFrame c0 * 48832000 + 6096 * LINKSPEED c0) / (LINKSPEED c0 - 48832000)
               + inject_Z (3 - 1) * 6096) / LINKSPEED c0
            + 6096 / LINKSPEED c0.
Proof.
  apply (qStandardL3V1_closed_form c0 48832000 6096 3).
  - reflexivity.
  - intros H. vm_compute in H. discriminate H.
  - intros H. vm_compute in H. discriminate H.
  - lia.
Defined.

(** X3.  Fan-in at line rate.  With a positive idle slope equal to the
    link speed, [qStandardL3V1] raises [ZeroDivisionError] as soon as there
    is one input link; [qStandardL3V2] raises it when the larger of the idle
    slope and the first input idle slope equals the link speed: the
    remaining bandwidth [W = LINKSPEED - max(B0, Bi)] is the divisor. *)
Theorem fan_in_raises_at_line_rate (c : CBSLatencyCalculator.t)
    (idleSlope classMaxFrame B1 : Q) (rest : list Q) (nrInputLinks : Z) :
  0 < idleSlope ->
  (idleSlope == LINKSPEED c -> (1 <= nrInputLinks)%Z ->
   qStandardL3V1 c idleSlope classMaxFrame nrInputLinks = Raise ZeroDivisionError)
  /\ (pymax idleSlope B1 == LINKSPEED c ->
      qStandardL3V2 c idleSlope classMaxFrame (B1 :: rest) = Raise ZeroDivisionError).
Proof.
  intros Hs. split.
  - intros HsL Hn. unfold qStandardL3V1.
    destruct (pydiv_cases (ctMaxFrame c) (LINKSPEED c)) as [[HL E]|[HL E]]; rewrite E;
      [done|]. simpl.
    destruct (Z.to_nat nrInputLinks) as [|n] eqn:En; [lia|]. simpl.
    destruct (Qlt_le_dec 0 idleSlope); [|lra].
    rewrite pymax_same.
    rewrite (pydiv_zero _ ((LINKSPEED c - idleSlope) * LINKSPEED c)); [done|].
    rewrite HsL. ring.
  - intros HW. unfold qStandardL3V2.
    destruct (pydiv_cases (ctMaxFrame c) (LINKSPEED c)) as [[HL E]|[HL E]]; rewrite E;
      [done|]. simpl.
    destruct (Qlt_le_dec 0 idleSlope); [|lra].
    assert (HW0 : LINKSPEED c - pymax idleSlope B1 == 0) by (rewrite HW; ring).
    by rewrite (pydiv_zero (ctMaxFrame c * idleSlope) _ HW0).
Qed.

Lemma fan_in_raises_at_line_rate_witness :
  qStandardL3V1 c0 100000000 6096 1 = Raise ZeroDivisionError
  /\ qStandardL3V2 c0 50000000 6096 [100000000; 1] = Raise ZeroDivisionError.
Proof.
  destruct (fan_in_raises_at_line_rate c0 100000000 6096 1 [] 1 eq_refl) as [H1 _].
  destruct (fan_in_raises_at_line_rate c0 50000000 6096 100000000 [1] 1 eq_refl) as [_ H2].
  split; [apply H1; [reflexivity|lia] | apply H2; reflexivity].
Defined.

(** With every slope below the link speed, no division of the fan-in loop
    fails and the fan-in data is not negative. *)
Lemma qStandardL3V2_loop_feasible c s cmf l : forall fan B0,
  0 < LINKSPEED c -> 0 <= ctMaxFrame c -> 0 <= cmf -> s < LINKSPEED c ->
  Forall (fun b => 0 <= b /\ b < LINKSPEED c) l ->
  0 <= fan -> B0 <= s ->
  exists r, qStandardL3V2_loop c s cmf l fan B0 = Ok r /\ 0 <= r.
Proof.
  induction l as [|b l IH]; intros fan B0 HL Hct Hcmf Hs Hl Hfan HB.
  - exists fan. done.
  - inversion Hl as [|? ? [Hb0 HbL] Hl']; subst. cbn [qStandardL3V2_loop].
    destruct (Qlt_le_dec 0 B0) as [Hpos|Hneg].
    + assert (HW : 0 < LINKSPEED c - pymax B0 b).
      { assert (pymax B0 b < LINKSPEED c) by (apply pymax_lub; lra). lra. }
      rewrite !pydiv_ok by lra. simpl.
      apply IH; try done; [|lra].
      assert (0 <= ctMaxFrame c * s / (LINKSPEED c - pymax B0 b)).
      { apply Qdiv_nonneg; [|done]. apply Qmult_le_0_compat; lra. }
      assert (0 <= cmf * LINKSPEED c / (LINKSPEED c - pymax B0 b)).
      { apply Qdiv_nonneg; [|done]. apply Qmult_le_0_compat; lra. }
      lra.
    + apply IH; try done. lra.
Qed.

(** X4.  [qStandardL3V2] within the capacity of the link.  With a
    positive link speed, non-negative frame sizes, an idle slope below the
    link speed and every input idle slope in [[0, LINKSPEED)], the formula
    returns, and its delay is at least the transmission time of one
    cross-traffic frame, [ctMaxFrame / LINKSPEED]. *)
Theorem qStandardL3V2_feasible (c : CBSLatencyCalculator.t) (idleSlope classMaxFrame : Q)
    (inputIdleSlopes : list Q) :
  0 < LINKSPEED c -> 0 <= ctMaxFrame c -> 0 <= classMaxFrame ->
  idleSlope < LINKSPEED c ->
  Forall (fun b => 0 <= b /\ b < LINKSPEED c) inputIdleSlopes ->
  exists d,
    qStandardL3V2 c idleSlope classMaxFrame inputIdleSlopes = Ok d
    /\ ctMaxFrame c / LINKSPEED c <= d.
Proof.
  intros HL Hct Hcmf Hs Hl. unfold qStandardL3V2.
  rewrite pydiv_ok by lra. simpl.
  destruct (qStandardL3V2_loop_feasible c idleSlope classMaxFrame inputIdleSlopes 0 idleSlope)
    as (r & Hr & Hr0); try done; try lra.
  rewrite Hr. simpl. rewrite pydiv_ok by lra. simpl.
  eexists. split; [reflexivity|].
  assert (0 <= r / LINKSPEED c) by by apply Qdiv_nonneg. lra.
Qed.

Lemma qStandardL3V2_feasible_witness :
  exists d,
    qStandardL3V2 c0 48832000 6096 [48832000; 0; 1000] = Ok d
    /\ ctMaxFrame c0 / LINKSPEED c0 <= d.
Proof.
  apply (qStandardL3V2_feasible c0 48832000 6096 [48832000; 0; 1000]);
    try reflexivity; try (intros H; vm_compute in H; discriminate H).
  repeat constructor; try reflexivity; intros H; vm_compute in H; discriminate H.
Defined.

End FanIn.

Section Plenary.

Import CBSLatencyCalculator Examples.

Lemma bind_Ok {A B} (a : A) (f : A -> result B) : Ok a ≫= f = f a.
Proof. reflexivity. Qed.

Lemma Qceiling_below q : inject_Z (Qceiling q) < q + 1.
Proof.
  pose proof (Qceiling_lt q) as H. unfold Z.sub in H.
  rewrite inject_Z_plus in H. change (inject_Z (- (1))) with (- (1)) in H. lra.
Qed.

Lemma inject_Z_ge_1 (N : Z) : (0 < N)%Z -> 1 <= inject_Z N.
Proof.
  intros HN. assert (H : (1 <= N)%Z) by lia. rewrite Zle_Qle in H. exact H.
Qed.

(** The packets that [plenary100Mbit] adds for [N > 0] competing inputs,
    [x] being [maxReserved - streamMaxFrame]. *)
Lemma other_packets_nonneg (x minW : Q) (N : Z) :
  1 <= minW -> (0 < N)%Z -> (N <= Qfloor (x / minW))%Z ->
  1 <= x /\ 0 <= 2 * x - inject_Z (Qceiling (x / inject_Z N)).
Proof.
  intros Hw HN HK.
  pose proof (inject_Z_ge_1 N HN) as HN1.
  assert (Hx : 1 <= x).
  { pose proof (Qfloor_le (x / minW)) as Hfl. rewrite Zle_Qle in HK.
    assert (E : x == x / minW * minW) by (field; lra).
    assert (1 <= x / minW) by lra. rewrite E. nra. }
  split; [done|].
  pose proof (Qceiling_below (x / inject_Z N)).
  pose proof (Qdiv_antitone x 1 (inject_Z N) ltac:(lra) ltac:(lra) HN1) as Hd.
  assert (E1 : x / 1 == x) by (field).
  assert (Hlt : inject_Z (Qceiling (x / inject_Z N)) < x + 1) by lra.
  (* an integer below x + 1 with x >= 1 ... 2x - ceil > x - 1 >= 0 *)
  lra.
Qed.

Lemma other_packets_mono (x : Q) (N1 N2 : Z) :
  0 <= x -> (0 < N1)%Z -> (N1 <= N2)%Z ->
  2 * x - inject_Z (Qceiling (x / inject_Z N1))
  <= 2 * x - inject_Z (Qceiling (x / inject_Z N2)).
Proof.
  intros Hx H1 H12.
  pose proof (inject_Z_ge_1 N1 H1). rewrite Zle_Qle in H12.
  pose proof (Qdiv_antitone x (inject_Z N1) (inject_Z N2) Hx ltac:(lra) H12) as Hd.
  apply Qceiling_resp_le in Hd. rewrite Zle_Qle in Hd. lra.
Qed.

Lemma plenary100Mbit_value c s f n :
  ~ MIN_PACKET_BITS_W_IFG c == 0 -> ~ LINKSPEED c == 0 ->
  let x := inject_Z (getMaxReservedPlenary c s) - f in
  let N := Z.min (n - 1) (Qfloor (x / MIN_PACKET_BITS_W_IFG c)) in
  exists d o,
    plenary100Mbit c s f n = Ok d
    /\ d == (ctMaxFrame c + o + f) / LINKSPEED c
    /\ o = if (0 <? N)%Z then 2 * x - inject_Z (Qceiling (x / inject_Z N)) else 0.
Proof.
  intros Hw HL x N. unfold plenary100Mbit, plenary100Mbit_N.
  rewrite (pydiv_ok _ _ Hw), !bind_Ok. cbv beta. fold x. fold N.
  destruct (0 <? N)%Z eqn:EN.
  - apply Z.ltb_lt in EN. rewrite (pydiv_ok _ (inject_Z N)) by by apply inject_Z_pos_nonzero.
    rewrite !bind_Ok. cbv beta zeta. rewrite (pydiv_ok _ _ HL).
    eexists _, _. split; [reflexivity|]. split; reflexivity.
  - rewrite !bind_Ok. cbv beta zeta. rewrite (pydiv_ok _ _ HL).
    eexists _, _. split; [reflexivity|]. split; reflexivity.
Qed.

(** X5.  [plenary100Mbit] and the number of input links.  With a positive
    link speed and a minimum frame of at least one bit, the formula returns
    for every number of input links, never less than
    [(ctMaxFrame + streamMaxFrame) / LINKSPEED], and a larger number of
    input links never gives a smaller delay. *)
Theorem plenary100Mbit_grows_with_input_links (c : CBSLatencyCalculator.t)
    (idleSlope streamMaxFrame : Q) (n1 n2 : Z) :
  0 < LINKSPEED c -> 1 <= MIN_PACKET_BITS_W_IFG c -> (n1 <= n2)%Z ->
  exists d1 d2,
    plenary100Mbit c idleSlope streamMaxFrame n1 = Ok d1
    /\ plenary100Mbit c idleSlope streamMaxFrame n2 = Ok d2
    /\ (ctMaxFrame c + streamMaxFrame) / LINKSPEED c <= d1
    /\ d1 <= d2.
Proof.
  intros HL Hw Hn.
  destruct (plenary100Mbit_value c idleSlope streamMaxFrame n1) as (d1 & o1 & E1 & Hd1 & Ho1);
    [lra|lra|].
  destruct (plenary100Mbit_value c idleSlope streamMaxFrame n2) as (d2 & o2 & E2 & Hd2 & Ho2);
    [lra|lra|].
  exists d1, d2. split; [done|]. split; [done|].
  set (x := inject_Z (getMaxReservedPlenary c idleSlope) - streamMaxFrame) in *.
  set (K := Qfloor (x / MIN_PACKET_BITS_W_IFG c)) in *.
  assert (H0 : 0 <= o1 /\ o1 <= o2).
  { subst o1 o2.
    destruct (0 <? Z.min (n1 - 1) K)%Z eqn:EN1; destruct (0 <? Z.min (n2 - 1) K)%Z eqn:EN2;
      try apply Z.ltb_lt in EN1; try apply Z.ltb_lt in EN2;
      try apply Z.ltb_ge in EN1; try apply Z.ltb_ge in EN2; try lia.
    - destruct (other_packets_nonneg x (MIN_PACKET_BITS_W_IFG c) (Z.min (n1 - 1) K))
        as [Hx Ho]; [done|done|lia|].
      split; [done|]. apply other_packets_mono; [lra|done|lia].
    - destruct (other_packets_nonneg x (MIN_PACKET_BITS_W_IFG c) (Z.min (n2 - 1) K))
        as [Hx Ho]; [done|done|lia|].
      split; [lra|done].
    - split; lra. }
  rewrite Hd1, Hd2. split; apply Qdiv_le_mono; lra.
Qed.

Lemma plenary100Mbit_grows_with_input_links_witness :
  exists d1 d2,
    plenary100Mbit c0 80000000 6096 2 = Ok d1
    /\ plenary100Mbit c0 80000000 6096 5 = Ok d2
    /\ (ctMaxFrame c0 + 6096) / LINKSPEED c0 <= d1
    /\ d1 <= d2.
Proof.
  apply (plenary100Mbit_grows_with_input_links c0 80000000 6096 2 5).
  - reflexivity.
  - intros H. vm_compute in H. discriminate H.
  - lia.
Defined.

(** X6.  [plenaryFasterMediaV2] on links of 100 Mbit/s and more.  With a
    positive CMI, non-negative frame sizes and an idle slope strictly
    between 0 and the link speed, the formula returns, and its delay is at
    least the transmission time of one cross-traffic frame,
    [ctMaxFrame / LINKSPEED]. *)
Theorem plenaryFasterMediaV2_at_least_one_frame (c : CBSLatencyCalculator.t)
    (idleSlope streamMaxFrame : Q) :
  100000000 <= LINKSPEED c -> 0 < CMI c -> 0 <= ctMaxFrame c ->
  0 < idleSlope -> idleSlope < LINKSPEED c -> 0 <= streamMaxFrame ->
  exists d,
    plenaryFasterMediaV2 c idleSlope streamMaxFrame = Ok d
    /\ ctMaxFrame c / LINKSPEED c <= d.
Proof.
  intros HL HC Hct Hs HsL Hf. unfold plenaryFasterMediaV2.
  assert (HL0 : 0 < LINKSPEED c) by lra.
  assert (H8 : ~ 100000000 == 0) by (intros H; vm_compute in H; discriminate H).
  assert (HN : 1 <= LINKSPEED c / 100000000) by (apply Qle_shift_div_l; lra).
  assert (HLz : ~ LINKSPEED c == 0) by lra.
  assert (HNz : ~ LINKSPEED c / 100000000 == 0) by lra.
  assert (Hssz : ~ idleSlope - LINKSPEED c == 0) by lra.
  assert (HCz : ~ CMI c == 0) by lra.
  assert (Hsz : ~ idleSlope == 0) by lra.
  repeat match goal with
  | |- exists d, (pydiv ?a ?b ≫= _) = Ok d /\ _ =>
      first [ rewrite (pydiv_ok a b H8) | rewrite (pydiv_ok a b HNz)
            | rewrite (pydiv_ok a b HLz) | rewrite (pydiv_ok a b Hssz)
            | rewrite (pydiv_ok a b HCz) | rewrite (pydiv_ok a b Hsz) ];
      rewrite bind_Ok; cbv beta zeta
  end.
  eexists. split; [reflexivity|].
  set (N := LINKSPEED c / 100000000) in *.
  match goal with |- context [inject_Z (if ?b then 0%Z else ?z)] =>
    set (sb := inject_Z (if b then 0%Z else z));
    assert (Hsb : 0 <= sb) end.
  { unfold sb. destruct (_ <? 0)%Z eqn:E; [apply Qle_refl|].
    apply Z.ltb_ge in E. rewrite Zle_Qle in E. exact E. }
  set (ss := idleSlope - LINKSPEED c) in *.
  assert (Hss : ss < 0) by (unfold ss; lra).
  set (lo := sb * ss / LINKSPEED c).
  set (hi := ctMaxFrame c * idleSlope / LINKSPEED c).
  set (mbs := LINKSPEED c * (lo - hi) / ss).
  set (mbt := (lo - hi) / ss).
  assert (Hlo : lo <= 0).
  { unfold lo. assert (0 <= (- (sb * ss)) / LINKSPEED c).
    { apply Qdiv_nonneg; [nra|done]. }
    assert (E : - (sb * ss) / LINKSPEED c == - (sb * ss / LINKSPEED c)) by (field; lra).
    lra. }
  assert (Hhi : 0 <= hi).
  { unfold hi. apply Qdiv_nonneg; [nra|done]. }
  assert (Hmbt : 0 <= mbt).
  { unfold mbt.
    assert (E : (lo - hi) / ss == (hi - lo) / (- ss)) by (field; lra).
    rewrite E. apply Qdiv_nonneg; lra. }
  assert (Hmbs : mbs == LINKSPEED c * mbt) by (unfold mbs, mbt; field; lra).
  assert (Hcyc : 0 <= inject_Z (Qfloor (mbt / CMI c))).
  { assert (H0 : (0 <= Qfloor (mbt / CMI c))%Z).
    { change 0%Z with (Qfloor 0). apply Qfloor_resp_le. by apply Qdiv_nonneg. }
    rewrite Zle_Qle in H0. exact H0. }
  assert (Hb : 0 <= sb / LINKSPEED c) by by apply Qdiv_nonneg.
  assert (Ha : mbt <= (N * mbs + inject_Z (Qfloor (mbt / CMI c)) * streamMaxFrame)
                      / idleSlope).
  { apply Qle_shift_div_l; [done|].
    assert (0 <= inject_Z (Qfloor (mbt / CMI c)) * streamMaxFrame)
      by by apply Qmult_le_0_compat.
    rewrite Hmbs.
    assert (H1 : mbt * idleSlope <= LINKSPEED c * mbt) by nra.
    assert (H2 : 0 <= LINKSPEED c * mbt) by nra.
    assert (H3 : LINKSPEED c * mbt <= N * (LINKSPEED c * mbt)) by nra.
    lra. }
  lra.
Qed.

Lemma plenaryFasterMediaV2_at_least_one_frame_witness :
  exists d,
    plenaryFasterMediaV2 c0 48832000 6096 = Ok d /\ ctMaxFrame c0 / LINKSPEED c0 <= d.
Proof.
  apply (plenaryFasterMediaV2_at_least_one_frame c0 48832000 6096);
    try reflexivity; intros H; vm_compute in H; discriminate H.
Defined.

End Plenary.

Section InputOrder.

Import CBSLatencyCalculator Examples.

Lemma Qle_bool_proper x y y' : y == y' -> Qle_bool x y = Qle_bool x y'.
Proof.
  intros E. destruct (Qle_bool x y) eqn:H1, (Qle_bool x y') eqn:H2; try done.
  - apply Qle_bool_iff in H1. rewrite E in H1. apply Qle_bool_iff in H1. congruence.
  - apply Qle_bool_iff in H2. rewrite <- E in H2. apply Qle_bool_iff in H2. congruence.
Qed.

Lemma sorted_insert_proper x l l' :
  Forall2 Qeq l l' -> Forall2 Qeq (sorted_insert x l) (sorted_insert x l').
Proof.
  induction 1 as [|y y' l l' E H IH]; simpl.
  - by repeat constructor.
  - rewrite (Qle_bool_proper x y y' E).
    destruct (Qle_bool x y'); repeat constructor; done.
Qed.

Lemma Forall2_Qeq_refl l : Forall2 Qeq l l.
Proof. induction l; constructor; done. Qed.

Lemma Forall2_Qeq_trans l1 l2 l3 :
  Forall2 Qeq l1 l2 -> Forall2 Qeq l2 l3 -> Forall2 Qeq l1 l3.
Proof.
  intros H. revert l3. induction H; intros l3 H3; inversion H3; subst; constructor.
  - etrans; eassumption.
  - auto.
Qed.

Lemma sorted_insert_swap x y s :
  Forall2 Qeq (sorted_insert x (sorted_insert y s)) (sorted_insert y (sorted_insert x s)).
Proof.
  assert (Hxy : forall t,
             sorted_insert y t = y :: t -> sorted_insert x t = x :: t ->
             Forall2 Qeq (sorted_insert x (y :: t)) (sorted_insert y (x :: t))).
  { intros t Ey Ex. cbn [sorted_insert]. rewrite Ex, Ey.
    destruct (Qle_bool x y) eqn:H1, (Qle_bool y x) eqn:H2.
    - apply Qle_bool_iff in H1, H2. assert (x == y) by lra.
      repeat constructor; first [done | apply Forall2_Qeq_refl].
    - apply Forall2_Qeq_refl.
    - apply Forall2_Qeq_refl.
    - exfalso. destruct (Qlt_le_dec x y) as [H|H].
      + apply Qlt_le_weak, Qle_bool_iff in H. congruence.
      + apply Qle_bool_iff in H. congruence. }
  induction s as [|z s IH]; [by apply Hxy|].
  cbn [sorted_insert].
  destruct (Qle_bool y z) eqn:Hy, (Qle_bool x z) eqn:Hx.
  - apply Hxy; cbn [sorted_insert]; by rewrite ?Hx, ?Hy.
  - cbn [sorted_insert]. rewrite Hy, Hx.
    destruct (Qle_bool x y) eqn:H1.
    + apply Qle_bool_iff in H1, Hy.
      assert (x <= z) by lra. apply Qle_bool_iff in H. congruence.
    + apply Forall2_Qeq_refl.
  - cbn [sorted_insert]. rewrite Hy, Hx.
    destruct (Qle_bool y x) eqn:H1.
    + apply Qle_bool_iff in H1, Hx.
      assert (y <= z) by lra. apply Qle_bool_iff in H. congruence.
    + apply Forall2_Qeq_refl.
  - cbn [sorted_insert]. rewrite Hy, Hx. constructor; done.
Qed.

Lemma sorted_order l1 l2 : l1 ≡ₚ l2 -> Forall2 Qeq (sorted l1) (sorted l2).
Proof.
  induction 1 as [|x l1 l2 H IH|x y l|l1 l2 l3 H1 IH1 H2 IH2].
  - constructor.
  - by apply sorted_insert_proper.
  - apply sorted_insert_swap.
  - by eapply Forall2_Qeq_trans.
Qed.

Lemma req_bind (m m' : result Q) (f f' : Q -> result Q) :
  req m m' -> (forall a a', a == a' -> req (f a) (f' a')) -> req (m ≫= f) (m' ≫= f').
Proof. destruct m, m'; simpl; try done. intros H Hf. by apply Hf. Qed.

Lemma pydiv_proper a a' b b' : a == a' -> b == b' -> req (pydiv a b) (pydiv a' b').
Proof.
  intros Ea Eb.
  destruct (pydiv_cases a b) as [[Hz ->]|[Hz ->]], (pydiv_cases a' b') as [[Hz' ->]|[Hz' ->]];
    simpl; try done.
  - destruct Hz'. by rewrite <- Eb.
  - destruct Hz. by rewrite Eb.
  - by rewrite Ea, Eb.
Qed.

Lemma pymax_proper a a' b b' : a == a' -> b == b' -> pymax a b == pymax a' b'.
Proof.
  intros Ea Eb. unfold pymax.
  destruct (Qlt_le_dec a b), (Qlt_le_dec a' b'); try done; lra.
Qed.

Lemma qStandardL3V2_loop_proper c s cmf l l' :
  Forall2 Qeq l l' -> forall fan fan' B0 B0',
  fan == fan' -> B0 == B0' ->
  req (qStandardL3V2_loop c s cmf l fan B0) (qStandardL3V2_loop c s cmf l' fan' B0').
Proof.
  induction 1 as [|Bi Bi' l l' E H IH]; intros fan fan' B0 B0' Ef EB; simpl; [done|].
  destruct (Qlt_le_dec 0 B0), (Qlt_le_dec 0 B0'); try lra.
  - assert (EW : LINKSPEED c - pymax B0 Bi == LINKSPEED c - pymax B0' Bi')
      by (rewrite (pymax_proper B0 B0' Bi Bi' EB E); reflexivity).
    apply req_bind; [apply pydiv_proper; [reflexivity|exact EW]|].
    intros a a' Ea.
    apply req_bind; [apply pydiv_proper; [reflexivity|exact EW]|].
    intros b b' Eb. apply IH; [by rewrite Ef, Ea, Eb | by rewrite EB, E].
  - apply IH; [by rewrite Ef | done].
Qed.

Lemma qStandardL3V2_proper c s cmf l l' :
  Forall2 Qeq l l' -> req (qStandardL3V2 c s cmf l) (qStandardL3V2 c s cmf l').
Proof.
  intros H. unfold qStandardL3V2.
  apply req_bind; [apply pydiv_proper; reflexivity|]. intros q q' Eq.
  apply req_bind; [apply qStandardL3V2_loop_proper; done|]. intros fan fan' Ef.
  apply req_bind; [apply pydiv_proper; [done|reflexivity]|]. intros d d' Ed.
  simpl. by rewrite Eq, Ed.
Qed.

(** X7.  The outcome of [runAlgorithmsForPort] does not depend on the order
    in which the caller lists the input idle slopes: for two lists that are
    permutations of each other the call raises the same exception, or
    returns the same keys with values equal as rationals. *)
Theorem runAlgorithmsForPort_input_order (idleSlope streamMaxFrame classMaxFrame : Q)
    (nrInputLinks : Z) (c : CBSLatencyCalculator.t) (l1 l2 : list Q) :
  l1 ≡ₚ l2 ->
  Spec.dict_req
    (fst (runAlgorithmsForPort idleSlope streamMaxFrame classMaxFrame nrInputLinks 0%nat
            (mkState c [l1])))
    (fst (runAlgorithmsForPort idleSlope streamMaxFrame classMaxFrame nrInputLinks 0%nat
            (mkState c [l2]))).
Proof.
  intros Hp.
  rewrite (runAlgorithmsForPort_outcome _ _ _ _ 0%nat (mkState c [l1]) l1 eq_refl).
  rewrite (runAlgorithmsForPort_outcome _ _ _ _ 0%nat (mkState c [l2]) l2 eq_refl).
  pose proof (sorted_order l1 l2 Hp) as Hs.
  pose proof (qStandardL3V2_proper c idleSlope classMaxFrame _ _ Hs) as H3.
  assert (Hr : Forall2 Qeq (reverse (sorted l1)) (reverse (sorted l2))).
  { by apply Forall2_reverse. }
  pose proof (qStandardL3V2_proper c idleSlope classMaxFrame _ _ Hr) as H7.
  unfold Derived.run_outcome. cbn [self lists].
  destruct (baStandard c idleSlope streamMaxFrame); [|done].
  destruct (qStandardL3V1 c idleSlope classMaxFrame nrInputLinks); [|done].
  destruct (qStandardL3V2 c idleSlope classMaxFrame (sorted l1)),
           (qStandardL3V2 c idleSlope classMaxFrame (sorted l2)); try done.
  destruct (plenary100Mbit c idleSlope streamMaxFrame nrInputLinks); [|done].
  destruct (plenaryFasterMedia c); [|done].
  destruct (plenaryFasterMediaV2 c idleSlope streamMaxFrame); [|done].
  destruct (qStandardL3V2 c idleSlope classMaxFrame (reverse (sorted l1))),
           (qStandardL3V2 c idleSlope classMaxFrame (reverse (sorted l2))); try done.
  simpl in *. split; [done|]. repeat constructor; done.
Qed.

Lemma runAlgorithmsForPort_input_order_witness :
  Spec.dict_req
    (fst (runAlgorithmsForPort 48832000 6096 6096 3 0%nat (mkState c0 [[3; 1; 2]])))
    (fst (runAlgorithmsForPort 48832000 6096 6096 3 0%nat (mkState c0 [[1; 2; 3]]))).
Proof.
  apply (runAlgorithmsForPort_input_order 48832000 6096 6096 3 c0 [3; 1; 2] [1; 2; 3]).
  eapply perm_trans; [apply perm_swap | apply perm_skip, perm_swap].
Defined.

End InputOrder.

(** ** The topology model: lookups, routes and the path cache *)

Section LookupProperties.

Import Network Registry Examples.

Lemma find_snoc {A} (f : A -> bool) l x :
  find f (l ++ [x])
  = match find f l with
    | Some y => Some y
    | None => if f x then Some x else None
    end.
Proof.
  induction l as [|y l IH]; simpl; [done|]. by destruct (f y).
Qed.

Lemma isLinkFor_key l src dst :
  Link.isLinkFor l src dst false = true <-> link_key l = (src, dst).
Proof.
  unfold Link.isLinkFor, link_key. rewrite andb_true_iff, !bool_decide_eq_true.
  split; [by intros [-> ->] | by intros [= -> ->]].
Qed.

Lemma isLinkFor_other l src dst src' dst' :
  (src', dst') <> (src, dst) -> link_key l = (src, dst) ->
  Link.isLinkFor l src' dst' false = false.
Proof.
  intros Hne Hk. destruct (Link.isLinkFor l src' dst' false) eqn:E; [|done].
  apply isLinkFor_key in E. congruence.
Qed.

Lemma getLink_Some n src dst l :
  getLink n src dst = Some l -> Link.src l = src /\ Link.dst l = dst /\ l ∈ links n.
Proof.
  unfold getLink. intros H. apply find_some in H as [Hin Hf].
  apply isLinkFor_key in Hf. injection Hf as -> ->.
  by rewrite list_elem_of_In.
Qed.

Lemma getLink_addLink n src dst rate delay idleSlope :
  let n' := addLink n src dst rate delay idleSlope in
  getLink n' src dst
  = Some (match getLink n src dst with
          | Some l => l
          | None => Link.mk src dst rate delay idleSlope
          end)
  /\ (forall src' dst', (src', dst') <> (src, dst) ->
        getLink n' src' dst' = getLink n src' dst').
Proof.
  unfold addLink. destruct (getLink n src dst) as [l|] eqn:E; cbn zeta.
  - by rewrite E.
  - unfold getLink in *. cbn [links]. split.
    + rewrite find_snoc, E.
      assert (Hk : Link.isLinkFor (Link.mk src dst rate delay idleSlope) src dst false
                   = true) by (by apply isLinkFor_key).
      by rewrite Hk.
    + intros src' dst' Hne. rewrite find_snoc.
      rewrite (isLinkFor_other (Link.mk src dst rate delay idleSlope) src dst src' dst')
        by done.
      by case_match.
Qed.

(** X8.  [getLink] after [addLink]: the link registered first for an
    ordered pair is the one found (a second registration with other
    parameters is ignored), the lookup of every other pair is unaffected,
    whatever is found has the endpoints asked for, and
    [addBidirectionalLink] makes both directions findable without
    replacing a direction that was registered before. *)
Theorem first_registered_link_is_found (n : Network.t) (src dst : string)
    (rate delay idleSlope : Q) :
  let new s d := Link.mk s d rate delay idleSlope in
  let found n s d := match getLink n s d with Some l => l | None => new s d end in
  let n1 := addLink n src dst rate delay idleSlope in
  let n2 := addBidirectionalLink n src dst rate delay idleSlope in
  getLink n1 src dst = Some (found n src dst)
  /\ (forall src' dst', (src', dst') <> (src, dst) ->
        getLink n1 src' dst' = getLink n src' dst')
  /\ (forall src' dst' l, getLink n1 src' dst' = Some l ->
        Link.src l = src' /\ Link.dst l = dst' /\ l ∈ links n1)
  /\ getLink n2 src dst = Some (found n src dst)
  /\ getLink n2 dst src
     = Some (if bool_decide (src = dst) then found n src dst else found n dst src)
  /\ (forall src' dst', (src', dst') <> (src, dst) -> (src', dst') <> (dst, src) ->
        getLink n2 src' dst' = getLink n src' dst').
Proof.
  intros new found n1 n2.
  destruct (getLink_addLink n src dst rate delay idleSlope) as [H1 H2].
  destruct (getLink_addLink n1 dst src rate delay idleSlope) as [H3 H4].
  cbn zeta in H1, H2, H3, H4.
  change (addLink n1 dst src rate delay idleSlope) with n2 in H3, H4.
  change (addLink n src dst rate delay idleSlope) with n1 in H1, H2.
  split; [exact H1|]. split; [exact H2|]. split; [apply getLink_Some|].
  case_bool_decide as Hsd.
  - subst dst. rewrite H3, H1. split; [done|]. split; [done|].
    intros src' dst' Hne _. by rewrite H4, H2.
  - assert (Hne : (src, dst) <> (dst, src)) by congruence.
    split; [by rewrite H4, H1|]. split.
    + rewrite H3. unfold found. rewrite (H2 dst src); [done|congruence].
    + intros src' dst' Hn1 Hn2. by rewrite H4, H2.
Qed.

Lemma getFlow_addFlow n flow :
  getFlow (addFlow n flow) (Flow.src flow) (Flow.dst flow)
  = Some (match getFlow n (Flow.src flow) (Flow.dst flow) with
          | Some f => f
          | None => flow
          end)
  /\ (forall src dst, (src, dst) <> flow_key flow ->
        getFlow (addFlow n flow) src dst = getFlow n src dst).
Proof.
  unfold addFlow. destruct (getFlow n _ _) as [f|] eqn:E.
  - by rewrite E.
  - unfold getFlow in *. cbn [flows]. split.
    + rewrite find_snoc, E. by rewrite !bool_decide_eq_true_2.
    + intros src dst Hne. rewrite find_snoc.
      case_match; [done|].
      destruct (bool_decide (Flow.src flow = src)) eqn:E1,
               (bool_decide (Flow.dst flow = dst)) eqn:E2; try done.
      apply bool_decide_eq_true in E1, E2. destruct Hne. unfold flow_key. congruence.
Qed.

Lemma lookupPath_addPath n path :
  lookupPath (addPath n path) (Path.src path) (Path.dst path)
  = Some (match lookupPath n (Path.src path) (Path.dst path) with
          | Some p => p
          | None => path
          end)
  /\ (forall src dst, (src, dst) <> (Path.src path, Path.dst path) ->
        lookupPath (addPath n path) src dst = lookupPath n src dst).
Proof.
  unfold addPath. destruct (lookupPath n _ _) as [p|] eqn:E.
  - by rewrite E.
  - unfold lookupPath in *. cbn [paths]. split.
    + rewrite find_snoc, E. by rewrite !bool_decide_eq_true_2.
    + intros src dst Hne. rewrite find_snoc.
      case_match; [done|].
      destruct (bool_decide (Path.src path = src)) eqn:E1,
               (bool_decide (Path.dst path = dst)) eqn:E2; try done.
      apply bool_decide_eq_true in E1, E2. destruct Hne. congruence.
Qed.

(** X9.  [getFlow] after [addFlow] and [lookupPath] after [addPath]: the
    flow, respectively the path, registered first for an ordered pair is the
    one found, and the lookup of every other pair is unaffected; neither
    registration touches the links, and [addFlow] leaves the cached paths
    alone: a flow added after its route was cached is analysed over that
    route. *)
Theorem first_registered_flow_and_path_are_found (n : Network.t) (flow : Flow.t)
    (path : Path.t) :
  getFlow (addFlow n flow) (Flow.src flow) (Flow.dst flow)
  = Some (match getFlow n (Flow.src flow) (Flow.dst flow) with
          | Some f => f
          | None => flow
          end)
  /\ (forall src dst, (src, dst) <> (Flow.src flow, Flow.dst flow) ->
        getFlow (addFlow n flow) src dst = getFlow n src dst)
  /\ lookupPath (addPath n path) (Path.src path) (Path.dst path)
     = Some (match lookupPath n (Path.src path) (Path.dst path) with
             | Some p => p
             | None => path
             end)
  /\ (forall src dst, (src, dst) <> (Path.src path, Path.dst path) ->
        lookupPath (addPath n path) src dst = lookupPath n src dst)
  /\ (forall src dst, getLink (addFlow n flow) src dst = getLink n src dst
                      /\ getLink (addPath n path) src dst = getLink n src dst
                      /\ lookupPath (addFlow n flow) src dst = lookupPath n src dst).
Proof.
  destruct (getFlow_addFlow n flow) as [H1 H2].
  destruct (lookupPath_addPath n path) as [H3 H4].
  repeat split; try done.
  - unfold addFlow. by destruct (getFlow n _ _).
  - unfold addPath. by destruct (lookupPath n _ _).
  - unfold addFlow. by destruct (getFlow n _ _).
Qed.

Lemma add_cases l link :
  (Path.add l link = l /\ exists l', l' ∈ l /\ link_key l' = link_key link)
  \/ (Path.add l link = l ++ [link] /\ link_key link ∉ link_key <$> l).
Proof.
  unfold Path.add. destruct (existsb _ l) eqn:E.
  - left. split; [done|]. apply existsb_exists in E as (l' & Hin & Hf).
    exists l'. rewrite list_elem_of_In. split; [done|]. by apply isLinkFor_key in Hf.
  - right. split; [done|]. intros Hin. apply list_elem_of_fmap in Hin as (l' & Hk & Hin).
    assert (existsb (fun l' => Link.isLinkFor l' (Link.src link) (Link.dst link) false) l
            = true); [|congruence].
    apply existsb_exists. exists l'. rewrite <- list_elem_of_In. split; [done|].
    by apply isLinkFor_key.
Qed.

Lemma add_idem l link : Path.add (Path.add l link) link = Path.add l link.
Proof.
  destruct (add_cases l link) as [[E _]|[E Hn]]; rewrite E.
  - exact E.
  - unfold Path.add. rewrite existsb_app. cbn [existsb].
    assert (Hk : Link.isLinkFor link (Link.src link) (Link.dst link) false = true)
      by (by apply isLinkFor_key).
    by rewrite Hk, orb_true_r.
Qed.

(** X10.  [Path.addLinks] only ever appends: the list behind the path is
    unchanged when it already holds a link for the same ordered pair, and
    gets the link at its end otherwise; afterwards a link for that pair is
    in the list, pairs that were unique stay unique, a second call with the
    same link changes nothing, and the path's endpoints are untouched.  A
    path built on the default list of [__init__] writes to that shared
    list; a path with a list of its own leaves the default list alone. *)
Theorem addLinks_appends_once (path : Path.t) (link : Link.t) (default : list Link.t) :
  let before := Path.contents default path in
  let path' := fst (Path.addLinks path link default) in
  let default' := snd (Path.addLinks path link default) in
  let after := Path.contents default' path' in
  (after = before \/ after = before ++ [link])
  /\ (exists l, l ∈ after /\ link_key l = link_key link)
  /\ (NoDup (link_key <$> before) -> NoDup (link_key <$> after))
  /\ Path.addLinks path' link default' = (path', default')
  /\ Path.src path' = Path.src path /\ Path.dst path' = Path.dst path
  /\ (Path.links path = Path.Default -> default' = after)
  /\ (Path.links path <> Path.Default -> default' = default).
Proof.
  intros before path' default' after.
  assert (Ha : after = Path.add before link).
  { unfold after, before, path', default', Path.addLinks, Path.contents.
    by destruct path as [s d [|own]]. }
  split; [|split; [|split; [|split]]].
  - rewrite Ha. destruct (add_cases before link) as [[-> _]|[-> _]]; auto.
  - rewrite Ha. destruct (add_cases before link) as [[-> H]|[-> _]]; [done|].
    exists link. split; [set_solver|done].
  - intros Hnd. rewrite Ha. destruct (add_cases before link) as [[-> _]|[-> Hn]]; [done|].
    rewrite fmap_app. apply NoDup_app. split; [done|]. split; [|apply NoDup_singleton].
    intros k Hk Hk'. apply list_elem_of_singleton in Hk' as ->. done.
  - unfold path', default', Path.addLinks.
    destruct path as [s d [|own]]; cbn [Path.links fst snd Path.src Path.dst].
    + by rewrite add_idem.
    + by rewrite add_idem.
  - unfold after, path', default', Path.addLinks, Path.contents.
    destruct path as [s d [|own]]; cbn; repeat split; try done; intros H; by destruct H.
Qed.

End LookupProperties.

Section RouteProperties.

Import Network Search Registry Examples.

Local Open Scope nat_scope.

(** Whatever has a predecessor has a distance. *)
Lemma scan_link_previous current visited U D P l U' D' P' :
  scan_link current visited (U, D, P) l = Ok (U', D', P') ->
  (forall v, is_Some (P !! v) -> is_Some (D !! v)) ->
  forall v, is_Some (P' !! v) -> is_Some (D' !! v).
Proof.
  unfold scan_link. intros Hrun Hinv.
  destruct (_ && _); [|by injection Hrun as <- <- <-].
  destruct (D !! Link.dst l) eqn:Hd; [by injection Hrun as <- <- <-|].
  destruct (D !! current) eqn:Hc; [|done].
  injection Hrun as <- <- <-. intros v.
  destruct (decide (v = Link.dst l)) as [->|Hne].
  - by rewrite !lookup_insert_eq.
  - rewrite !lookup_insert_ne by done. apply Hinv.
Qed.

Lemma scan_links_previous current visited ls : forall U D P U' D' P',
  foldM (scan_link current visited) ls (U, D, P) = Ok (U', D', P') ->
  (forall v, is_Some (P !! v) -> is_Some (D !! v)) ->
  forall v, is_Some (P' !! v) -> is_Some (D' !! v).
Proof.
  induction ls as [|l ls IH]; intros U D P U' D' P'; cbn [foldM].
  - by intros [= <- <- <-].
  - destruct (scan_link current visited (U, D, P) l) as [[[U1 D1] P1]|] eqn:E; [|done].
    cbn. intros Hrun Hinv. eapply IH; [exact Hrun|].
    by eapply scan_link_previous.
Qed.

Lemma search_loop_previous all_links fuel : forall U V D P D' P',
  search_loop fuel all_links U V D P = Ok (D', P') ->
  (forall v, is_Some (P !! v) -> is_Some (D !! v)) ->
  forall v, is_Some (P' !! v) -> is_Some (D' !! v).
Proof.
  induction fuel as [|fuel IH]; intros [|current U] V D P D' P'; cbn [search_loop];
    try by intros [= <- <-].
  destruct (foldM _ _ _) as [[[U1 D1] P1]|] eqn:E; [|done]. cbn.
    intros Hrun Hinv. eapply IH; [exact Hrun|].
    by eapply scan_links_previous.
Qed.

Lemma filter_ext_elem {A} (P Q : A -> Prop) `{!forall x, Decision (P x)}
    `{!forall x, Decision (Q x)} (l : list A) :
  (forall x, x ∈ l -> P x <-> Q x) -> filter P l = filter Q l.
Proof.
  induction l as [|x l IH]; intros Hext; [done|]. rewrite !filter_cons.
  assert (Hx : P x <-> Q x) by (apply Hext; set_solver).
  rewrite IH by (intros y Hy; apply Hext; set_solver).
  destruct (decide (P x)), (decide (Q x)); tauto.
Qed.

Section Settled.

Variables (self : Network.t) (src dst0 : string).
Variables (D : gmap string nat) (P : gmap string string).
Hypothesis Hsettled : settled (links self) src D P.

(** A recorded distance is the length of a directed path from [src]. *)
Lemma settled_path d : forall v,
  D !! v = Some d ->
  exists p, Spec.directed_path (links self) src v p /\ length p = d.
Proof.
  destruct Hsettled as (_ & Htree & Hzero & _).
  induction d as [|d IH]; intros v Hv.
  - apply Hzero in Hv as ->. by exists [].
  - destruct (Htree v d Hv) as (u & _ & Hu & l & Hl & Hsrc & Hdst).
    destruct (IH u Hu) as (p & Hp & Hlen).
    exists (p ++ [l]). rewrite <- Hdst. split; [by apply (directed_path_snoc _ src u)|].
    rewrite length_app. simpl. lia.
Qed.

Lemma walk_back_distances d current route link :
  D !! current = Some (S d) -> Link.dst link = current ->
  (forall l, l ∈ route -> exists dl, D !! Link.dst l = Some dl /\ dl <= d) ->
  forall l, l ∈ route ++ [link] -> exists dl, D !! Link.dst l = Some dl /\ dl <= S d.
Proof.
  intros Hcur Hdst Hdist l Hl. apply elem_of_app in Hl as [Hl|Hl].
  - destruct (Hdist l Hl) as (dl & Hdl & Hle). exists dl. split; [done|lia].
  - apply list_elem_of_singleton in Hl as ->. exists (S d). rewrite Hdst. split; [done|lia].
Qed.

(** The walk back, on a list that may already hold links: the links
    appended are the links of the route, from [current] back to [src], whose
    ordered pair the list did not hold. *)
Lemma walk_back_extends d : forall current acc fuel,
  D !! current = Some d -> d <= fuel ->
  exists route extra,
    walk_back fuel self P src current (Path.init src dst0) acc
    = (Ok (Path.init src dst0), acc ++ extra)
    /\ length route = d
    /\ Spec.directed_path (links self) src current route
    /\ length extra <= d
    /\ (forall l, l ∈ route -> exists l', l' ∈ acc ++ extra /\ link_key l' = link_key l)
    /\ (forall l, l ∈ extra -> l ∈ route)
    /\ (forall l, l ∈ route -> exists dl, D !! Link.dst l = Some dl /\ dl <= d)
    /\ extra = filter (fun l => link_key l ∉ link_key <$> acc) (reverse route).
Proof.
  destruct Hsettled as (Hsrc & Htree & Hzero & _).
  induction d as [|d IH]; intros current acc fuel Hcur Hfuel.
  - apply Hzero in Hcur as ->. exists [], []. rewrite app_nil_r.
    split; [destruct fuel; simpl; by rewrite bool_decide_eq_true_2|].
    repeat split; try done; intros l Hl; by apply elem_of_nil in Hl.
  - destruct fuel as [|fuel]; [lia|].
    assert (Hne : current ≠ src) by (intros ->; congruence).
    destruct (Htree current d Hcur) as (u & Hp & Hu & He).
    destruct (getLink_edge self u current He) as (link & Hget & Hlink & Hlsrc & Hldst).
    cbn [walk_back]. rewrite (bool_decide_eq_false_2 _ Hne), Hp, Hget.
    unfold Path.addLinks. cbn [Path.links Path.init].
    destruct (add_cases acc link) as [[-> (l0 & Hl0 & Hk0)]|[-> Hnew]].
    + destruct (IH u acc fuel Hu)
        as (route & extra & Hrun & Hlen & Hpath & Hex & Hcov & Hsub & Hdist & Hfil); [lia|].
      exists (route ++ [link]), extra. rewrite Hrun. split; [done|].
      split; [rewrite length_app; simpl; lia|]. split.
      { rewrite <- Hldst. by apply (directed_path_snoc _ src u). }
      split; [lia|]. split; [|split; [|split]].
      * intros l Hl. apply elem_of_app in Hl as [Hl|Hl]; [by apply Hcov|].
        apply list_elem_of_singleton in Hl as ->. exists l0. split; [set_solver|done].
      * intros l Hl. apply elem_of_app. left. by apply Hsub.
      * by apply (walk_back_distances d current).
      * rewrite reverse_snoc, filter_cons_False; [done|].
        intros Hn. apply Hn. apply list_elem_of_fmap. by exists l0.
    + destruct (IH u (acc ++ [link]) fuel Hu)
        as (route & extra & Hrun & Hlen & Hpath & Hex & Hcov & Hsub & Hdist & Hfil); [lia|].
      exists (route ++ [link]), (link :: extra). rewrite Hrun, <- app_assoc.
      split; [done|]. split; [rewrite length_app; simpl; lia|]. split.
      { rewrite <- Hldst. by apply (directed_path_snoc _ src u). }
      split; [simpl; lia|]. split; [|split; [|split]].
      * intros l Hl. apply elem_of_app in Hl as [Hl|Hl].
        -- destruct (Hcov l Hl) as (l' & Hl' & Hk). exists l'. split; [|done].
           by rewrite <- app_assoc in Hl'.
        -- apply list_elem_of_singleton in Hl as ->. exists link. split; [set_solver|done].
      * intros l Hl. apply elem_of_cons in Hl as [->|Hl]; [set_solver|].
        apply elem_of_app. left. by apply Hsub.
      * by apply (walk_back_distances d current).
      * rewrite reverse_snoc, filter_cons_True by done. f_equal. rewrite Hfil.
        apply filter_ext_elem. intros l Hl. rewrite elem_of_reverse in Hl.
        rewrite fmap_app, elem_of_app. cbn [fmap list_fmap].
        rewrite list_elem_of_singleton. split; [tauto|].
        intros Hn [Hin|Hk]; [done|].
        destruct (Hdist l Hl) as (dl & Hdl & Hle).
        assert (E : Link.dst l = Link.dst link) by (unfold link_key in Hk; congruence).
        rewrite E, Hldst in Hdl. assert (S d = dl) by congruence. lia.
Qed.

End Settled.

(** The walk back of a path built by [Path(src, dst)]: the path object is
    returned as it is, and the default list is only appended to, whatever
    the outcome. *)
Lemma walk_back_appends self P src s d fuel : forall current acc r acc',
  walk_back fuel self P src current (Path.init s d) acc = (r, acc') ->
  (exists extra, acc' = acc ++ extra) /\ (forall p, r = Ok p -> p = Path.init s d).
Proof.
  induction fuel as [|fuel IH]; intros current acc r acc'; simpl.
  - case_bool_decide; intros [= <- <-]; (split; [exists []; by rewrite app_nil_r|]).
    + by intros p [= <-].
    + done.
  - case_bool_decide.
    { intros [= <- <-]. split; [exists []; by rewrite app_nil_r|]. by intros p [= <-]. }
    destruct (P !! current) as [u|].
    2:{ intros [= <- <-]. split; [exists []; by rewrite app_nil_r|done]. }
    destruct (getLink self u current) as [link|].
    2:{ intros [= <- <-]. split; [exists []; by rewrite app_nil_r|done]. }
    unfold Path.addLinks. cbn [Path.links Path.init].
    intros Hrun. apply IH in Hrun as [[extra ->] Hp]. split; [|done].
    destruct (add_cases acc link) as [[-> _]|[-> _]].
    + by exists extra.
    + exists (link :: extra). by rewrite <- app_assoc.
Qed.

(** The two outcomes of a call with enough budget. *)
Lemma calculateShortestPath_outcome fuel src dst self default :
  length (links self) < fuel ->
  (exists path, lookupPath self src dst = Some path
     /\ calculateShortestPath fuel src dst self default = (Ok path, (self, default)))
  \/ (lookupPath self src dst = None
      /\ exists D P, settled (links self) src D P
         /\ ((D !! dst = None
              /\ calculateShortestPath fuel src dst self default
                 = (Raise KeyError, (self, default)))
             \/ (exists route extra,
                   calculateShortestPath fuel src dst self default
                   = (Ok (Path.init src dst),
                      (addPath self (Path.init src dst), default ++ extra))
                   /\ D !! dst = Some (length route)
                   /\ Spec.directed_path (links self) src dst route
                   /\ length extra <= length route
                   /\ (forall l, l ∈ route ->
                         exists l', l' ∈ default ++ extra /\ link_key l' = link_key l)
                   /\ (forall l, l ∈ extra -> l ∈ route)
                   /\ extra = filter (fun l => link_key l ∉ link_key <$> default)
                                     (reverse route)))).
Proof.
  intros Hfuel. unfold calculateShortestPath.
  destruct (lookupPath self src dst) as [path|] eqn:Hlookup; [left; by exists path|].
  right. split; [done|].
  destruct (search_from_src (links self) src fuel Hfuel) as (D & P & Hsearch & Hset).
  exists D, P. split; [done|]. rewrite Hsearch.
  destruct (D !! dst) as [d|] eqn:Hd.
  - right. pose proof (settled_depth _ _ _ _ Hset dst d Hd) as Hdepth.
    destruct (walk_back_extends self src dst D P Hset d dst default fuel Hd)
      as (route & extra & Hwalk & Hlen & Hpath & Hex & Hcov & Hsub & _ & Hfil); [lia|].
    exists route, extra. rewrite Hwalk, Hlen. done.
  - left. split; [done|].
    assert (HP : P !! dst = None).
    { apply eq_None_not_Some. intros HS.
      eapply (search_loop_previous _ _ _ _ _ _ _ _ Hsearch) in HS.
      - rewrite Hd in HS. by destruct HS.
      - intros v Hv. rewrite lookup_empty in Hv. by destruct Hv. }
    assert (Hne : dst ≠ src).
    { intros ->. destruct Hset as (Hsrc & _). congruence. }
    destruct fuel as [|fuel]; [lia|].
    cbn [walk_back]. by rewrite (bool_decide_eq_false_2 _ Hne), HP.
Qed.

(** X11.  A destination that cannot be reached over the registered links,
    and for which no path is cached: [calculateShortestPath] raises
    [KeyError] (at [previous[current]], in the first round of the walk
    back), caches nothing and leaves the default list of [Path.__init__] as
    it was. *)
Theorem no_route_raises_KeyError (fuel : nat) (src dst : string) (self : Network.t)
    (default : list Link.t) :
  lookupPath self src dst = None ->
  ~ Spec.reachable (links self) src dst ->
  length (links self) < fuel ->
  calculateShortestPath fuel src dst self default = (Raise KeyError, (self, default)).
Proof.
  intros Hlookup Hno Hfuel.
  destruct (calculateShortestPath_outcome fuel src dst self default Hfuel)
    as [(path & Hsome & _)|(_ & D & P & Hset & [[_ Hrun]|Hok])]; [congruence|done|].
  destruct Hok as (route & _ & _ & _ & Hpath & _). destruct Hno. by exists route.
Qed.

Lemma no_route_raises_KeyError_witness :
  calculateShortestPath 3 "c" "a" detour_net [] = (Raise KeyError, (detour_net, [])).
Proof.
  apply (no_route_raises_KeyError 3 "c" "a" detour_net []).
  - reflexivity.
  - intros [[|l p] Hp]; simpl in Hp; [discriminate Hp|].
    destruct Hp as (Hin & Hsrc & _). vm_compute in Hin.
    apply elem_of_cons in Hin as [->|Hin]; [discriminate Hsrc|].
    apply elem_of_cons in Hin as [->|Hin]; [discriminate Hsrc|].
    by apply elem_of_nil in Hin.
  - vm_compute. lia.
Defined.

End RouteProperties.

Section CacheProperties.

Import Network Search Registry Examples Cache.

Local Open Scope nat_scope.

Lemma extends_refl n : extends n n.
Proof. by repeat split. Qed.

Lemma extends_trans n1 n2 n3 : extends n1 n2 -> extends n2 n3 -> extends n1 n3.
Proof.
  intros (A1 & A2 & A3 & A4 & A5 & A6) (B1 & B2 & B3 & B4 & B5 & B6).
  repeat split; try congruence. intros s d p H. by apply B6, A6.
Qed.

Lemma extends_addPath n path : extends n (addPath n path).
Proof.
  unfold addPath. destruct (lookupPath n _ _) eqn:E; [apply extends_refl|].
  repeat split; try done. intros s d p H. unfold lookupPath in *. cbn [paths].
  by rewrite find_snoc, H.
Qed.

(** One call, whatever the budget. *)
Lemma calculateShortestPath_frame fuel src dst self default r self' default' :
  calculateShortestPath fuel src dst self default = (r, (self', default')) ->
  extends self self'
  /\ (exists extra, default' = default ++ extra)
  /\ (forall s d, (s, d) <> (src, dst) -> lookupPath self' s d = lookupPath self s d)
  /\ (forall e, r = Raise e -> self' = self)
  /\ (forall path, r = Ok path ->
        lookupPath self' src dst = Some path
        /\ Path.src path = src /\ Path.dst path = dst
        /\ (paths self' = paths self
            \/ lookupPath self src dst = None /\ paths self' = paths self ++ [path])).
Proof.
  unfold calculateShortestPath.
  destruct (lookupPath self src dst) as [path|] eqn:Hlookup.
  - intros [= <- <- <-]. split; [apply extends_refl|].
    split; [exists []; by rewrite app_nil_r|]. split; [done|]. split; [done|].
    intros p [= <-]. split; [done|]. unfold lookupPath in Hlookup.
    apply find_some in Hlookup as [_ Hf]. apply andb_true_iff in Hf as [H1 H2].
    apply bool_decide_eq_true in H1, H2. split; [done|]. split; [done|]. by left.
  - destruct (search_loop _ _ _ _ _ _) as [[D P]|e].
    2:{ intros [= <- <- <-]. split; [apply extends_refl|].
        split; [exists []; by rewrite app_nil_r|]. done. }
    destruct (walk_back _ _ _ _ _ _ _) as [[path|e] d'] eqn:Hwalk;
      apply walk_back_appends in Hwalk as [Hext Hp].
    + rewrite (Hp path eq_refl). intros [= <- <- <-].
      split; [apply extends_addPath|]. split; [done|].
      destruct (lookupPath_addPath self (Path.init src dst)) as [H1 H2].
      cbn [Path.init Path.src Path.dst] in H1, H2. rewrite Hlookup in H1.
      split; [exact H2|]. split; [done|].
      intros p [= <-]. split; [exact H1|]. split; [done|]. split; [done|].
      right. split; [done|]. unfold addPath. cbn [Path.init Path.src Path.dst].
      by rewrite Hlookup.
    + intros [= <- <- <-]. split; [apply extends_refl|]. done.
Qed.

(** X12.  When no path is cached and [dst] can be reached, the call
    succeeds whatever the default list of [Path.__init__] holds: the path
    returned is the [Path(src, dst)] built on that shared list, so its links
    are all the links that earlier calls left there, followed by those links
    of a shortest route from [src] to [dst] whose ordered pair was not in
    the list yet.  The appended links are exactly these: the links of the
    route, read from [dst] back to [src], without those whose ordered pair
    the list already held; a link of the route whose pair was there is not
    appended, and the older link stays in its place. *)
Theorem shortest_path_joins_shared_list (fuel : nat) (src dst : string) (self : Network.t)
    (default : list Link.t) :
  lookupPath self src dst = None ->
  Spec.reachable (links self) src dst ->
  length (links self) < fuel ->
  exists route extra,
    let path := Path.init src dst in
    calculateShortestPath fuel src dst self default
    = (Ok path, (addPath self path, default ++ extra))
    /\ Path.contents (default ++ extra) path = default ++ extra
    /\ Spec.directed_path (links self) src dst route
    /\ (forall p, Spec.directed_path (links self) src dst p -> length route <= length p)
    /\ (forall l, l ∈ route ->
          exists l', l' ∈ default ++ extra /\ link_key l' = link_key l)
    /\ (forall l, l ∈ extra -> l ∈ route)
    /\ length extra <= length route
    /\ extra = filter (fun l => link_key l ∉ link_key <$> default) (reverse route)
    /\ (forall l, l ∈ extra -> link_key l ∉ link_key <$> default)
    /\ (forall l, l ∈ route -> link_key l ∉ link_key <$> default -> l ∈ extra).
Proof.
  intros Hlookup [p0 Hp0] Hfuel.
  destruct (calculateShortestPath_outcome fuel src dst self default Hfuel)
    as [(path & Hsome & _)|(_ & D & P & Hset & [[Hnone _]|Hok])]; [congruence| |].
  - pose proof Hset as (Hsrc & _).
    destruct (settled_lower _ _ _ _ Hset p0 src dst 0 Hp0 Hsrc) as (d & Hd & _).
    congruence.
  - destruct Hok as (route & extra & Hrun & Hd & Hpath & Hlen & Hcov & Hsub & Hfil).
    exists route, extra. cbn zeta. split; [done|]. split; [done|]. split; [done|].
    split; [|split; [done|]; split; [done|]; split; [done|]; split; [done|]; split].
    + intros p Hp. pose proof Hset as (Hsrc & _).
      destruct (settled_lower _ _ _ _ Hset p src dst 0 Hp Hsrc) as (d' & Hd' & Hle).
      assert (d' = length route) by congruence. lia.
    + intros l Hl. rewrite Hfil in Hl. by apply list_elem_of_filter in Hl as [? _].
    + intros l Hl Hn. rewrite Hfil. apply list_elem_of_filter. split; [done|].
      by rewrite elem_of_reverse.
Qed.

(** A stale link for the pair [(b, c)] in the shared list: the route's
    link is not appended, and the path is left with the stale one. *)
Lemma shortest_path_joins_shared_list_witness :
  calculateShortestPath 3 "b" "c" detour_net [Link.mk "b" "c" 1 0 0]
  = (Ok (Path.init "b" "c"),
     (addPath detour_net (Path.init "b" "c"), [Link.mk "b" "c" 1 0 0])).
Proof.
  destruct (shortest_path_joins_shared_list 3 "b" "c" detour_net [Link.mk "b" "c" 1 0 0])
    as (route & extra & Hrun & _ & Hpath & Hmin & _ & _ & _ & Hfil & _).
  - reflexivity.
  - exists [Link.mk "b" "c" 100000000 0 0]. vm_compute. repeat split; repeat constructor.
  - vm_compute. lia.
  - assert (Hlen : length route <= 1).
    { apply (Hmin [Link.mk "b" "c" 100000000 0 0]).
      vm_compute. repeat split; repeat constructor. }
    destruct route as [|l [|l' route]];
      [simpl in Hpath; discriminate Hpath| |simpl in Hlen; lia].
    simpl in Hpath. destruct Hpath as (_ & Hs & Hd).
    assert (Hex : extra = []).
    { rewrite Hfil. change (reverse [l]) with [l].
      rewrite filter_cons_False; [reflexivity|]. intros Hn. apply Hn.
      unfold link_key. rewrite Hs, Hd. apply list_elem_of_singleton. reflexivity. }
    rewrite Hex in Hrun. exact Hrun.
Defined.

(** X13.  A path that [calculateShortestPath] has returned is the cached
    path of its pair: it has the endpoints asked for, [lookupPath] finds it
    in the network the call leaves, and every later call for the pair
    returns this same path without changing the network or the default
    list, also after another link has been registered. *)
Theorem returned_path_is_cached (fuel : nat) (src dst : string) (self self' : Network.t)
    (default default' : list Link.t) (path : Path.t) :
  calculateShortestPath fuel src dst self default = (Ok path, (self', default')) ->
  lookupPath self' src dst = Some path
  /\ Path.src path = src /\ Path.dst path = dst
  /\ (forall fuel2 default2,
        calculateShortestPath fuel2 src dst self' default2 = (Ok path, (self', default2)))
  /\ (forall fuel2 default2 src2 dst2 rate delay idleSlope,
        calculateShortestPath fuel2 src dst (addLink self' src2 dst2 rate delay idleSlope)
                              default2
        = (Ok path, (addLink self' src2 dst2 rate delay idleSlope, default2))).
Proof.
  intros Hrun. apply calculateShortestPath_frame in Hrun as (_ & _ & _ & _ & Hok).
  destruct (Hok path eq_refl) as (Hl & Hs & Hd & _).
  split; [done|]. split; [done|]. split; [done|]. split.
  - intros fuel2 default2. unfold calculateShortestPath. by rewrite Hl.
  - intros fuel2 default2 src2 dst2 rate delay idleSlope. unfold calculateShortestPath.
    assert (E : lookupPath (addLink self' src2 dst2 rate delay idleSlope) src dst
                = Some path).
    { unfold addLink. by destruct (getLink self' src2 dst2). }
    by rewrite E.
Qed.

Lemma returned_path_is_cached_witness :
  lookupPath (fst line_routed) "N0" "N1" = Some (Path.init "N0" "N1")
  /\ calculateShortestPath 0 "N0" "N1" (fst line_routed) []
     = (Ok (Path.init "N0" "N1"), (fst line_routed, [])).
Proof.
  destruct (returned_path_is_cached 9 "N0" "N1" line_net (fst line_routed) []
              (snd line_routed) (Path.init "N0" "N1")) as (H1 & _ & _ & H2 & _).
  - vm_compute. reflexivity.
  - split; [exact H1|apply H2].
Defined.

(** X14.  Whatever its outcome, [calculateShortestPath] touches nothing
    but the path cache and the default list of [Path.__init__]: bridges,
    nodes, links, flows and the IFG are as before, every path that was
    cached is still found, no pair other than [(src, dst)] gains a path, the
    default list is only appended to, and a call that raises leaves the
    network as it was. *)
Theorem calculateShortestPath_touches_only_the_cache (fuel : nat) (src dst : string)
    (self : Network.t) (default : list Link.t) :
  let out := calculateShortestPath fuel src dst self default in
  let self' := fst (snd out) in
  let default' := snd (snd out) in
  bridges self' = bridges self /\ nodes self' = nodes self /\ links self' = links self
  /\ flows self' = flows self /\ IFG self' = IFG self
  /\ (forall s d path, lookupPath self s d = Some path -> lookupPath self' s d = Some path)
  /\ (forall s d, (s, d) <> (src, dst) -> lookupPath self' s d = lookupPath self s d)
  /\ (exists extra, default' = default ++ extra)
  /\ (forall e, fst out = Raise e -> self' = self)
  /\ (forall path, fst out = Ok path ->
        paths self' = paths self
        \/ lookupPath self src dst = None /\ paths self' = paths self ++ [path]).
Proof.
  intros out self' default'.
  destruct (calculateShortestPath_frame fuel src dst self default (fst out) self' default')
    as ((H1 & H2 & H3 & H4 & H5 & H6) & Hext & Hother & Hraise & Hok).
  { unfold self', default', out. by destruct (calculateShortestPath _ _ _ _ _) as [? [? ?]]. }
  repeat (split; [done|]). intros path Hp. by apply Hok.
Qed.

End CacheProperties.

Section AllPaths.

Import Network Search Registry Examples Cache.

Local Open Scope nat_scope.

Lemma extends_None n n' s d : extends n n' -> lookupPath n' s d = None -> lookupPath n s d = None.
Proof.
  intros (_ & _ & _ & _ & _ & H) Hn. destruct (lookupPath n s d) as [p|] eqn:E; [|done].
  apply H in E. congruence.
Qed.

Lemma extends_links n n' : extends n n' -> links n' = links n.
Proof. by intros (_ & _ & H & _). Qed.

(** One call with enough budget. *)
Lemma calculateShortestPath_step fuel src dst self default :
  length (links self) < fuel ->
  exists r self' default',
    calculateShortestPath fuel src dst self default = (r, (self', default'))
    /\ extends self self'
    /\ (exists extra, default' = default ++ extra)
    /\ (forall s d, lookupPath self s d = None -> is_Some (lookupPath self' s d) ->
          (s, d) = (src, dst) /\ Spec.reachable (links self) src dst)
    /\ ((exists p, r = Ok p) /\ is_Some (lookupPath self' src dst)
        \/ r = Raise KeyError /\ lookupPath self src dst = None
           /\ ~ Spec.reachable (links self) src dst).
Proof.
  intros Hfuel.
  destruct (calculateShortestPath fuel src dst self default) as [r [self' default']] eqn:Hrun.
  exists r, self', default'. split; [done|].
  destruct (calculateShortestPath_frame _ _ _ _ _ _ _ _ Hrun)
    as (Hext & Happ & Hother & Hraise & Hok).
  split; [done|]. split; [done|].
  destruct (calculateShortestPath_outcome fuel src dst self default Hfuel)
    as [(path & Hsome & Hrun')|(Hnone & D & P & Hset & [[Hd Hrun']|Hrun'])].
  - rewrite Hrun in Hrun'. injection Hrun' as -> -> ->. split.
    + intros s d Hn Hs. rewrite Hn in Hs. by destruct Hs.
    + left. split; [by eexists|]. by rewrite Hsome.
  - rewrite Hrun in Hrun'. injection Hrun' as -> -> ->. split.
    + intros s d Hn Hs. rewrite Hn in Hs. by destruct Hs.
    + right. split; [done|]. split; [done|]. intros [p Hp].
      pose proof Hset as (Hsrc & _).
      destruct (settled_lower _ _ _ _ Hset p src dst 0 Hp Hsrc) as (d' & Hd' & _).
      congruence.
  - destruct Hrun' as (route & extra & Hrun' & _ & Hpath & _).
    rewrite Hrun in Hrun'. injection Hrun' as -> -> ->. split.
    + intros s d Hn Hs. destruct (decide ((s, d) = (src, dst))) as [[= -> ->]|Hne].
      * split; [done|]. by exists route.
      * rewrite Hother, Hn in Hs by done. by destruct Hs.
    + left. split; [by eexists|]. destruct (Hok _ eq_refl) as (Hl & _). by rewrite Hl.
Qed.

Lemma initialize_from_outcome fuel src dsts : forall self default,
  length (links self) < fuel ->
  exists r self' default',
    initialize_from fuel src dsts self default = (r, (self', default'))
    /\ extends self self'
    /\ (exists extra, default' = default ++ extra)
    /\ (forall s d, lookupPath self s d = None -> is_Some (lookupPath self' s d) ->
          s = src /\ d ∈ dsts /\ s ≠ d /\ Spec.reachable (links self) s d)
    /\ (r = Ok tt /\ (forall d, d ∈ dsts -> src ≠ d -> is_Some (lookupPath self' src d))
        \/ r = Raise KeyError
           /\ exists d, d ∈ dsts /\ src ≠ d /\ lookupPath self src d = None
                        /\ ~ Spec.reachable (links self) src d).
Proof.
  induction dsts as [|dst dsts IH]; intros self default Hfuel; cbn [initialize_from].
  - exists (Ok tt), self, default. split; [done|]. split; [apply extends_refl|].
    split; [exists []; by rewrite app_nil_r|]. split.
    + intros s d Hn Hs. rewrite Hn in Hs. by destruct Hs.
    + left. split; [done|]. intros d Hd. by apply elem_of_nil in Hd.
  - case_bool_decide as Hsd.
    + destruct (IH self default Hfuel) as (r & self' & default' & Hrun & Hext & Happ & Hnew & Hout).
      exists r, self', default'. split; [done|]. split; [done|]. split; [done|]. split.
      * intros s d Hn Hs. destruct (Hnew s d Hn Hs) as (? & ? & ? & ?).
        repeat split; try done. set_solver.
      * destruct Hout as [[-> Hall]|[-> (d & Hd & Hne & Hn & Hno)]].
        -- left. split; [done|]. intros d Hd Hne.
           apply elem_of_cons in Hd as [->|Hd]; [done|]. by apply Hall.
        -- right. split; [done|]. exists d. split; [set_solver|done].
    + destruct (calculateShortestPath_step fuel src dst self default Hfuel)
        as (r1 & self1 & default1 & Hrun1 & Hext1 & [extra1 ->] & Hnew1 & Hout1).
      rewrite Hrun1.
      destruct Hout1 as [[[p ->] Hc]|(-> & Hn & Hno)].
      * assert (Hfuel1 : length (links self1) < fuel) by by rewrite (extends_links _ _ Hext1).
        destruct (IH self1 (default ++ extra1) Hfuel1)
          as (r & self' & default' & Hrun & Hext & [extra ->] & Hnew & Hout).
        exists r, self', ((default ++ extra1) ++ extra). split; [done|].
        split; [by eapply extends_trans|].
        split; [exists (extra1 ++ extra); by rewrite app_assoc|]. split.
        -- intros s d Hn Hs. destruct (lookupPath self1 s d) as [p1|] eqn:E1.
           ++ destruct (Hnew1 s d Hn) as [[= -> ->] Hr]; [by rewrite E1|].
              repeat split; try done. set_solver.
           ++ destruct (Hnew s d E1 Hs) as (? & ? & ? & Hr).
              rewrite (extends_links _ _ Hext1) in Hr. repeat split; try done. set_solver.
        -- destruct Hout as [[-> Hall]|[-> (d & Hd & Hne & Hn & Hnr)]].
           ++ left. split; [done|]. intros d Hd Hne.
              apply elem_of_cons in Hd as [->|Hd]; [|by apply Hall].
              destruct Hc as [p1 Hp1]. destruct Hext as (_ & _ & _ & _ & _ & Hkeep).
              rewrite (Hkeep _ _ _ Hp1). by eexists.
           ++ right. split; [done|]. exists d. split; [set_solver|]. split; [done|].
              split; [by eapply extends_None|]. by rewrite <- (extends_links _ _ Hext1).
      * exists (Raise KeyError), self1, (default ++ extra1). split; [done|].
        split; [done|]. split; [by exists extra1|]. split.
        -- intros s d Hn' Hs. destruct (Hnew1 s d Hn' Hs) as [[= -> ->] Hr].
           by destruct Hno.
        -- right. split; [done|]. exists dst. split; [set_solver|done].
Qed.

Lemma initialize_all_outcome fuel all_nodes srcs : forall self default,
  length (links self) < fuel ->
  exists r self' default',
    initialize_all fuel srcs all_nodes self default = (r, (self', default'))
    /\ extends self self'
    /\ (exists extra, default' = default ++ extra)
    /\ (forall s d, lookupPath self s d = None -> is_Some (lookupPath self' s d) ->
          s ∈ srcs /\ d ∈ all_nodes /\ s ≠ d /\ Spec.reachable (links self) s d)
    /\ (r = Ok tt
        /\ (forall s d, s ∈ srcs -> d ∈ all_nodes -> s ≠ d -> is_Some (lookupPath self' s d))
        \/ r = Raise KeyError
           /\ exists s d, s ∈ srcs /\ d ∈ all_nodes /\ s ≠ d /\ lookupPath self s d = None
                          /\ ~ Spec.reachable (links self) s d).
Proof.
  induction srcs as [|src srcs IH]; intros self default Hfuel; cbn [initialize_all].
  - exists (Ok tt), self, default. split; [done|]. split; [apply extends_refl|].
    split; [exists []; by rewrite app_nil_r|]. split.
    + intros s d Hn Hs. rewrite Hn in Hs. by destruct Hs.
    + left. split; [done|]. intros s d Hs. by apply elem_of_nil in Hs.
  - destruct (initialize_from_outcome fuel src all_nodes self default Hfuel)
      as (r1 & self1 & default1 & Hrun1 & Hext1 & [extra1 ->] & Hnew1 & Hout1).
    rewrite Hrun1.
    destruct Hout1 as [[-> Hall1]|(-> & d1 & Hd1 & Hne1 & Hn1 & Hno1)].
    + assert (Hfuel1 : length (links self1) < fuel) by by rewrite (extends_links _ _ Hext1).
      destruct (IH self1 (default ++ extra1) Hfuel1)
        as (r & self' & default' & Hrun & Hext & [extra ->] & Hnew & Hout).
      exists r, self', ((default ++ extra1) ++ extra). split; [done|].
      split; [by eapply extends_trans|].
      split; [exists (extra1 ++ extra); by rewrite app_assoc|]. split.
      * intros s d Hn Hs. destruct (lookupPath self1 s d) as [p1|] eqn:E1.
        -- destruct (Hnew1 s d Hn) as (-> & ? & ? & ?); [by rewrite E1|].
           repeat split; try done. set_solver.
        -- destruct (Hnew s d E1 Hs) as (? & ? & ? & Hr).
           rewrite (extends_links _ _ Hext1) in Hr. repeat split; try done. set_solver.
      * destruct Hout as [[-> Hall]|[-> (s & d & Hs & Hd & Hne & Hn & Hnr)]].
        -- left. split; [done|]. intros s d Hs Hd Hne.
           apply elem_of_cons in Hs as [->|Hs]; [|by apply Hall].
           destruct (Hall1 d Hd Hne) as [p1 Hp1].
           destruct Hext as (_ & _ & _ & _ & _ & Hkeep).
           rewrite (Hkeep _ _ _ Hp1). by eexists.
        -- right. split; [done|]. exists s, d. split; [set_solver|]. split; [done|].
           split; [done|]. split; [by eapply extends_None|].
           by rewrite <- (extends_links _ _ Hext1).
    + exists (Raise KeyError), self1, (default ++ extra1). split; [done|].
      split; [done|]. split; [by exists extra1|]. split.
      * intros s d Hn Hs. destruct (Hnew1 s d Hn Hs) as (-> & ? & ? & ?).
        repeat split; try done. set_solver.
      * right. split; [done|]. exists src, d1. split; [set_solver|done].
Qed.

(** X15.  [initializeAllPaths], given an iteration budget above the number
    of links: it returns, with a path cached for every ordered pair of
    different end nodes, exactly when every such pair has a cached path
    already or a destination that can be reached from the source; otherwise
    it stops with the [KeyError] of the first pair that has neither, and the
    paths cached up to that point stay.  Either way only the cache and the
    shared default list change, and a pair gains a path only if it is a pair
    of different end nodes joined by a directed path. *)
Theorem initializeAllPaths_outcome (fuel : nat) (self : Network.t) (default : list Link.t) :
  length (links self) < fuel ->
  let out := initializeAllPaths fuel self default in
  let self' := fst (snd out) in
  let routable :=
    forall s d, s ∈ nodes self -> d ∈ nodes self -> s ≠ d ->
      is_Some (lookupPath self s d) \/ Spec.reachable (links self) s d in
  extends self self'
  /\ (exists extra, snd (snd out) = default ++ extra)
  /\ (routable ->
      fst out = Ok tt
      /\ forall s d, s ∈ nodes self -> d ∈ nodes self -> s ≠ d ->
           is_Some (lookupPath self' s d))
  /\ (~ routable -> fst out = Raise KeyError)
  /\ (forall s d, lookupPath self s d = None -> is_Some (lookupPath self' s d) ->
        s ∈ nodes self /\ d ∈ nodes self /\ s ≠ d /\ Spec.reachable (links self) s d).
Proof.
  intros Hfuel out self' routable.
  destruct (initialize_all_outcome fuel (nodes self) (nodes self) self default Hfuel)
    as (r & self1 & default1 & Hrun & Hext & Happ & Hnew & Hout).
  assert (Eo : out = (r, (self1, default1))) by exact Hrun.
  unfold self'. rewrite Eo. cbn [fst snd].
  split; [done|]. split; [done|]. split; [|split; [|done]].
  - intros Hr. destruct Hout as [[-> Hall]|(-> & s & d & Hs & Hd & Hne & Hn & Hno)]; [done|].
    destruct (Hr s d Hs Hd Hne) as [Hc|Hc]; [|done]. rewrite Hn in Hc. by destruct Hc.
  - intros Hnr. destruct Hout as [[-> Hall]|(-> & _)]; [|done].
    destruct Hnr. intros s d Hs Hd Hne.
    destruct (lookupPath self s d) as [p|] eqn:E; [left; by eexists|].
    right. by apply (Hnew s d E), Hall.
Qed.

Lemma initializeAllPaths_outcome_witness :
  extends line_net (fst (snd (initializeAllPaths 9 line_net [])))
  /\ fst (initializeAllPaths 9 line_net []) = Ok tt.
Proof.
  destruct (initializeAllPaths_outcome 9 line_net []) as (H1 & _ & H2 & _).
  - vm_compute. lia.
  - split; [exact H1|]. apply H2. intros s d Hs Hd Hne. right.
    vm_compute in Hs, Hd.
    apply elem_of_cons in Hs as [->|Hs]; [|apply elem_of_cons in Hs as [->|Hs];
      [|by apply elem_of_nil in Hs]];
    (apply elem_of_cons in Hd as [->|Hd]; [|apply elem_of_cons in Hd as [->|Hd];
      [|by apply elem_of_nil in Hd]]); try done.
    + exists [ Link.mk "N0" "S1" 100000000 0 48832000; Link.mk "S1" "S2" 100000000 0 48832000;
               Link.mk "S2" "S3" 100000000 0 48832000; Link.mk "S3" "N1" 100000000 0 48832000 ].
      vm_compute. repeat split; repeat constructor.
    + exists [ Link.mk "N1" "S3" 100000000 0 48832000; Link.mk "S3" "S2" 100000000 0 48832000;
               Link.mk "S2" "S1" 100000000 0 48832000; Link.mk "S1" "N0" 100000000 0 48832000 ].
      vm_compute. repeat split; repeat constructor.
Defined.

End AllPaths.

(** ** Fan-in queries and idle slopes *)

Section QueryProperties.

Import Network Registry Examples Reservation.

Lemma input_link_test link l :
  bool_decide (Link.src l ≠ Link.dst link) && bool_decide (Link.dst l = Link.src link)
  = bool_decide (Link.src l ≠ Link.dst link ∧ Link.dst l = Link.src link).
Proof.
  destruct (decide (Link.src l ≠ Link.dst link ∧ Link.dst l = Link.src link)) as [[H1 H2]|Hn].
  - by rewrite !bool_decide_eq_true_2.
  - rewrite (bool_decide_eq_false_2 _ Hn). apply andb_false_iff.
    apply not_and_l in Hn as [Hn|Hn]; [left|right]; by apply bool_decide_eq_false.
Qed.

Lemma count_input_links link all_links : forall count,
  foldM (fun count l =>
           if bool_decide (Link.src l ≠ Link.dst link)
              && bool_decide (Link.dst l = Link.src link)
           then Ok (count + 1)%Z else Ok count) all_links count
  = Ok (count
        + Z.of_nat (length (filter (fun l => Link.src l ≠ Link.dst link
                                             ∧ Link.dst l = Link.src link) all_links)))%Z.
Proof.
  induction all_links as [|l ls IH]; intros count; cbn [foldM].
  - cbn. f_equal. lia.
  - rewrite filter_cons, input_link_test. case_bool_decide as Hc.
    + rewrite decide_True by done. cbn. rewrite IH. f_equal. lia.
    + rewrite decide_False by done. cbn. by rewrite IH.
Qed.

(** X16.  The fan-in count agrees with the fan-in list: for every link,
    [getNumInputLinks(link)] returns the length of
    [getInputIdleSlopes(link)], so [qStandardL3V1] and [qStandardL3V2] are
    run on the same number of input ports. *)
Theorem getNumInputLinks_is_length_of_getInputIdleSlopes (n : Network.t) (link : Link.t) :
  getNumInputLinks n link false = Ok (Z.of_nat (length (getInputIdleSlopes n link))).
Proof.
  unfold getNumInputLinks, getInputIdleSlopes. cbn [negb].
  rewrite (count_input_links link (links n) 0%Z). by rewrite length_map.
Qed.

Lemma count_input_links_with_flows n link all_links : forall count,
  foldM (fun count l =>
           if bool_decide (Link.src l ≠ Link.dst link)
              && bool_decide (Link.dst l = Link.src link)
           then b ← existsFlowOnLink n l; Ok (if b : bool then (count + 1)%Z else count)
           else Ok count) all_links count
  = match flows n, filter (fun l => Link.src l ≠ Link.dst link
                                    ∧ Link.dst l = Link.src link) all_links with
    | _ :: _, _ :: _ => Raise AttributeError
    | _, _ => Ok count
    end.
Proof.
  induction all_links as [|l ls IH]; intros count; cbn [foldM].
  - cbn. by destruct (flows n).
  - rewrite filter_cons, input_link_test. case_bool_decide as Hc.
    + rewrite decide_True by done.
      assert (Hex : existsFlowOnLink n l
                    = match flows n with [] => Ok false | _ :: _ => Raise AttributeError end)
        by done.
      rewrite Hex. destruct (flows n) eqn:E; [|done]. cbn. by rewrite IH.
    + rewrite decide_False by done. cbn. by rewrite IH.
Qed.

(** X17.  [getNumInputLinks(link, True)] never counts anything: with no
    registered flow or no input link it returns 0, and otherwise it raises
    [AttributeError], because [existsFlowOnLink] calls [self.findPath],
    which [Network] does not define. *)
Theorem getNumInputLinks_with_flows_only (n : Network.t) (link : Link.t) :
  getNumInputLinks n link true
  = match flows n, getInputIdleSlopes n link with
    | _ :: _, _ :: _ => Raise AttributeError
    | _, _ => Ok 0%Z
    end.
Proof.
  unfold getNumInputLinks, getInputIdleSlopes. cbn [negb].
  rewrite (count_input_links_with_flows n link (links n) 0%Z).
  destruct (flows n); [done|]. by destruct (filter _ _).
Qed.

Lemma findClassMaxFrame_fold fs : forall m,
  let r := fold_left (fun maxFrame flow =>
                        if Qlt_le_dec maxFrame (Flow.size flow) then Flow.size flow
                        else maxFrame) fs m in
  m <= r /\ Forall (fun flow => Flow.size flow <= r) fs
  /\ (r = m \/ exists flow, flow ∈ fs /\ r = Flow.size flow).
Proof.
  induction fs as [|f fs IH]; intros m; cbn [fold_left].
  - split; [apply Qle_refl|]. split; [constructor|by left].
  - cbn zeta. destruct (Qlt_le_dec m (Flow.size f)) as [Hlt|Hle].
    + destruct (IH (Flow.size f)) as (H1 & H2 & H3). cbn zeta in H1, H2, H3.
      split; [lra|]. split; [by constructor|]. right.
      destruct H3 as [->|(flow & Hin & ->)].
      * exists f. split; [set_solver|done].
      * exists flow. split; [set_solver|done].
    + destruct (IH m) as (H1 & H2 & H3). cbn zeta in H1, H2, H3.
      split; [done|]. split; [constructor; [lra|done]|].
      destruct H3 as [->|(flow & Hin & ->)]; [by left|].
      right. exists flow. split; [set_solver|done].
Qed.

(** X18.  [findClassMaxFrame] returns the largest frame size among the
    registered flows, and never less than 0: the value is an upper bound of
    every flow's size, and it is 0 or the size of a registered flow. *)
Theorem findClassMaxFrame_is_maximum (n : Network.t) :
  0 <= findClassMaxFrame n
  /\ Forall (fun flow => Flow.size flow <= findClassMaxFrame n) (flows n)
  /\ (findClassMaxFrame n = 0
      \/ exists flow, flow ∈ flows n /\ findClassMaxFrame n = Flow.size flow).
Proof. apply (findClassMaxFrame_fold (flows n) 0). Qed.

Lemma setLinkIdleSlope_in_spec ls src dst idleSlope :
  find (fun l => Link.isLinkFor l src dst false) (setLinkIdleSlope_in ls src dst idleSlope)
  = (fun l => with_idleSlope l idleSlope) <$> find (fun l => Link.isLinkFor l src dst false) ls
  /\ (forall s d, (s, d) <> (src, dst) ->
        find (fun l => Link.isLinkFor l s d false) (setLinkIdleSlope_in ls src dst idleSlope)
        = find (fun l => Link.isLinkFor l s d false) ls)
  /\ Forall2 (fun l l' => l' = l \/ l' = with_idleSlope l idleSlope /\ link_key l = (src, dst))
             ls (setLinkIdleSlope_in ls src dst idleSlope).
Proof.
  induction ls as [|l ls (IH1 & IH2 & IH3)]; cbn [setLinkIdleSlope_in find].
  - split; [done|]. split; [done|constructor].
  - destruct (Link.isLinkFor l src dst false) eqn:E.
    + assert (Hk : link_key l = (src, dst)) by by apply isLinkFor_key.
      cbn [find].
      assert (E' : Link.isLinkFor (with_idleSlope l idleSlope) src dst false = true)
        by by apply isLinkFor_key.
      rewrite E'. split; [done|]. split.
      * intros s d Hne.
        rewrite (isLinkFor_other (with_idleSlope l idleSlope) src dst s d) by done.
        by rewrite (isLinkFor_other l src dst s d).
      * constructor; [by right|]. apply Forall2_same_length_lookup_2; [done|].
        intros i x y Hx Hy. left. congruence.
    + cbn [find]. rewrite E. split; [done|]. split.
      * intros s d Hne. destruct (Link.isLinkFor l s d false); [done|]. by apply IH2.
      * constructor; [by left|done].
Qed.

Lemma setLinkIdleSlope_in_None ls src dst idleSlope :
  find (fun l => Link.isLinkFor l src dst false) ls = None ->
  setLinkIdleSlope_in ls src dst idleSlope = ls.
Proof.
  induction ls as [|l ls IH]; cbn [setLinkIdleSlope_in find]; [done|].
  destruct (Link.isLinkFor l src dst false); [done|]. intros H. by rewrite IH.
Qed.

(** X19.  [setLinkIdleSlope(src, dst, s)] assigns the idle slope of the one
    link that [getLink(src, dst)] finds and of no other: afterwards
    [getLink(src, dst)] finds that link with idle slope [s], every other
    lookup finds what it found before, every link keeps its place, its
    endpoints, rate and delay, and nothing at all changes when no link is
    registered for the pair. *)
Theorem setLinkIdleSlope_assigns_the_found_link (n : Network.t) (src dst : string)
    (idleSlope : Q) :
  let n' := Network.mk (bridges n) (nodes n) (setLinkIdleSlope n src dst idleSlope)
                       (flows n) (paths n) (IFG n) in
  getLink n' src dst = (fun l => with_idleSlope l idleSlope) <$> getLink n src dst
  /\ (forall s d, (s, d) <> (src, dst) -> getLink n' s d = getLink n s d)
  /\ Forall2 (fun l l' => l' = l \/ l' = with_idleSlope l idleSlope /\ link_key l = (src, dst))
             (links n) (links n')
  /\ (getLink n src dst = None -> links n' = links n).
Proof.
  intros n'. destruct (setLinkIdleSlope_in_spec (links n) src dst idleSlope) as (H1 & H2 & H3).
  split; [exact H1|]. split; [exact H2|]. split; [exact H3|].
  intros Hnone. by apply setLinkIdleSlope_in_None.
Qed.

End QueryProperties.

Section IdleSlopeProperties.

Import Network Registry Examples Reservation.

Variables (n : Network.t) (default : list Link.t) (cmi : Q).
Hypothesis Hcmi : ~ cmi == 0.

Lemma flow_share_step link flow a l :
  flow_share n cmi link flow a l
  = Ok (if decide (link_key l = link_key link) then a + bandwidth n cmi flow else a).
Proof.
  unfold flow_share. destruct (decide (link_key l = link_key link)) as [Hk|Hk].
  - assert (E : Link.isLinkFor l (Link.src link) (Link.dst link) false = true)
      by by apply isLinkFor_key.
    by rewrite E, (pydiv_ok _ _ Hcmi).
  - assert (E : Link.isLinkFor l (Link.src link) (Link.dst link) false = false).
    { destruct (Link.isLinkFor _ _ _ _) eqn:E; [|done]. by apply isLinkFor_key in E. }
    by rewrite E.
Qed.

Lemma flow_share_sum link flow ls : forall a,
  exists v,
    foldM (flow_share n cmi link flow) ls a = Ok v
    /\ v == a + inject_Z (Z.of_nat (length (filter (fun l => link_key l = link_key link) ls)))
                * bandwidth n cmi flow.
Proof.
  induction ls as [|l ls IH]; intros a; cbn [foldM].
  - exists a. split; [done|]. cbn. ring.
  - rewrite filter_cons, flow_share_step, bind_Ok.
    destruct (decide (link_key l = link_key link)) as [Hk|Hk].
    + destruct (IH (a + bandwidth n cmi flow)) as (v & -> & Hv).
      exists v. split; [done|]. rewrite Hv. cbn [length]. rewrite inject_Z_S. ring.
    + apply IH.
Qed.

Lemma link_idleSlope_sum link fs : forall a,
  Forall (fun flow => is_Some (lookupPath n (Flow.src flow) (Flow.dst flow))) fs ->
  exists v,
    foldM (fun idleSlope flow =>
             match lookupPath n (Flow.src flow) (Flow.dst flow) with
             | None => Raise AttributeError
             | Some path =>
                 foldM (flow_share n cmi link flow) (Path.contents default path) idleSlope
             end) fs a = Ok v
    /\ v == a + Spec.Qsum (map (fun flow => inject_Z (Z.of_nat (uses n default link flow))
                                            * bandwidth n cmi flow) fs).
Proof.
  induction fs as [|f fs IH]; intros a Hall; cbn [foldM].
  - exists a. split; [done|]. cbn. ring.
  - apply Forall_cons in Hall as [[path Hp] Hall]. rewrite Hp.
    destruct (flow_share_sum link f (Path.contents default path) a) as (v1 & -> & Hv1).
    rewrite bind_Ok. destruct (IH v1 Hall) as (v & -> & Hv).
    exists v. split; [done|]. rewrite Hv, Hv1. cbn [map Spec.Qsum foldr].
    unfold uses at 2. rewrite Hp. unfold Spec.Qsum. ring.
Qed.

Lemma link_idleSlope_raise link fs : forall a,
  Exists (fun flow => lookupPath n (Flow.src flow) (Flow.dst flow) = None) fs ->
  foldM (fun idleSlope flow =>
           match lookupPath n (Flow.src flow) (Flow.dst flow) with
           | None => Raise AttributeError
           | Some path =>
               foldM (flow_share n cmi link flow) (Path.contents default path) idleSlope
           end) fs a = Raise AttributeError.
Proof.
  induction fs as [|f fs IH]; intros a Hex; [by apply Exists_nil in Hex|]. cbn [foldM].
  destruct (lookupPath n (Flow.src f) (Flow.dst f)) as [path|] eqn:Hp; [|done].
  destruct (flow_share_sum link f (Path.contents default path) a) as (v1 & -> & _).
  rewrite bind_Ok. apply IH. apply Exists_cons in Hex as [Hex|Hex]; [congruence|done].
Qed.

Lemma idleSlopes_loop_ok todo :
  Forall (fun flow => is_Some (lookupPath n (Flow.src flow) (Flow.dst flow))) (flows n) ->
  exists links' warned,
    idleSlopes_loop n default cmi todo = (Ok tt, (links', warned))
    /\ Forall2 (fun l l' => l' = with_idleSlope l (Link.idleSlope l')
                            /\ Link.idleSlope l' == reserved n default cmi l) todo links'
    /\ (forall l, l ∈ warned <-> l ∈ todo /\ Link.rate l < reserved n default cmi l).
Proof.
  intros Hall. induction todo as [|link rest (links' & warned & IH & Hl & Hw)];
    cbn [idleSlopes_loop].
  - exists [], []. split; [done|]. split; [constructor|]. intros l. set_solver.
  - unfold link_idleSlope.
    destruct (link_idleSlope_sum link (flows n) 0 Hall) as (v & -> & Hv).
    rewrite IH. eexists _, _. split; [done|].
    assert (Hv' : v == reserved n default cmi link) by (rewrite Hv; unfold reserved; ring).
    split; [by constructor|].
    intros l. rewrite elem_of_app, elem_of_cons, Hw.
    destruct (Qlt_le_dec (Link.rate link) v) as [Hlt|Hle].
    + rewrite list_elem_of_singleton. split.
      * intros [->|[? ?]]; [|by auto]. split; [by left|]. by rewrite <- Hv'.
      * intros [[->|?] ?]; auto.
    + split.
      * intros [H|[? ?]]; [by apply elem_of_nil in H|by auto].
      * intros [[->|?] ?]; [|by auto]. rewrite <- Hv' in *. lra.
Qed.

Lemma idleSlopes_loop_raise link rest :
  Exists (fun flow => lookupPath n (Flow.src flow) (Flow.dst flow) = None) (flows n) ->
  idleSlopes_loop n default cmi (link :: rest) = (Raise AttributeError, (link :: rest, [])).
Proof.
  intros Hex. cbn [idleSlopes_loop]. unfold link_idleSlope.
  by rewrite (link_idleSlope_raise link (flows n) 0 Hex).
Qed.

End IdleSlopeProperties.

Section IdleSlopeDerivation.

Import Network Registry Examples Reservation.

(** X20.  [calculateLinkIdleSlopesFromFlows(cmi)] for a non-zero [cmi].
    When every registered flow has a cached path, the call returns and
    every link, in its place and with its endpoints, rate and delay, has as
    idle slope the sum of [(size * 8 + IFG) / cmi] over the flows whose path
    holds a link for its ordered pair; the warning is printed for exactly
    the links whose rate is below that sum.  When some flow has no cached
    path and the network has a link, the call raises [AttributeError] (at
    [path.links] with [path = None]) before any idle slope is assigned. *)
Theorem calculateLinkIdleSlopesFromFlows_outcome (n : Network.t) (default : list Link.t)
    (cmi : Q) :
  ~ cmi == 0 ->
  let out := calculateLinkIdleSlopesFromFlows n default cmi in
  let routed flow := is_Some (lookupPath n (Flow.src flow) (Flow.dst flow)) in
  (Forall routed (flows n) ->
     fst out = Ok tt
     /\ Forall2 (fun l l' => l' = with_idleSlope l (Link.idleSlope l')
                             /\ Link.idleSlope l' == reserved n default cmi l)
                (links n) (fst (snd out))
     /\ forall l, l ∈ snd (snd out) <-> l ∈ links n /\ Link.rate l < reserved n default cmi l)
  /\ (~ Forall routed (flows n) -> links n <> [] ->
      out = (Raise AttributeError, (links n, []))).
Proof.
  intros Hcmi out routed. split.
  - intros Hall.
    destruct (idleSlopes_loop_ok n default cmi Hcmi (links n) Hall)
      as (links' & warned & Hrun & Hl & Hw).
    unfold out, calculateLinkIdleSlopesFromFlows. by rewrite Hrun.
  - intros Hnot Hne. unfold out, calculateLinkIdleSlopesFromFlows.
    destruct (links n) as [|link rest]; [done|].
    apply idleSlopes_loop_raise; [done|].
    apply not_Forall_Exists in Hnot; [|intros f; unfold routed; apply _].
    eapply Exists_impl; [exact Hnot|]. intros f Hf. cbn in Hf.
    by apply eq_None_not_Some.
Qed.

Lemma calculateLinkIdleSlopesFromFlows_outcome_witness :
  fst (calculateLinkIdleSlopesFromFlows (fst line_routed) (snd line_routed) (125 # 1000000))
  = Ok tt.
Proof.
  destruct (calculateLinkIdleSlopesFromFlows_outcome (fst line_routed) (snd line_routed)
              (125 # 1000000)) as [H _].
  - intros H. vm_compute in H. discriminate H.
  - apply H. repeat constructor. vm_compute. by eexists.
Defined.

End IdleSlopeDerivation.

(** ** The orchestrator: state, exceptions and the order of the links *)

Section AnalysisState.

Import Network NetworkLatencyAnalysis Examples.

Lemma calculateEndToEndDelayForFlow_state default flow self :
  snd (calculateEndToEndDelayForFlow default flow self) = self.
Proof.
  unfold calculateEndToEndDelayForFlow.
  destruct (pydiv _ _) as [td|e]; [|done].
  destruct (lookupPath _ _ _) as [path|]; [|done].
  apply (delay_loop_sum self flow _ td (Path.contents default path) (fun _ => 0)).
Qed.

(** X21.  The delay calculations only read: whatever they return or raise,
    [calculateQueueDelayForLink] and [calculateEndToEndDelayForFlow] leave
    the analysis object as it was, that is the network with its cached
    paths, the calculator with its CMI, and the configured link speed,
    switch delay and IFG. *)
Theorem delay_calculations_leave_analysis (default : list Link.t) (link : Link.t)
    (flow : Flow.t) (classMaxFrame : Q) (self : NetworkLatencyAnalysis.t) :
  snd (calculateQueueDelayForLink link flow classMaxFrame self) = self
  /\ snd (calculateEndToEndDelayForFlow default flow self) = self.
Proof.
  split; [apply calculateQueueDelayForLink_state|apply calculateEndToEndDelayForFlow_state].
Qed.

Lemma setCMI_setCMI self a b : setCMI (setCMI self a) b = setCMI self b.
Proof. reflexivity. Qed.

Lemma delays_loop_outcome default (b : bool) self flows : forall cur acc,
  (if b then exists x, cur = setCMI self x \/ cur = self else cur = self) ->
  let view flow := if b then setCMI self (Flow.period flow) else self in
  let call flow := fst (calculateEndToEndDelayForFlow default flow (view flow)) in
  (exists ds,
     delays_loop default b flows acc cur
     = (Ok (acc ++ ds),
        if b then match last flows with Some f => view f | None => cur end else self)
     /\ map fst ds = flows
     /\ Forall (fun fd => call (fst fd) = Ok (snd fd)) ds)
  \/ (exists done f rest e,
        delays_loop default b flows acc cur = (Raise e, view f)
        /\ flows = done ++ f :: rest
        /\ Forall (fun f' => is_Ok (call f')) done
        /\ call f = Raise e).
Proof.
  induction flows as [|f fs IH]; intros cur acc Hcur view call; cbn [delays_loop].
  - left. exists []. rewrite app_nil_r. split; [|done].
    destruct b; [done|]. by rewrite Hcur.
  - assert (Hview : (if b then setCMI cur (Flow.period f) else cur) = view f).
    { unfold view. destruct b; [|done]. by destruct Hcur as [x [->| ->]]. }
    cbn zeta. rewrite Hview.
    assert (Hrun : exists r, calculateEndToEndDelayForFlow default f (view f) = (r, view f)
                             /\ call f = r).
    { exists (call f). split; [|done]. unfold call.
      rewrite <- (calculateEndToEndDelayForFlow_state default f (view f)) at 3.
      by destruct (calculateEndToEndDelayForFlow default f (view f)). }
    destruct Hrun as (r & Hrun & Hr). rewrite Hrun. destruct r as [d|e].
    + destruct (IH (view f) (acc ++ [(f, d)])) as [(ds & Hloop & Hk & Hall)|Hfail].
      { unfold view. destruct b; [|done]. exists (Flow.period f). by left. }
      * left. exists ((f, d) :: ds). rewrite Hloop, <- app_assoc.
        split; [|split; [by rewrite <- Hk|constructor; [done|done]]].
        f_equal. f_equal. destruct b; [|done].
        destruct fs as [|f' fs']; [done|]. change (last (f :: f' :: fs')) with (last (f' :: fs')).
        destruct (last (f' :: fs')) eqn:El; [done|]. by apply last_None in El.
      * right. destruct Hfail as (done & f' & rest & e & Hloop & -> & Hall & Hcall).
        exists (f :: done), f', rest, e. rewrite Hloop. split; [done|]. split; [done|].
        split; [|done]. constructor; [|done]. by exists d.
    + right. exists [], f, fs, e. split; [done|]. split; [done|]. split; [constructor|done].
Qed.

(** X22.  [calculateEndToEndDelays(useFlowIntervalAsCMI)]: the flows are
    analysed in registration order, each by
    [calculateEndToEndDelayForFlow], with the calculator's CMI set to the
    flow's period when the flag is given.  If every flow's calculation
    returns, the call returns one entry per flow, and the calculator's CMI
    is back at the configured [self.cmi] (with the flag) or untouched
    (without).  If the calculation of a flow raises, the call raises the
    same exception at the first such flow and, with the flag, leaves the
    calculator's CMI at that flow's period: the reset after the loop is
    not reached. *)
Theorem calculateEndToEndDelays_outcome (default : list Link.t) (useFlowIntervalAsCMI : bool)
    (self : NetworkLatencyAnalysis.t) :
  let view flow := if useFlowIntervalAsCMI then setCMI self (Flow.period flow) else self in
  let call flow := fst (calculateEndToEndDelayForFlow default flow (view flow)) in
  let out := calculateEndToEndDelays default useFlowIntervalAsCMI self in
  (forall ds, fst out = Ok ds ->
     map fst ds = flows (network self)
     /\ Forall (fun fd => call (fst fd) = Ok (snd fd)) ds
     /\ snd out = if useFlowIntervalAsCMI then setCMI self (cmi self) else self)
  /\ (forall e, fst out = Raise e ->
        exists done f rest,
          flows (network self) = done ++ f :: rest
          /\ Forall (fun f' => is_Ok (call f')) done
          /\ call f = Raise e
          /\ snd out = view f)
  /\ ((forall f, f ∈ flows (network self) -> is_Ok (call f)) -> is_Ok (fst out)).
Proof.
  intros view call out.
  destruct (delays_loop_outcome default useFlowIntervalAsCMI self (flows (network self))
              self []) as [(ds & Hloop & Hk & Hall)|(done & f & rest & e & Hloop & Hf & Hall & He)].
  { destruct useFlowIntervalAsCMI; [|done]. exists 0. by right. }
  - assert (Eo : out = (Ok ds, if useFlowIntervalAsCMI then setCMI self (cmi self) else self)).
    { unfold out, calculateEndToEndDelays. rewrite Hloop. cbn [app]. f_equal.
      destruct useFlowIntervalAsCMI; [|done].
      destruct (last _); [unfold view|]; reflexivity. }
    rewrite Eo. cbn [fst snd]. split; [by intros ? [= <-]|]. split; [done|].
    intros _. by exists ds.
  - assert (Eo : out = (Raise e, view f)).
    { unfold out, calculateEndToEndDelays. by rewrite Hloop. }
    rewrite Eo. cbn [fst snd]. split; [done|]. split.
    + intros e' [= <-]. by exists done, f, rest.
    + intros Hok. destruct (Hok f) as [d Hd]; [rewrite Hf; set_solver|].
      change (call f = Raise e) in He. congruence.
Qed.

Lemma calculateEndToEndDelays_outcome_witness :
  fst (calculateEndToEndDelays [] true Cases.stalled_analysis) = Raise ZeroDivisionError
  /\ CBSLatencyCalculator.CMI (calculator (snd (calculateEndToEndDelays [] true
                                                  Cases.stalled_analysis)))
     = Flow.period Cases.flow2
  /\ cmi Cases.stalled_analysis = 125 # 1000000.
Proof.
  destruct (calculateEndToEndDelays_outcome [] true Cases.stalled_analysis) as (_ & H & _).
  destruct (H ZeroDivisionError) as (done & f & rest & Hf & _ & _ & Hs); [reflexivity|].
  split; [reflexivity|]. split; [|reflexivity]. rewrite Hs.
  destruct done as [|f' done]; [by injection Hf as <- _|].
  injection Hf as _ Hf. by destruct done.
Defined.

End AnalysisState.

Section Exceptions.

Import CBSLatencyCalculator Network NetworkLatencyAnalysis Examples.

#[local] Notation only_zde m := (forall e, m = Raise e -> e = ZeroDivisionError).

Lemma only_zde_pydiv a b : only_zde (pydiv a b).
Proof. intros e. destruct (pydiv_cases a b) as [[_ ->]|[_ ->]]; by intros [= <-]. Qed.

Lemma only_zde_bind {A B} (m : result A) (f : A -> result B) :
  only_zde m -> (forall a, only_zde (f a)) -> only_zde (m ≫= f).
Proof. intros Hm Hf e. destruct m as [a|e']; simpl; [apply Hf|]. intros [= <-]. by apply Hm. Qed.

#[local] Ltac only_zde_chain :=
  repeat first
    [ apply only_zde_pydiv
    | apply only_zde_bind; [|intros ?]
    | (intros ? [=]; fail)
    | match goal with |- context [if ?b then _ else _] => destruct b end ].

Lemma only_zde_baStandard c s f : only_zde (baStandard c s f).
Proof. unfold baStandard, tClassA_raw. only_zde_chain. Qed.

Lemma only_zde_qStandardL3V1_loop c s cmf n : forall fan B0,
  only_zde (qStandardL3V1_loop c s cmf n fan B0).
Proof.
  induction n as [|n IH]; intros fan B0; cbn [qStandardL3V1_loop]; [by intros ? [=]|].
  destruct (Qlt_le_dec 0 B0); [|apply IH]. cbn zeta.
  apply only_zde_bind; [apply only_zde_pydiv|intros a].
  apply only_zde_bind; [apply only_zde_pydiv|intros b]. apply IH.
Qed.

Lemma only_zde_qStandardL3V1 c s cmf nr : only_zde (qStandardL3V1 c s cmf nr).
Proof.
  unfold qStandardL3V1.
  apply only_zde_bind; [apply only_zde_pydiv|intros q].
  apply only_zde_bind; [apply only_zde_qStandardL3V1_loop|intros fan].
  only_zde_chain.
Qed.

Lemma only_zde_qStandardL3V2_loop c s cmf l : forall fan B0,
  only_zde (qStandardL3V2_loop c s cmf l fan B0).
Proof.
  induction l as [|Bi l IH]; intros fan B0; cbn [qStandardL3V2_loop]; [by intros ? [=]|].
  destruct (Qlt_le_dec 0 B0); [|apply IH]. cbn zeta.
  apply only_zde_bind; [apply only_zde_pydiv|intros a].
  apply only_zde_bind; [apply only_zde_pydiv|intros b]. apply IH.
Qed.

Lemma only_zde_qStandardL3V2 c s cmf l : only_zde (qStandardL3V2 c s cmf l).
Proof.
  unfold qStandardL3V2.
  apply only_zde_bind; [apply only_zde_pydiv|intros q].
  apply only_zde_bind; [apply only_zde_qStandardL3V2_loop|intros fan].
  only_zde_chain.
Qed.

Lemma only_zde_plenary100Mbit c s f nr : only_zde (plenary100Mbit c s f nr).
Proof. unfold plenary100Mbit, plenary100Mbit_N. only_zde_chain. Qed.

Lemma only_zde_plenaryFasterMedia c : only_zde (plenaryFasterMedia c).
Proof. unfold plenaryFasterMedia. only_zde_chain. Qed.

Lemma only_zde_plenaryFasterMediaV2 c s f : only_zde (plenaryFasterMediaV2 c s f).
Proof. unfold plenaryFasterMediaV2. only_zde_chain. Qed.

Lemma only_zde_run_outcome s f cmf nr c ls l :
  only_zde (fst (Derived.run_outcome s f cmf nr c ls l)).
Proof.
  unfold Derived.run_outcome. intros e.
  destruct (baStandard c s f) eqn:E1; [|intros [= <-]; by eapply only_zde_baStandard].
  destruct (qStandardL3V1 c s cmf nr) eqn:E2;
    [|intros [= <-]; by eapply only_zde_qStandardL3V1].
  destruct (qStandardL3V2 c s cmf (sorted l)) eqn:E3;
    [|intros [= <-]; by eapply only_zde_qStandardL3V2].
  destruct (plenary100Mbit c s f nr) eqn:E4;
    [|intros [= <-]; by eapply only_zde_plenary100Mbit].
  destruct (plenaryFasterMedia c) eqn:E5;
    [|intros [= <-]; by eapply only_zde_plenaryFasterMedia].
  destruct (plenaryFasterMediaV2 c s f) eqn:E6;
    [|intros [= <-]; by eapply only_zde_plenaryFasterMediaV2].
  destruct (qStandardL3V2 c s cmf (reverse (sorted l))) eqn:E7;
    [|intros [= <-]; by eapply only_zde_qStandardL3V2].
  done.
Qed.

Lemma only_zde_calculateQueueDelayForLink link flow cmf self :
  only_zde (fst (calculateQueueDelayForLink link flow cmf self)).
Proof.
  unfold calculateQueueDelayForLink.
  destruct (bool_decide _); [done|].
  destruct (getNumInputLinks_default (network self) link) as [z ->].
  rewrite (runAlgorithmsForPort_outcome _ _ _ _ _ _
             (Network.getInputIdleSlopes (network self) link)) by done.
  match goal with |- context [Derived.run_outcome ?a ?b ?c ?d ?e ?f ?g] =>
    pose proof (only_zde_run_outcome a b c d e f g) as Hz;
    destruct (Derived.run_outcome a b c d e f g) as [r st'] end.
  exact Hz.
Qed.

Lemma only_zde_per_link_delays self flow cmf links :
  only_zde (Spec.per_link_delays self flow cmf links).
Proof.
  induction links as [|link links IH]; cbn [Spec.per_link_delays]; [by intros ? [=]|].
  apply only_zde_bind; [apply only_zde_calculateQueueDelayForLink|intros r].
  apply only_zde_bind; [apply IH|intros rs]. by intros ? [=].
Qed.

Lemma calculateEndToEndDelayForFlow_sum default flow self path :
  lookupPath (network self) (Flow.src flow) (Flow.dst flow) = Some path ->
  Spec.dict_req (fst (calculateEndToEndDelayForFlow default flow self))
                (Spec.end_to_end self flow (Path.contents default path)).
Proof.
  intros Hpath. unfold calculateEndToEndDelayForFlow, Spec.end_to_end. rewrite Hpath.
  destruct (pydiv _ _) as [td|e]; [|done]. rewrite bind_Ok.
  set (links := Path.contents default path).
  set (cmf := findClassMaxFrame (network self) * 8 + ifg self).
  destruct (delay_loop_sum self flow cmf td links (fun _ => 0)) as [_ H].
  change CBSLatencyCalculator.getEmptyResultDict with (Spec.dict_of (fun _ => 0)).
  destruct (fst (delay_loop _ _ _ _ _ _)) as [d|e],
           (Spec.per_link_delays self flow cmf links) as [rs|e']; simpl in *; try done.
  eapply dict_eq_trans; [apply H|]. apply dict_of_eq. intros key _. ring.
Qed.

Lemma only_zde_end_to_end self flow links : only_zde (Spec.end_to_end self flow links).
Proof.
  unfold Spec.end_to_end.
  apply only_zde_bind; [apply only_zde_pydiv|intros td].
  apply only_zde_bind; [apply only_zde_per_link_delays|intros ds]. by intros ? [=].
Qed.

Lemma only_zde_calculateEndToEndDelayForFlow default flow self :
  only_zde (fst (calculateEndToEndDelayForFlow default flow self)).
Proof.
  destruct (lookupPath (network self) (Flow.src flow) (Flow.dst flow)) as [path|] eqn:Hp.
  - pose proof (calculateEndToEndDelayForFlow_sum default flow self path Hp) as H.
    pose proof (only_zde_end_to_end self flow (Path.contents default path)) as Hz.
    destruct (fst (calculateEndToEndDelayForFlow default flow self)) as [d|e]; [done|].
    destruct (Spec.end_to_end _ _ _) as [d'|e']; [done|]. simpl in H. subst e'.
    intros ? [= <-]. by apply Hz.
  - unfold calculateEndToEndDelayForFlow. rewrite Hp.
    pose proof (only_zde_pydiv (Flow.size flow * 8 + ifg self) (linkspeed self)) as Hz.
    destruct (pydiv _ _); [done|]. intros ? [= <-]. by apply Hz.
Qed.

(** X23.  What the aggregation passes on.  Over the exact rationals of
    this model, [calculateQueueDelayForLink],
    [calculateEndToEndDelayForFlow] and [calculateEndToEndDelays] raise
    nothing but the [ZeroDivisionError] of a division in a formula or of the
    transmission delay.  The accesses [flowDelay[key]] and [result[key]]
    never raise [KeyError], because [runAlgorithmsForPort] and
    [getEmptyResultDict] use the same seven keys; a flow without cached
    path is never dereferenced; and [getNumInputLinks(link)] does not
    raise. *)
Theorem aggregation_raises_only_ZeroDivisionError (default : list Link.t)
    (link : Link.t) (flow : Flow.t) (classMaxFrame : Q) (useFlowIntervalAsCMI : bool)
    (self : NetworkLatencyAnalysis.t) (e : exn) :
  fst (calculateQueueDelayForLink link flow classMaxFrame self) = Raise e
  \/ fst (calculateEndToEndDelayForFlow default flow self) = Raise e
  \/ fst (calculateEndToEndDelays default useFlowIntervalAsCMI self) = Raise e ->
  e = ZeroDivisionError.
Proof.
  intros [H|[H|H]].
  - by eapply only_zde_calculateQueueDelayForLink.
  - by eapply only_zde_calculateEndToEndDelayForFlow.
  - destruct (delays_loop_outcome default useFlowIntervalAsCMI self (flows (network self))
                self []) as [(ds & Hloop & _)|(done & f & rest & e' & Hloop & _ & _ & He)].
    { destruct useFlowIntervalAsCMI; [|done]. exists 0. by right. }
    + unfold calculateEndToEndDelays in H. by rewrite Hloop in H.
    + unfold calculateEndToEndDelays in H. rewrite Hloop in H. injection H as <-.
      by eapply only_zde_calculateEndToEndDelayForFlow.
Qed.

Lemma aggregation_raises_only_ZeroDivisionError_witness :
  fst (calculateEndToEndDelayForFlow [] flow1
         (NetworkLatencyAnalysis.init 0 (125 # 1000000) 0 64 1526 96))
  = Raise ZeroDivisionError.
Proof.
  destruct (fst (calculateEndToEndDelayForFlow [] flow1
                   (NetworkLatencyAnalysis.init 0 (125 # 1000000) 0 64 1526 96)))
    as [d|e] eqn:E; [vm_compute in E; discriminate E|].
  f_equal.
  apply (aggregation_raises_only_ZeroDivisionError [] (Link.mk "a" "b" 0 0 0) flow1
           0 false (NetworkLatencyAnalysis.init 0 (125 # 1000000) 0 64 1526 96) e).
  right. left. exact E.
Defined.

End Exceptions.

Section LinkOrder.

Import CBSLatencyCalculator Network NetworkLatencyAnalysis Examples.

Lemma Qsum_perm (l1 l2 : list Q) : l1 ≡ₚ l2 -> Spec.Qsum l1 == Spec.Qsum l2.
Proof.
  unfold Spec.Qsum.
  induction 1 as [|x l1 l2 H IH|x y l|l1 l2 l3 H1 IH1 H2 IH2]; cbn [foldr].
  - reflexivity.
  - by rewrite IH.
  - ring.
  - by rewrite IH1.
Qed.

Lemma per_link_delays_perm self flow cmf l1 l2 :
  l1 ≡ₚ l2 ->
  match Spec.per_link_delays self flow cmf l1, Spec.per_link_delays self flow cmf l2 with
  | Ok d1, Ok d2 => d1 ≡ₚ d2
  | Raise _, Raise _ => True
  | _, _ => False
  end.
Proof.
  induction 1 as [|x l1 l2 H IH|x y l|l1 l2 l3 H1 IH1 H2 IH2];
    cbn [Spec.per_link_delays].
  - done.
  - destruct (fst (calculateQueueDelayForLink x flow cmf self)); [|done].
    rewrite !bind_Ok.
    destruct (Spec.per_link_delays self flow cmf l1), (Spec.per_link_delays self flow cmf l2);
      simpl in *; try done. by constructor.
  - destruct (fst (calculateQueueDelayForLink x flow cmf self)),
             (fst (calculateQueueDelayForLink y flow cmf self)); simpl; try done;
      destruct (Spec.per_link_delays self flow cmf l); simpl; try done; apply perm_swap.
  - destruct (Spec.per_link_delays self flow cmf l1), (Spec.per_link_delays self flow cmf l2),
             (Spec.per_link_delays self flow cmf l3); try done. by etrans.
Qed.

Lemma end_to_end_perm self flow l1 l2 :
  l1 ≡ₚ l2 -> Spec.dict_req (Spec.end_to_end self flow l1) (Spec.end_to_end self flow l2).
Proof.
  intros Hp. unfold Spec.end_to_end.
  destruct (pydiv _ _) as [td|e]; [|done]. rewrite !bind_Ok.
  set (cmf := findClassMaxFrame (network self) * 8 + ifg self).
  pose proof (per_link_delays_perm self flow cmf l1 l2 Hp) as H.
  pose proof (only_zde_per_link_delays self flow cmf l1) as Hz1.
  pose proof (only_zde_per_link_delays self flow cmf l2) as Hz2.
  destruct (Spec.per_link_delays self flow cmf l1) as [d1|e1],
           (Spec.per_link_delays self flow cmf l2) as [d2|e2]; try done.
  - rewrite !bind_Ok. cbn [Spec.dict_req]. apply dict_of_eq. intros key _.
    assert (E1 : Spec.Qsum (map (Spec.value key) d1) == Spec.Qsum (map (Spec.value key) d2)).
    { apply Qsum_perm. by apply Permutation_map. }
    assert (E2 : length l1 = length l2) by by apply Permutation_length.
    assert (E3 : Spec.bridge_links self l1 = Spec.bridge_links self l2).
    { unfold Spec.bridge_links. apply Permutation_length. by rewrite Hp. }
    by rewrite E1, E2, E3.
  - simpl. by rewrite (Hz1 e1), (Hz2 e2).
Qed.

Lemma dict_req_trans m1 m2 m3 : Spec.dict_req m1 m2 -> Spec.dict_req m2 m3 -> Spec.dict_req m1 m3.
Proof.
  destruct m1, m2, m3; simpl; try done; [apply dict_eq_trans|congruence].
Qed.

(** X24.  The order in which a path lists its links does not matter: the
    outcome of [calculateEndToEndDelayForFlow] is the end-to-end sum taken
    over the links of the cached path in any order, for one in the order of
    travel, although the path holds them as they were collected, from the
    destination back. *)
Theorem end_to_end_delay_ignores_link_order (default : list Link.t) (flow : Flow.t)
    (self : NetworkLatencyAnalysis.t) (path : Path.t) (links' : list Link.t) :
  lookupPath (network self) (Flow.src flow) (Flow.dst flow) = Some path ->
  Path.contents default path ≡ₚ links' ->
  Spec.dict_req (fst (calculateEndToEndDelayForFlow default flow self))
                (Spec.end_to_end self flow links')
  /\ Spec.dict_req (fst (calculateEndToEndDelayForFlow default flow self))
                   (Spec.end_to_end self flow (reverse (Path.contents default path))).
Proof.
  intros Hpath Hperm.
  pose proof (calculateEndToEndDelayForFlow_sum default flow self path Hpath) as H.
  split; (eapply dict_req_trans; [exact H|]); apply end_to_end_perm; [done|].
  by rewrite reverse_Permutation.
Qed.

Lemma end_to_end_delay_ignores_link_order_witness :
  Spec.dict_req
    (fst (calculateEndToEndDelayForFlow (snd line_routed) flow1 analysis1))
    (Spec.end_to_end analysis1 flow1
       [ Link.mk "N0" "S1" 100000000 0 48832000; Link.mk "S1" "S2" 100000000 0 48832000;
         Link.mk "S2" "S3" 100000000 0 48832000; Link.mk "S3" "N1" 100000000 0 48832000 ]).
Proof.
  destruct (end_to_end_delay_ignores_link_order (snd line_routed) flow1 analysis1
              (Path.init "N0" "N1")
              [ Link.mk "N0" "S1" 100000000 0 48832000; Link.mk "S1" "S2" 100000000 0 48832000;
                Link.mk "S2" "S3" 100000000 0 48832000; Link.mk "S3" "N1" 100000000 0 48832000 ])
    as [H _].
  - reflexivity.
  - assert (E : Path.contents (snd line_routed) (Path.init "N0" "N1")
               = reverse [ Link.mk "N0" "S1" 100000000 0 48832000;
                           Link.mk "S1" "S2" 100000000 0 48832000;
                           Link.mk "S2" "S3" 100000000 0 48832000;
                           Link.mk "S3" "N1" 100000000 0 48832000 ])
      by (vm_compute; reflexivity).
    rewrite E. apply reverse_Permutation.
  - exact H.
Defined.

End LinkOrder.

(** ** The order of registration *)

Section RegistrationOrder.

Import Network Registry Examples.

Lemma find_prefix {A} (f : A -> bool) l k x : find f l = Some x -> find f (l ++ k) = Some x.
Proof.
  induction l as [|y l IH]; cbn [find app]; [done|]. destruct (f y); [done|apply IH].
Qed.

Lemma run_call_appends n c :
  nodes n `prefix_of` nodes (run_call n c)
  /\ bridges n `prefix_of` bridges (run_call n c)
  /\ links n `prefix_of` links (run_call n c)
  /\ flows n `prefix_of` flows (run_call n c)
  /\ paths (run_call n c) = paths n /\ IFG (run_call n c) = IFG n
  /\ (NoDup (nodes n) -> NoDup (nodes (run_call n c)))
  /\ (NoDup (bridges n) -> NoDup (bridges (run_call n c))).
Proof.
  destruct c as [node|bridge|s d r dl i|s d r dl i|flow]; cbn [run_call].
  - unfold addNode. case_bool_decide as Hin; [by repeat split|]. cbn.
    repeat split; try done; [by apply prefix_app_r|].
    intros Hnd. apply NoDup_app. split; [done|]. split; [|apply NoDup_singleton].
    intros x Hx Hx'. apply list_elem_of_singleton in Hx' as ->. done.
  - unfold addBridge. case_bool_decide as Hin; [by repeat split|]. cbn.
    repeat split; try done; [by apply prefix_app_r|].
    intros Hnd. apply NoDup_app. split; [done|]. split; [|apply NoDup_singleton].
    intros x Hx Hx'. apply list_elem_of_singleton in Hx' as ->. done.
  - unfold addLink. destruct (getLink n s d); [by repeat split|]. cbn.
    repeat split; try done. by apply prefix_app_r.
  - unfold addBidirectionalLink, addLink.
    destruct (getLink n s d); [|cbn [links]];
      (match goal with |- context [getLink ?m d s] => destruct (getLink m d s) end);
      cbn; repeat split; try done;
      try (by apply prefix_app_r); by apply prefix_app_r, prefix_app_r.
  - unfold addFlow. destruct (getFlow n _ _); [by repeat split|]. cbn.
    repeat split; try done. by apply prefix_app_r.
Qed.

Lemma present_keeps n c c' : present n c -> present (run_call n c') c.
Proof.
  destruct (run_call_appends n c') as ([k1 E1] & [k2 E2] & [k3 E3] & [k4 E4] & _).
  destruct c as [node|bridge|s d r dl i|s d r dl i|flow]; cbn [present];
    rewrite ?E1, ?E2, ?E3, ?E4, ?fmap_app, ?elem_of_app; tauto.
Qed.

Lemma run_calls_appends cs : forall n,
  nodes n `prefix_of` nodes (run_calls n cs)
  /\ bridges n `prefix_of` bridges (run_calls n cs)
  /\ links n `prefix_of` links (run_calls n cs)
  /\ flows n `prefix_of` flows (run_calls n cs)
  /\ paths (run_calls n cs) = paths n /\ IFG (run_calls n cs) = IFG n
  /\ (NoDup (nodes n) -> NoDup (nodes (run_calls n cs)))
  /\ (NoDup (bridges n) -> NoDup (bridges (run_calls n cs)))
  /\ (forall c, c ∈ cs -> present (run_calls n cs) c).
Proof.
  induction cs as [|c cs IH] using rev_ind; intros n.
  - cbn. repeat split; try done. intros c Hc. by apply elem_of_nil in Hc.
  - unfold run_calls in *. rewrite fold_left_app. cbn [fold_left].
    destruct (IH n) as (A1 & A2 & A3 & A4 & A5 & A6 & A7 & A8 & A9).
    destruct (run_call_appends (fold_left run_call cs n) c)
      as (B1 & B2 & B3 & B4 & B5 & B6 & B7 & B8).
    split; [by etrans|]. split; [by etrans|]. split; [by etrans|]. split; [by etrans|].
    split; [congruence|]. split; [congruence|]. split; [auto|]. split; [auto|].
    intros c' Hc'. apply elem_of_app in Hc' as [Hc'|Hc'].
    + by apply present_keeps, A9.
    + apply list_elem_of_singleton in Hc' as ->. apply run_call_registers.
Qed.

(** X25.  Registration only appends.  After any sequence of [addNode],
    [addBridge], [addLink], [addBidirectionalLink] and [addFlow] calls, the
    lists of nodes, bridges, links and flows start with what they held
    before, in the same order; node and bridge names that were free of
    duplicates stay so; everything a call of the sequence asked for is
    registered; the cached paths and the IFG are untouched; and [getLink]
    and [getFlow] return for every pair that was registered the very entry
    they returned before: no registration call changes the rate, delay or
    idle slope of a link, or the size or period of a flow. *)
Theorem registration_only_appends (n : Network.t) (cs : list call) :
  let n' := run_calls n cs in
  nodes n `prefix_of` nodes n' /\ bridges n `prefix_of` bridges n'
  /\ links n `prefix_of` links n' /\ flows n `prefix_of` flows n'
  /\ paths n' = paths n /\ IFG n' = IFG n
  /\ (NoDup (nodes n) -> NoDup (nodes n'))
  /\ (NoDup (bridges n) -> NoDup (bridges n'))
  /\ (forall c, c ∈ cs -> present n' c)
  /\ (forall src dst l, getLink n src dst = Some l -> getLink n' src dst = Some l)
  /\ (forall src dst f, getFlow n src dst = Some f -> getFlow n' src dst = Some f).
Proof.
  intros n'.
  destruct (run_calls_appends cs n) as (A1 & A2 & A3 & A4 & A5 & A6 & A7 & A8 & A9).
  repeat (split; [done|]). split.
  - intros s d l H. destruct A3 as [k E]. unfold getLink, n'. rewrite E.
    by apply find_prefix.
  - intros s d f H. destruct A4 as [k E]. unfold getFlow, n'. rewrite E.
    by apply find_prefix.
Qed.

End RegistrationOrder.
